(** * NexaClient: binary framing, request correlation and the TOON codec

    A shallow embedding of [nexaclient]'s two algorithmic parts:

    - [NexaClient]: the client object of the binary protocol (frame
      header construction in [_sendMessage], the receive loop of
      [_handleData], the FIFO dispatch of [_handleMessage], the socket
      [close] handler and [disconnect]);
    - [TOON]: [TOONSerializer] and [TOONParser] of [src/toon.js].

    JavaScript strings are modelled as lists of 8-bit code units
    ([list ascii], code units 0..255); numbers are modelled by their
    integral values ([Z]), which is exact for the safe-integer range. *)

From Stdlib Require Import ZArith List Bool Ascii Lia.
From Stdlib Require DecimalPos.
From Stdlib Require String.
Import String.StringSyntax.
From Stdlib Require Import Strings.Byte.
Import ListNotations.

#[local] Set Warnings "-register-all".
Local Open Scope string_scope.
Local Open Scope list_scope.

(** ** JavaScript values *)

(** A string literal of the source, as a list of code units. *)
Definition js (s : String.string) : list ascii := String.list_ascii_of_string s.
Arguments js s%_string_scope.

(** The JSON-like values both halves of the program manipulate: decoded
    MessagePack payloads and TOON trees.  A [Mapping] lists the own
    properties of an object in enumeration order. *)
Inductive Node : Type :=
| Null
| Bool (b : bool)
| Number (n : Z)
| Str (s : list ascii)
| Mapping (entries : list (list ascii * Node))
| Sequence (items : list Node).

Definition ascii_eqb_list (a b : list ascii) : bool :=
  if list_eq_dec ascii_dec a b then true else false.

(** [obj[key]] on a plain object: [None] stands for [undefined]. *)
Fixpoint lookup (key : list ascii) (entries : list (list ascii * Node)) : option Node :=
  match entries with
  | [] => None
  | (k, v) :: rest => if ascii_eqb_list k key then Some v else lookup key rest
  end.

(** JavaScript truthiness, as used by [||]. *)
Definition truthy (v : Node) : bool :=
  match v with
  | Null => false
  | Bool b => b
  | Number n => negb (n =? 0)%Z
  | Str s => match s with [] => false | _ => true end
  | Mapping _ | Sequence _ => true
  end.

(** ** The binary protocol client *)

Module NexaClient.

Local Open Scope Z_scope.
Local Open Scope list_scope.

(** Protocol constants. *)
Definition MAGIC : Z := 0x4E455841.
Definition VERSION : Z := 0x01.

Definition MSG_CONNECT : Z := 0x01.
Definition MSG_CREATE : Z := 0x02.
Definition MSG_READ : Z := 0x03.
Definition MSG_UPDATE : Z := 0x04.
Definition MSG_DELETE : Z := 0x05.
Definition MSG_QUERY : Z := 0x06.
Definition MSG_VECTOR_SEARCH : Z := 0x07.
Definition MSG_BATCH_WRITE : Z := 0x08.
Definition MSG_PING : Z := 0x09.
Definition MSG_DISCONNECT : Z := 0x0A.
Definition MSG_QUERY_TOON : Z := 0x0B.
Definition MSG_EXPORT_TOON : Z := 0x0C.

Definition MSG_SUCCESS : Z := 0x81.
Definition MSG_ERROR : Z := 0x82.
Definition MSG_NOT_FOUND : Z := 0x83.
Definition MSG_DUPLICATE : Z := 0x84.
Definition MSG_PONG : Z := 0x88.

(** *** Node.js [Buffer] *)

Definition Buffer := list byte.

Definition byte_of_Z (z : Z) : byte :=
  match Byte.of_N (Z.to_N (z mod 256)) with
  | Some b => b
  | None => x00
  end.

Definition Z_of_byte (b : byte) : Z := Z.of_N (Byte.to_N b).

(** [Buffer.alloc(n)]: [n] zero bytes. *)
Definition Buffer_alloc (n : nat) : Buffer := repeat x00 n.

(** Overwrite [bs] into [buf] at [offset]. *)
Definition splice (buf : Buffer) (offset : nat) (bs : list byte) : Buffer :=
  firstn offset buf ++ bs ++ skipn (offset + length bs) buf.

(** The [writeUInt*] methods throw a [RangeError] ([None]) when the value
    does not fit the field or the field does not fit the buffer. *)
Definition writeUInt8 (buf : Buffer) (value : Z) (offset : nat) : option Buffer :=
  if (0 <=? value) && (value <=? 0xFF) && (offset + 1 <=? length buf)%nat
  then Some (splice buf offset [byte_of_Z value])
  else None.

Definition writeUInt16BE (buf : Buffer) (value : Z) (offset : nat) : option Buffer :=
  if (0 <=? value) && (value <=? 0xFFFF) && (offset + 2 <=? length buf)%nat
  then Some (splice buf offset [byte_of_Z (Z.shiftr value 8); byte_of_Z value])
  else None.

Definition writeUInt32BE (buf : Buffer) (value : Z) (offset : nat) : option Buffer :=
  if (0 <=? value) && (value <=? 0xFFFFFFFF) && (offset + 4 <=? length buf)%nat
  then Some (splice buf offset
               [byte_of_Z (Z.shiftr value 24); byte_of_Z (Z.shiftr value 16);
                byte_of_Z (Z.shiftr value 8); byte_of_Z value])
  else None.

Definition readUInt8 (buf : Buffer) (offset : nat) : Z :=
  Z_of_byte (nth offset buf x00).

Definition readUInt32BE (buf : Buffer) (offset : nat) : Z :=
  readUInt8 buf offset * 2 ^ 24 + readUInt8 buf (offset + 1) * 2 ^ 16
  + readUInt8 buf (offset + 2) * 2 ^ 8 + readUInt8 buf (offset + 3).

(** [buf.slice(start, end)] and [buf.slice(start)]. *)
Definition slice (buf : Buffer) (start stop : nat) : Buffer :=
  firstn (stop - start) (skipn start buf).

Definition slice_from (buf : Buffer) (start : nat) : Buffer := skipn start buf.

(** *** Errors, events and the client object *)

(** What a [try] block of the receive loop caught. *)
Inductive Thrown : Type :=
| DecodeFailure        (* msgpack.decode threw *)
| TypeError.           (* a property was read from null *)

(** The [Error] objects the client constructs, one constructor per
    message text of the source. *)
Inductive Error : Type :=
| Error_NotConnected                 (* 'Not connected to NexaDB' *)
| Error_ConnectionClosed             (* 'Connection closed' *)
| Error_InvalidMagic (magic : Z)     (* `Invalid protocol magic: ${magic.toString(16)}` *)
| Error_DecodeFailed (cause : Thrown) (* `Failed to decode MessagePack: ${err.message}` *)
| Error_Server (message : Node)      (* new Error(data.error || 'Unknown error') *)
| Error_NotFound                     (* 'Not found' *)
| Error_UnknownResponse (msgType : Z) (* `Unknown response type: ${msgType}` *)
| Error_ConnectTimeout (ms : Z)      (* `Connection timeout after ${this.timeout}ms` *)
| Error_OutOfRange                   (* RangeError of a Buffer write *)
| Error_Transport (code : Z).        (* the err of the socket's 'error' event *)

(** Callbacks handed to [setTimeout]. *)
Inductive Callback : Type :=
| Reconnect        (* () => this.connect().catch(...) *)
| ConnectTimeout.  (* the timeout of connect() *)

(** The effects the client has on the world around it, in the order
    they happen: events emitted, socket calls, promise settlements of
    pending requests (by request id) and timers. *)
Inductive Event : Type :=
| Emit_connect
| Emit_disconnect
| Emit_error (e : Error)
| Emit_message (msgType : Z) (data : Node)
| Socket_create
| Socket_write (message : Buffer)
| Socket_destroy
| Socket_end
| Resolve (id : Z) (data : Node)
| Reject (id : Z) (e : Error)
| SetTimeout (cb : Callback) (ms : Z)
| ClearTimeout.

Record PendingRequest : Type := {
  id : Z;
  timestamp : Z
}.

Record Client : Type := {
  timeout : Z;
  autoReconnect : bool;
  socket : bool;                 (* this.socket is not null *)
  connected : bool;
  connecting : bool;
  pendingRequests : list PendingRequest;
  requestId : Z;
  buffer : Buffer;
  trace : list Event             (* effects so far, oldest first *)
}.

(** The constructor, for the two options the model keeps. *)
Definition new_client (opt_timeout : Z) (opt_autoReconnect : bool) : Client :=
  {| timeout := opt_timeout; autoReconnect := opt_autoReconnect;
     socket := false; connected := false; connecting := false;
     pendingRequests := []; requestId := 0; buffer := []; trace := [] |}.

Definition set_autoReconnect (v : bool) (c : Client) : Client :=
  {| timeout := timeout c; autoReconnect := v; socket := socket c;
     connected := connected c; connecting := connecting c;
     pendingRequests := pendingRequests c; requestId := requestId c;
     buffer := buffer c; trace := trace c |}.

Definition set_socket (v : bool) (c : Client) : Client :=
  {| timeout := timeout c; autoReconnect := autoReconnect c; socket := v;
     connected := connected c; connecting := connecting c;
     pendingRequests := pendingRequests c; requestId := requestId c;
     buffer := buffer c; trace := trace c |}.

Definition set_connected (v : bool) (c : Client) : Client :=
  {| timeout := timeout c; autoReconnect := autoReconnect c; socket := socket c;
     connected := v; connecting := connecting c;
     pendingRequests := pendingRequests c; requestId := requestId c;
     buffer := buffer c; trace := trace c |}.

Definition set_connecting (v : bool) (c : Client) : Client :=
  {| timeout := timeout c; autoReconnect := autoReconnect c; socket := socket c;
     connected := connected c; connecting := v;
     pendingRequests := pendingRequests c; requestId := requestId c;
     buffer := buffer c; trace := trace c |}.

Definition set_pendingRequests (v : list PendingRequest) (c : Client) : Client :=
  {| timeout := timeout c; autoReconnect := autoReconnect c; socket := socket c;
     connected := connected c; connecting := connecting c;
     pendingRequests := v; requestId := requestId c;
     buffer := buffer c; trace := trace c |}.

Definition set_requestId (v : Z) (c : Client) : Client :=
  {| timeout := timeout c; autoReconnect := autoReconnect c; socket := socket c;
     connected := connected c; connecting := connecting c;
     pendingRequests := pendingRequests c; requestId := v;
     buffer := buffer c; trace := trace c |}.

Definition set_buffer (v : Buffer) (c : Client) : Client :=
  {| timeout := timeout c; autoReconnect := autoReconnect c; socket := socket c;
     connected := connected c; connecting := connecting c;
     pendingRequests := pendingRequests c; requestId := requestId c;
     buffer := v; trace := trace c |}.

(** Record one effect. *)
Definition log (e : Event) (c : Client) : Client :=
  {| timeout := timeout c; autoReconnect := autoReconnect c; socket := socket c;
     connected := connected c; connecting := connecting c;
     pendingRequests := pendingRequests c; requestId := requestId c;
     buffer := buffer c; trace := trace c ++ [e] |}.

(** *** [_sendMessage] *)

(** "Build header (12 bytes)" and "Send header + payload" of
    [_sendMessage]: the five header writes in source order, then
    [Buffer.concat([header, payload])]. *)
Definition build_message (msgType : Z) (payload : Buffer) : option Buffer :=
  let header := Buffer_alloc 12 in
  match writeUInt32BE header MAGIC 0 with
  | None => None
  | Some header =>
  match writeUInt8 header VERSION 4 with
  | None => None
  | Some header =>
  match writeUInt8 header msgType 5 with
  | None => None
  | Some header =>
  match writeUInt16BE header 0 6 with
  | None => None
  | Some header =>
  match writeUInt32BE header (Z.of_nat (length payload)) 8 with
  | None => None
  | Some header => Some (header ++ payload)
  end end end end end.

(** How the promise returned by [_sendMessage] stands when the call
    returns. *)
Inductive SendResult : Type :=
| Rejected (e : Error)     (* already rejected *)
| Awaiting (id : Z).       (* queued under this request id *)

Section Codec.

(** msgpack-lite, the external payload codec: [msgpack.encode] and
    [msgpack.decode] ([None] when it throws). *)
Variable msgpack_encode : Node -> Buffer.
Variable msgpack_decode : Buffer -> option Node.

(** [_sendMessage(msgType, data)] at time [now] ([Date.now()]). *)
Definition _sendMessage (c : Client) (msgType : Z) (data : Node) (now : Z)
  : Client * SendResult :=
  if negb (connected c) then (c, Rejected Error_NotConnected)
  else
    let payload := msgpack_encode data in
    match build_message msgType payload with
    | None => (c, Rejected Error_OutOfRange)
    | Some message =>
        let c := log (Socket_write message) c in
        let requestId' := requestId c in
        let c := set_requestId (requestId c + 1) c in
        let c := set_pendingRequests
                   (pendingRequests c ++ [{| id := requestId'; timestamp := now |}]) c in
        (c, Awaiting requestId')
    end.

(** *** [_handleMessage] *)

(** A statement either completes or throws; the state changes made
    before the throw stay. *)
Inductive Completion : Type :=
| Normal (c : Client)
| Throw (c : Client) (t : Thrown).

(** [data.error || 'Unknown error']: reading a property of [null]
    throws a TypeError; primitives and arrays have no such property. *)
Definition error_message (data : Node) : option Node :=
  match data with
  | Null => None
  | Mapping entries =>
      match lookup (js "error") entries with
      | Some v => if truthy v then Some v else Some (Str (js "Unknown error"))
      | None => Some (Str (js "Unknown error"))
      end
  | _ => Some (Str (js "Unknown error"))
  end.

Definition _handleMessage (c : Client) (msgType : Z) (data : Node) : Completion :=
  match pendingRequests c with
  | [] =>
      (* Unsolicited message *)
      Normal (log (Emit_message msgType data) c)
  | request :: rest =>
      let c := set_pendingRequests rest c in
      if (msgType =? MSG_SUCCESS) || (msgType =? MSG_PONG) then
        Normal (log (Resolve (id request) data) c)
      else if msgType =? MSG_ERROR then
        match error_message data with
        | Some m => Normal (log (Reject (id request) (Error_Server m)) c)
        | None => Throw c TypeError
        end
      else if msgType =? MSG_NOT_FOUND then
        Normal (log (Reject (id request) Error_NotFound) c)
      else
        Normal (log (Reject (id request) (Error_UnknownResponse msgType)) c)
  end.

(** *** [_handleData] *)

(** The [try { decode; _handleMessage } catch { emit error }] block of
    the receive loop, for one extracted frame. *)
Definition dispatch (c : Client) (msgType : Z) (payloadBuf : Buffer) : Client :=
  match msgpack_decode payloadBuf with
  | None => log (Emit_error (Error_DecodeFailed DecodeFailure)) c
  | Some payload =>
      match _handleMessage c msgType payload with
      | Normal c => c
      | Throw c t => log (Emit_error (Error_DecodeFailed t)) c
      end
  end.

(** The [while (this.buffer.length >= 12)] loop.  Every iteration that
    continues removes at least 12 bytes, so [fuel] above the buffer
    length never runs out (see [process_fuel]). *)
Fixpoint process (fuel : nat) (c : Client) : Client :=
  match fuel with
  | O => c
  | S fuel =>
      if (12 <=? length (buffer c))%nat then
        let magic := readUInt32BE (buffer c) 0 in
        let version := readUInt8 (buffer c) 4 in
        let msgType := readUInt8 (buffer c) 5 in
        let payloadLen := readUInt32BE (buffer c) 8 in
        if Z.of_nat (length (buffer c)) <? 12 + payloadLen then
          c   (* Wait for more data *)
        else if negb (magic =? MAGIC) then
          log Socket_destroy (log (Emit_error (Error_InvalidMagic magic)) c)
        else
          let payloadBuf := slice (buffer c) 12 (12 + Z.to_nat payloadLen) in
          let c := set_buffer (slice_from (buffer c) (12 + Z.to_nat payloadLen)) c in
          process fuel (dispatch c msgType payloadBuf)
      else c
  end.

Definition _handleData (c : Client) (data : Buffer) : Client :=
  let c := set_buffer (buffer c ++ data) c in
  process (S (length (buffer c))) c.

(** *** Connection life cycle *)

(** The socket's 'close' handler. *)
Definition on_close (c : Client) : Client :=
  let c := set_connected false c in
  let c := log Emit_disconnect c in
  (* Reject all pending requests *)
  let c := fold_left (fun c req => log (Reject (id req) Error_ConnectionClosed) c)
                     (pendingRequests c) c in
  let c := set_pendingRequests [] c in
  (* Auto-reconnect *)
  if autoReconnect c && negb (connecting c)
  then log (SetTimeout Reconnect 1000) c
  else c.

(** [disconnect()]: the returned promise resolves at the socket's next
    'close'. *)
Definition disconnect (c : Client) : Client :=
  let c := set_autoReconnect false c in
  if socket c then log Socket_end c else c.

(** [connect()], up to the point where it returns its promise. *)
Definition connect (c : Client) : Client :=
  if connected c then c
  else if connecting c then c   (* Wait for ongoing connection *)
  else
    let c := set_connecting true c in
    let c := log (SetTimeout ConnectTimeout (timeout c)) c in
    log Socket_create (set_socket true c).

(** The socket's 'connect' handler: the handshake is an ordinary
    request. *)
Definition on_connect (c : Client) (credentials : Node) (now : Z) : Client :=
  let c := log ClearTimeout c in
  let c := set_connected true c in
  let c := set_connecting false c in
  let c := log Emit_connect c in
  fst (_sendMessage c MSG_CONNECT credentials now).

(** The socket's 'error' handler. *)
Definition on_error (c : Client) (err : Error) : Client :=
  let c := log ClearTimeout c in
  let c := set_connecting false c in
  let c := set_connected false c in
  log (Emit_error err) c.

(** The connection timeout firing: [this.socket?.destroy()]. *)
Definition on_connect_timeout (c : Client) : Client :=
  if socket c then log Socket_destroy c else c.

(** Frames as the loop hands them over, and their delivery in order. *)
Definition Frame : Type := (Z * Buffer)%type.

Definition deliver (c : Client) (frames : list Frame) : Client :=
  fold_left (fun c f => dispatch c (fst f) (snd f)) frames c.

(** [frames] and [messages] are the same frames, decoded and on the
    wire. *)
Definition encoded (frames : list Frame) (messages : list Buffer) : Prop :=
  Forall2 (fun f m => build_message (fst f) (snd f) = Some m) frames messages.

(** A buffer the loop leaves alone: no full header yet, or a header
    whose declared payload has not fully arrived. *)
Definition waiting (buf : Buffer) : Prop :=
  (length buf < 12)%nat \/ Z.of_nat (length buf) < 12 + readUInt32BE buf 8.

(** How a response of kind [msgType] with decoded payload [data]
    settles the request [id], when it settles it. *)
Definition settlement (id : Z) (msgType : Z) (data : Node) : Event :=
  if (msgType =? MSG_SUCCESS) || (msgType =? MSG_PONG) then Resolve id data
  else if msgType =? MSG_ERROR then
    Reject id (Error_Server (match error_message data with
                             | Some m => m
                             | None => Str (js "Unknown error")
                             end))
  else if msgType =? MSG_NOT_FOUND then Reject id Error_NotFound
  else Reject id (Error_UnknownResponse msgType).

(** Responses as they come off the wire, each with the payload it
    decodes to; an error response carries a payload that is not null. *)
Definition decoded (frames : list Frame) (payloads : list Node) : Prop :=
  Forall2 (fun f v => msgpack_decode (snd f) = Some v
                      /\ (fst f = MSG_ERROR -> v <> Null)) frames payloads.

(** The states a client object can be in: from the constructor, by
    public calls and socket events in any order. *)
Inductive reachable : Client -> Prop :=
| reach_new t a : reachable (new_client t a)
| reach_connect c : reachable c -> reachable (connect c)
| reach_disconnect c : reachable c -> reachable (disconnect c)
| reach_send c msgType data now :
    reachable c -> reachable (fst (_sendMessage c msgType data now))
| reach_on_connect c credentials now :
    reachable c -> reachable (on_connect c credentials now)
| reach_on_data c data : reachable c -> reachable (_handleData c data)
| reach_on_error c err : reachable c -> reachable (on_error c err)
| reach_on_close c : reachable c -> reachable (on_close c)
| reach_on_connect_timeout c : reachable c -> reachable (on_connect_timeout c).

End Codec.

(** The MessagePack codec on the two values the examples below use:
    nil is the byte 0xC0 and the empty map the byte 0x80. *)
Definition msgpack_encode_sample (v : Node) : Buffer :=
  match v with
  | Null => [xc0]
  | _ => [x80]
  end.

Definition msgpack_decode_sample (b : Buffer) : option Node :=
  match b with
  | [xc0] => Some Null
  | [x80] => Some (Mapping [])
  | _ => None
  end.

(** A client whose connection is open and whose handshake (request 0)
    is awaiting its response. *)
Definition handshaking : Client :=
  on_connect msgpack_encode_sample (connect (new_client 30000 true)) (Mapping []) 0.

(** The twelve header bytes of a frame of kind [msgType] announcing
    [len] payload bytes. *)
Definition header_bytes (msgType len : Z) : Buffer :=
  [x4e; x45; x58; x41; x01; byte_of_Z msgType; x00; x00;
   byte_of_Z (Z.shiftr len 24); byte_of_Z (Z.shiftr len 16);
   byte_of_Z (Z.shiftr len 8); byte_of_Z len].

End NexaClient.

(** ** The TOON codec *)

Module TOON.

Local Open Scope char_scope.
Local Open Scope list_scope.

(** *** JavaScript string methods *)

Definition newline : ascii := "010".
Definition quote : ascii := "034".
Definition backslash : ascii := "092".

(** White space and line terminators among the code units 0..255, as
    [trim] and [parseInt] strip them: TAB, LF, VT, FF, CR, SP, NBSP. *)
Definition is_space (c : ascii) : bool :=
  let n := nat_of_ascii c in
  ((9 <=? n) && (n <=? 13) || (n =? 32) || (n =? 160))%nat.

Fixpoint trimStart (s : list ascii) : list ascii :=
  match s with
  | [] => []
  | c :: rest => if is_space c then trimStart rest else s
  end.

Definition trimEnd (s : list ascii) : list ascii := rev (trimStart (rev s)).

Definition trim (s : list ascii) : list ascii := trimEnd (trimStart s).

(** [s.includes(c)], [s.startsWith(c)], [s.endsWith(c)] for a
    one-character [c]. *)
Definition includes (c : ascii) (s : list ascii) : bool :=
  existsb (Ascii.eqb c) s.

Definition startsWith (c : ascii) (s : list ascii) : bool :=
  match s with
  | [] => false
  | x :: _ => Ascii.eqb x c
  end.

Definition endsWith (c : ascii) (s : list ascii) : bool := startsWith c (rev s).

(** [s.indexOf(c)]: -1 when absent. *)
Fixpoint indexOf_from (c : ascii) (s : list ascii) (i : Z) : Z :=
  match s with
  | [] => (-1)%Z
  | x :: rest => if Ascii.eqb x c then i else indexOf_from c rest (i + 1)%Z
  end.

Definition indexOf (c : ascii) (s : list ascii) : Z := indexOf_from c s 0%Z.

(** [s.substring(a, b)]: both ends are clamped to [0, s.length] and
    swapped when out of order. *)
Definition clamp (s : list ascii) (i : Z) : nat :=
  Z.to_nat (Z.min (Z.max i 0) (Z.of_nat (length s))).

Definition substring (s : list ascii) (a b : Z) : list ascii :=
  let lo := Nat.min (clamp s a) (clamp s b) in
  let hi := Nat.max (clamp s a) (clamp s b) in
  firstn (hi - lo) (skipn lo s).

(** [s.substring(a)]. *)
Definition substring_from (s : list ascii) (a : Z) : list ascii :=
  substring s a (Z.of_nat (length s)).

(** [s.split(sep)] for a one-character separator. *)
Fixpoint split (sep : ascii) (s : list ascii) : list (list ascii) :=
  match s with
  | [] => [[]]
  | c :: rest =>
      if Ascii.eqb c sep then [] :: split sep rest
      else match split sep rest with
           | [] => [[c]]
           | p :: ps => (c :: p) :: ps
           end
  end.

(** [parts.join(sep)]. *)
Fixpoint join (sep : list ascii) (parts : list (list ascii)) : list ascii :=
  match parts with
  | [] => []
  | [p] => p
  | p :: ps => p ++ sep ++ join sep ps
  end.

(** *** Numbers as text *)

Fixpoint uint_chars (d : Decimal.uint) : list ascii :=
  match d with
  | Decimal.Nil => []
  | Decimal.D0 d => "0" :: uint_chars d
  | Decimal.D1 d => "1" :: uint_chars d
  | Decimal.D2 d => "2" :: uint_chars d
  | Decimal.D3 d => "3" :: uint_chars d
  | Decimal.D4 d => "4" :: uint_chars d
  | Decimal.D5 d => "5" :: uint_chars d
  | Decimal.D6 d => "6" :: uint_chars d
  | Decimal.D7 d => "7" :: uint_chars d
  | Decimal.D8 d => "8" :: uint_chars d
  | Decimal.D9 d => "9" :: uint_chars d
  end.

(** [String(n)] for an integral number below 10^21 in absolute value:
    its decimal digits. *)
Definition String_of_number (n : Z) : list ascii :=
  match n with
  | Z0 => ["0"]
  | Zpos p => uint_chars (Pos.to_uint p)
  | Zneg p => "-" :: uint_chars (Pos.to_uint p)
  end.

Definition is_digit (c : ascii) : bool :=
  let n := nat_of_ascii c in ((48 <=? n) && (n <=? 57))%nat.

(** The value of a digit in the given radix (10 or 16). *)
Definition digit_value (radix : Z) (c : ascii) : option Z :=
  let n := nat_of_ascii c in
  if ((48 <=? n) && (n <=? 57))%nat then Some (Z.of_nat n - 48)%Z
  else if (radix =? 16)%Z && ((97 <=? n) && (n <=? 102))%nat then Some (Z.of_nat n - 87)%Z
  else if (radix =? 16)%Z && ((65 <=? n) && (n <=? 70))%nat then Some (Z.of_nat n - 55)%Z
  else None.

(** The longest prefix of digits, read left to right; [None] when
    there is no digit at all. *)
Fixpoint parse_digits (radix : Z) (acc : option Z) (s : list ascii) : option Z :=
  match s with
  | [] => acc
  | c :: rest =>
      match digit_value radix c with
      | Some d =>
          parse_digits radix
            (Some (match acc with Some a => a * radix + d | None => d end)%Z) rest
      | None => acc
      end
  end.

(** [parseInt(s)] without a radix; [None] is NaN.  Leading white space
    is skipped, then a sign, then a [0x] prefix selects radix 16. *)
Definition parseInt (s : list ascii) : option Z :=
  let s := trimStart s in
  let (sign, s) :=
    match s with
    | "-" :: rest => ((-1)%Z, rest)
    | "+" :: rest => (1%Z, rest)
    | _ => (1%Z, s)
    end in
  let (radix, s) :=
    match s with
    | "0" :: "x" :: rest => (16%Z, rest)
    | "0" :: "X" :: rest => (16%Z, rest)
    | _ => (10%Z, s)
    end in
  option_map (Z.mul sign) (parse_digits radix None s).

(** The test [/^-?\d+(\.\d+)?$/]. *)
Fixpoint skip_digits (s : list ascii) : list ascii :=
  match s with
  | [] => []
  | c :: rest => if is_digit c then skip_digits rest else s
  end.

Definition is_number_literal (s : list ascii) : bool :=
  let s := match s with "-" :: rest => rest | _ => s end in
  match s with
  | [] => false
  | c :: _ =>
      is_digit c
      && match skip_digits s with
         | [] => true
         | "." :: frac =>
             match frac with
             | [] => false
             | _ => forallb is_digit frac
             end
         | _ => false
         end
  end.

(** *** JSON string literals *)

Definition hex_digit (n : nat) : ascii :=
  if (n <? 10)%nat then ascii_of_nat (48 + n) else ascii_of_nat (87 + n).

(** [JSON.stringify(s)] for a string: the characters of QuoteJSONString. *)
Definition json_escape (c : ascii) : list ascii :=
  let n := nat_of_ascii c in
  if (n =? 8)%nat then [backslash; "b"]
  else if (n =? 9)%nat then [backslash; "t"]
  else if (n =? 10)%nat then [backslash; "n"]
  else if (n =? 12)%nat then [backslash; "f"]
  else if (n =? 13)%nat then [backslash; "r"]
  else if (n =? 34)%nat then [backslash; quote]
  else if (n =? 92)%nat then [backslash; backslash]
  else if (n <? 32)%nat then
    [backslash; "u"; "0"; "0"; hex_digit (n / 16); hex_digit (n mod 16)]
  else [c].

Definition JSON_stringify (s : list ascii) : list ascii :=
  quote :: flat_map json_escape s ++ [quote].

(** How an evaluation can end other than with a value. *)
Inductive Failure : Type :=
| SyntaxError      (* JSON.parse threw *)
| NotModelled      (* a value outside the model: a number with a
                      fraction, a code unit above 255 *)
| OutOfFuel.

Inductive Result (A : Type) : Type :=
| Ok (a : A)
| Fail (f : Failure).
Arguments Ok {A} a.
Arguments Fail {A} f.

Definition bind {A B : Type} (r : Result A) (k : A -> Result B) : Result B :=
  match r with
  | Ok a => k a
  | Fail f => Fail f
  end.

Fixpoint mapM {A B : Type} (f : A -> Result B) (l : list A) : Result (list B) :=
  match l with
  | [] => Ok []
  | x :: rest => bind (f x) (fun y => bind (mapM f rest) (fun ys => Ok (y :: ys)))
  end.

(** The characters of a JSON string literal after its opening quote,
    up to the closing quote, which must end the text. *)
Fixpoint json_chars (s : list ascii) : Result (list ascii) :=
  match s with
  | [] => Fail SyntaxError
  | c :: rest =>
      if Ascii.eqb c quote then
        match rest with
        | [] => Ok []
        | _ => Fail SyntaxError
        end
      else if Ascii.eqb c backslash then
        match rest with
        | e :: rest' =>
            let simple (x : ascii) := bind (json_chars rest') (fun t => Ok (x :: t)) in
            if Ascii.eqb e quote then simple quote
            else if Ascii.eqb e backslash then simple backslash
            else if Ascii.eqb e "/" then simple "/"
            else if Ascii.eqb e "b" then simple "008"
            else if Ascii.eqb e "f" then simple "012"
            else if Ascii.eqb e "n" then simple "010"
            else if Ascii.eqb e "r" then simple "013"
            else if Ascii.eqb e "t" then simple "009"
            else if Ascii.eqb e "u" then
              match rest' with
              | h1 :: h2 :: h3 :: h4 :: rest'' =>
                  match digit_value 16 h1, digit_value 16 h2,
                        digit_value 16 h3, digit_value 16 h4 with
                  | Some d1, Some d2, Some d3, Some d4 =>
                      if ((d1 =? 0) && (d2 =? 0))%Z then
                        bind (json_chars rest'')
                             (fun t => Ok (ascii_of_nat (Z.to_nat (d3 * 16 + d4)) :: t))
                      else Fail NotModelled
                  | _, _, _, _ => Fail SyntaxError
                  end
              | _ => Fail SyntaxError
              end
            else Fail SyntaxError
        | [] => Fail SyntaxError
        end
      else if (nat_of_ascii c <? 32)%nat then Fail SyntaxError
      else bind (json_chars rest) (fun t => Ok (c :: t))
  end.

(** [JSON.parse(s)] for a text that starts with a quote. *)
Definition JSON_parse (s : list ascii) : Result Node :=
  match s with
  | c :: rest => if Ascii.eqb c quote
                 then bind (json_chars rest) (fun t => Ok (Str t))
                 else Fail SyntaxError
  | [] => Fail SyntaxError
  end.

(** *** Objects *)

(** A canonical array index: the decimal text of an integer below
    2^32 - 1.  Such keys are enumerated before all others, in
    ascending order. *)
Definition array_index (k : list ascii) : option Z :=
  match k with
  | [] => None
  | c :: rest =>
      if forallb is_digit k
         && (negb (Ascii.eqb c "0") || match rest with [] => true | _ => false end)
      then match parse_digits 10 None k with
           | Some n => if (n <? 4294967295)%Z then Some n else None
           | None => None
           end
      else None
  end.

Fixpoint has_key (key : list ascii) (entries : list (list ascii * Node)) : bool :=
  match entries with
  | [] => false
  | (k, _) :: rest => ascii_eqb_list k key || has_key key rest
  end.

Fixpoint replace_value (key : list ascii) (value : Node)
         (entries : list (list ascii * Node)) : list (list ascii * Node) :=
  match entries with
  | [] => []
  | (k, v) :: rest =>
      if ascii_eqb_list k key then (k, value) :: rest
      else (k, v) :: replace_value key value rest
  end.

(** Insert a new array-index key at its place among the index keys. *)
Fixpoint insert_index (n : Z) (key : list ascii) (value : Node)
         (entries : list (list ascii * Node)) : list (list ascii * Node) :=
  match entries with
  | [] => [(key, value)]
  | (k, v) :: rest =>
      match array_index k with
      | Some m => if (m <? n)%Z then (k, v) :: insert_index n key value rest
                  else (key, value) :: entries
      | None => (key, value) :: entries
      end
  end.

(** [obj[key] = value] on a plain object.  Assigning to [__proto__]
    creates no own property. *)
Definition obj_set (key : list ascii) (value : Node)
           (entries : list (list ascii * Node)) : list (list ascii * Node) :=
  if ascii_eqb_list key (js "__proto__") then entries
  else if has_key key entries then replace_value key value entries
  else match array_index key with
       | Some n => insert_index n key value entries
       | None => entries ++ [(key, value)]
       end.

(** *** TOONSerializer *)

(** [String(value)], for the values [_serializePrimitive] does not
    expect. *)
Fixpoint ToString (v : Node) : list ascii :=
  match v with
  | Null => js "null"
  | Bool true => js "true"
  | Bool false => js "false"
  | Number n => String_of_number n
  | Str s => s
  | Mapping _ => js "[object Object]"
  | Sequence items =>
      join [","] (map (fun item => match item with
                                   | Null => []
                                   | _ => ToString item
                                   end) items)
  end.

(** [_serializePrimitive(value)]; [None] is [undefined]. *)
Definition _serializePrimitive (value : option Node) : list ascii :=
  match value with
  | None | Some Null => js "null"
  | Some (Bool b) => if b then js "true" else js "false"
  | Some (Str s) =>
      (* Escape commas and newlines in strings *)
      if includes "," s || includes newline s || includes quote s
      then JSON_stringify s
      else s
  | Some (Number n) => String_of_number n
  | Some v => ToString v
  end.

(** [typeof item === 'object' && item !== null && !Array.isArray(item)] *)
Definition is_plain_object (v : Node) : bool :=
  match v with Mapping _ => true | _ => false end.

(** [typeof item !== 'object' || item === null] *)
Definition is_primitive (v : Node) : bool :=
  match v with Mapping _ | Sequence _ => false | _ => true end.

(** [item[field]]: own properties only (the members an object inherits
    from [Object.prototype] are not modelled). *)
Definition get (item : Node) (field : list ascii) : option Node :=
  match item with
  | Mapping entries => lookup field entries
  | _ => None
  end.

(** [Object.keys(item)] *)
Definition keys (item : Node) : list (list ascii) :=
  match item with
  | Mapping entries => map fst entries
  | _ => []
  end.

(** "Get all unique keys across all objects": the keys in first-seen
    order. *)
Definition collect_keys (arr : list Node) : list (list ascii) :=
  fold_left
    (fun allKeys item =>
       fold_left
         (fun allKeys k =>
            if existsb (ascii_eqb_list k) allKeys then allKeys else allKeys ++ [k])
         (keys item) allKeys)
    arr [].

Definition spaces (n : nat) : list ascii := repeat " " n.

Section Serializer.

(** [this.indentSize] *)
Variable indentSize : nat.

(** The row of one item of a tabular array. *)
Definition row_of (allKeys : list (list ascii)) (item : Node) : list ascii :=
  join [","] (map (fun field => _serializePrimitive (get item field)) allKeys).

Definition _serializeTabularArray (arr : list Node) (indentLevel : nat) : list ascii :=
  match arr with
  | [] => []
  | _ =>
      let allKeys := collect_keys arr in
      let indent := spaces (indentLevel * indentSize) in
      join [newline] (map (fun item => indent ++ row_of allKeys item) arr)
  end.

Section Recursion.

(** [this.serialize], as seen from the methods it calls. *)
Variable serialize : Node -> nat -> list ascii.

Definition _serializeArrayWithKey_ (key : list ascii) (arr : list Node)
           (indentLevel : nat) : list ascii :=
  match arr with
  | [] => key ++ js "[0]:"
  | _ =>
      let length := String_of_number (Z.of_nat (length arr)) in
      let tabular :=
        (* Check if uniform objects (tabular format) *)
        if forallb is_plain_object arr then
          let allKeys := collect_keys arr in
          match allKeys with
          | [] => None
          | _ =>
              let fields := join [","] allKeys in
              let indent := spaces ((indentLevel + 1) * indentSize) in
              Some (join [newline]
                      ((key ++ js "[" ++ length ++ js "]{" ++ fields ++ js "}:")
                       :: map (fun item => indent ++ row_of allKeys item) arr))
          end
        else None in
      match tabular with
      | Some text => text
      | None =>
          (* Primitive array *)
          if forallb is_primitive arr then
            key ++ js "[" ++ length ++ js "]: "
            ++ join [","] (map (fun item => _serializePrimitive (Some item)) arr)
          else
            (* Mixed array - one item per line *)
            let indent := spaces ((indentLevel + 1) * indentSize) in
            join [newline]
              ((key ++ js "[" ++ length ++ js "]:")
               :: map (fun item => indent ++ serialize item (indentLevel + 1)) arr)
      end
  end.

Definition _serializeObject_ (obj : list (list ascii * Node)) (indentLevel : nat)
  : list ascii :=
  let indent := spaces (indentLevel * indentSize) in
  join [newline]
    (flat_map
       (fun entry : list ascii * Node =>
          let (key, value) := entry in
          match value with
          | Mapping _ =>
              (* Nested object: _serializeObject(value, indentLevel + 1),
                 which is serialize on a mapping *)
              [indent ++ key ++ js ":"; serialize value (indentLevel + 1)]
          | Sequence arr =>
              (* Array *)
              [indent ++ _serializeArrayWithKey_ key arr indentLevel]
          | _ =>
              (* Primitive *)
              [indent ++ key ++ js ": " ++ _serializePrimitive (Some value)]
          end)
       obj).

Definition _serializeArray_ (arr : list Node) (indentLevel : nat) : list ascii :=
  match arr with
  | [] => js "[]"
  | _ =>
      (* Check if array of uniform objects (best case for TOON) *)
      if forallb is_plain_object arr then _serializeTabularArray arr indentLevel
      (* Check if array of primitives *)
      else if forallb is_primitive arr then
        join [","] (map (fun item => _serializePrimitive (Some item)) arr)
      else
        (* Mixed array - serialize each item on new line *)
        let indent := spaces (indentLevel * indentSize) in
        join [newline] (map (fun item => indent ++ serialize item (indentLevel + 1)) arr)
  end.

End Recursion.

(** [serialize(data, indentLevel)] *)
Fixpoint serialize (data : Node) (indentLevel : nat) {struct data} : list ascii :=
  match data with
  | Mapping obj => _serializeObject_ serialize obj indentLevel
  | Sequence arr => _serializeArray_ serialize arr indentLevel
  | _ => _serializePrimitive (Some data)
  end.

Definition _serializeObject := _serializeObject_ serialize.
Definition _serializeArrayWithKey := _serializeArrayWithKey_ serialize.
Definition _serializeArray := _serializeArray_ serialize.

End Serializer.

(** *** TOONParser *)

(** The indentation the parser measures:
    [line.length - line.trimStart().length]. *)
Definition indent_of (line : list ascii) : nat :=
  length line - length (trimStart line).

(** A string used as a condition: true unless empty. *)
Definition nonempty (s : list ascii) : bool :=
  match s with [] => false | _ => true end.

(** [Object.keys(obj).length > 0], [arr.length > 0]. *)
Definition nonempty' {A : Type} (l : list A) : bool :=
  match l with [] => false | _ => true end.

(** [_parsePrimitive(valueStr)] *)
Definition _parsePrimitive (valueStr : list ascii) : Result Node :=
  let valueStr := trim valueStr in
  (* Handle quoted strings *)
  if startsWith quote valueStr && endsWith quote valueStr then JSON_parse valueStr
  (* Boolean *)
  else if ascii_eqb_list valueStr (js "true") then Ok (Bool true)
  else if ascii_eqb_list valueStr (js "false") then Ok (Bool false)
  (* Null *)
  else if ascii_eqb_list valueStr (js "null") then Ok Null
  (* Number *)
  else if is_number_literal valueStr then
    if includes "." valueStr then Fail NotModelled   (* parseFloat *)
    else match parseInt valueStr with
         | Some n => Ok (Number n)
         | None => Fail NotModelled                  (* not reached *)
         end
  (* String *)
  else Ok (Str valueStr).

(** The loop of [_parseCSVRow] over the characters of the row. *)
Fixpoint csv_loop (rowStr : list ascii) (values : list (list ascii))
         (current : list ascii) (inQuotes : bool)
  : list (list ascii) * list ascii :=
  match rowStr with
  | [] => (values, current)
  | char :: rest =>
      if Ascii.eqb char quote then csv_loop rest values current (negb inQuotes)
      else if Ascii.eqb char "," && negb inQuotes
      then csv_loop rest (values ++ [trim current]) [] inQuotes
      else csv_loop rest values (current ++ [char]) inQuotes
  end.

(** [_parseCSVRow(rowStr)] *)
Definition _parseCSVRow (rowStr : list ascii) : list (list ascii) :=
  let (values, current) := csv_loop rowStr [] [] false in
  if nonempty current then values ++ [trim current] else values.

(** The [meta] of an array declaration; [length] is [None] for NaN and
    [fields] is [None] for null. *)
Record Meta : Type := {
  meta_length : option Z;
  meta_fields : option (list (list ascii))
}.

(** [_parseArrayDeclaration(keyStr)] *)
Definition _parseArrayDeclaration (keyStr : list ascii) : list ascii * Meta :=
  (* Extract key *)
  let key := substring keyStr 0 (indexOf "[" keyStr) in
  (* Extract length *)
  let lengthStart := (indexOf "[" keyStr + 1)%Z in
  let lengthEnd := indexOf "]" keyStr in
  let length := parseInt (substring keyStr lengthStart lengthEnd) in
  (* Check for fields *)
  let fields :=
    if includes "{" keyStr then
      let fieldsStart := (indexOf "{" keyStr + 1)%Z in
      let fieldsEnd := indexOf "}" keyStr in
      let fieldsStr := substring keyStr fieldsStart fieldsEnd in
      Some (map trim (split "," fieldsStr))
    else None in
  (key, {| meta_length := length; meta_fields := fields |}).

(** "Map values to fields": [fields.forEach] filling [rowObj]. *)
Fixpoint fill_row (fields : list (list ascii)) (rowValues : list (list ascii))
         (rowObj : list (list ascii * Node)) : Result (list (list ascii * Node)) :=
  match fields, rowValues with
  | field :: fields', value :: rowValues' =>
      bind (_parsePrimitive value)
           (fun v => fill_row fields' rowValues' (obj_set field v rowObj))
  | _, _ => Ok rowObj
  end.

(** [rows.length < length], false when [length] is NaN. *)
Definition fewer_than (rows : list Node) (length : option Z) : bool :=
  match length with
  | Some n => (Z.of_nat (List.length rows) <? n)%Z
  | None => false
  end.

(** The row loop of a tabular array, over the lines from [rowIdx] on;
    it returns the rows and the lines left. *)
Fixpoint parse_rows (lines : list (list ascii)) (rows : list Node)
         (length : option Z) (fields : list (list ascii)) (rowIndent : nat)
  : Result (list Node * list (list ascii)) :=
  match lines with
  | [] => Ok (rows, [])
  | rowLine :: rest =>
      if fewer_than rows length then
        let rowLineIndent := indent_of rowLine in
        if (rowIndent <=? rowLineIndent)%nat && nonempty (trim rowLine) then
          let rowValues := _parseCSVRow (trim rowLine) in
          bind (fill_row fields rowValues [])
               (fun rowObj =>
                  parse_rows rest (rows ++ [Mapping rowObj]) length fields rowIndent)
        else parse_rows rest rows length fields rowIndent
      else Ok (rows, lines)
  end.

(** [_parseLines(lines, startIdx, baseIndent)].  The array [lines] and
    the index [idx] are kept together as the lines from [idx] on, and
    the index returned as the lines left over; [obj] is the object
    under construction.  One unit of [fuel] is spent per line taken;
    as many units as there are lines never run out (see
    [parse_loop_total]). *)
Fixpoint parse_loop (fuel : nat) (lines : list (list ascii)) (baseIndent : nat)
         (obj : list (list ascii * Node))
  : Result (list (list ascii * Node) * list (list ascii)) :=
  match lines with
  | [] => Ok (obj, [])
  | line :: rest =>
      match fuel with
      | O => Fail OutOfFuel
      | S fuel =>
          (* Skip empty lines *)
          if negb (nonempty (trim line)) then parse_loop fuel rest baseIndent obj
          else
            (* Calculate indentation *)
            let indent := indent_of line in
            (* If indentation decreases, return (end of current object) *)
            if (indent <? baseIndent)%nat then Ok (obj, lines)
            (* If indentation is greater, skip (handled by nested call) *)
            else if (baseIndent <? indent)%nat then parse_loop fuel rest baseIndent obj
            else
              let lineContent := trim line in
              (* Check for key-value pair *)
              if includes ":" lineContent then
                let colonIdx := indexOf ":" lineContent in
                let key := trim (substring lineContent 0 colonIdx) in
                let valuePart := trim (substring_from lineContent (colonIdx + 1)) in
                let regular :=
                  (* Regular key-value *)
                  if nonempty valuePart then
                    bind (_parsePrimitive valuePart)
                         (fun v => parse_loop fuel rest baseIndent (obj_set key v obj))
                  else parse_loop fuel rest baseIndent obj in
                (* Check for array declaration: key[N] or key[N]{fields} *)
                if includes "[" key && includes "]" key then
                  let (arrayKey, meta) := _parseArrayDeclaration key in
                  (* Check if tabular array *)
                  if includes "{" key then
                    (* Tabular array: parse rows *)
                    let fields := match meta_fields meta with
                                  | Some fields => fields
                                  | None => []
                                  end in
                    bind (parse_rows rest [] (meta_length meta) fields (indent + 2))
                         (fun '(rows, rest') =>
                            parse_loop fuel rest' baseIndent
                                       (obj_set arrayKey (Sequence rows) obj))
                  else
                    (* Primitive array: key[N]: val1,val2,val3 *)
                    if nonempty valuePart then
                      bind (mapM _parsePrimitive (_parseCSVRow valuePart))
                           (fun values =>
                              parse_loop fuel rest baseIndent
                                         (obj_set arrayKey (Sequence values) obj))
                    else
                      parse_loop fuel rest baseIndent (obj_set arrayKey (Sequence []) obj)
                else if negb (nonempty valuePart) then
                  (* Key without value - check if next line is indented (nested object) *)
                  match rest with
                  | next :: _ =>
                      if (indent <? indent_of next)%nat then
                        bind (parse_loop fuel rest (indent + 2) [])
                             (fun '(nestedObj, rest') =>
                                parse_loop fuel rest' baseIndent
                                           (obj_set key (Mapping nestedObj) obj))
                      else regular
                  | [] => regular
                  end
                else regular
              else parse_loop fuel rest baseIndent obj
      end
  end.

Definition _parseLines (lines : list (list ascii)) (baseIndent : nat)
  : Result (list (list ascii * Node) * list (list ascii)) :=
  parse_loop (length lines) lines baseIndent [].

(** [parse(toonStr)] *)
Definition parse (toonStr : list ascii) : Result Node :=
  let lines := split newline (trim toonStr) in
  bind (_parseLines lines 0) (fun '(result, _) => Ok (Mapping result)).

(** [new TOONSerializer().serialize(data)]: the default indent size. *)
Definition serialize_default (data : Node) : list ascii := serialize 2 data 0.

(** *** The trees that survive a round trip *)

(** A string [trim] leaves alone: empty, or with a first and a last
    character that are not white space. *)
Definition trimmed (s : list ascii) : bool :=
  match s with
  | [] => true
  | c :: _ => negb (is_space c) && negb (is_space (last s c))
  end.

(** Nothing but white space. *)
Definition blank (s : list ascii) : Prop := Forall (fun c => is_space c = true) s.

Definition blank_string (s : list ascii) : bool := forallb is_space s.

Definition is_keyword (s : list ascii) : bool :=
  ascii_eqb_list s (js "true") || ascii_eqb_list s (js "false")
  || ascii_eqb_list s (js "null").

(** A string [_serializePrimitive] writes as it is, without quotes. *)
Definition unquoted (s : list ascii) : bool :=
  negb (includes "," s || includes newline s || includes quote s).

(** [Number.isSafeInteger(n)]: the integral numbers a JavaScript
    number holds exactly, and which [String] writes as their decimal
    digits. *)
Definition safe_integer (n : Z) : bool := (Z.abs n <=? 9007199254740991)%Z.

(** A string that, written as it is, reads back as the same string. *)
Definition reads_as_string (s : list ascii) : bool :=
  nonempty s && trimmed s && negb (is_keyword s) && negb (is_number_literal s).

(** A scalar after [key: ]: a quoted string always reads back; an
    unquoted one must read back as a string.  With [lenient], blank
    unquoted strings are let through as well (the parser drops their
    keys). *)
Definition inline_scalar (lenient : bool) (v : Node) : bool :=
  match v with
  | Null | Bool _ => true
  | Number n => safe_integer n
  | Str s =>
      if unquoted s then reads_as_string s || (lenient && blank_string s) else true
  | _ => false
  end.

(** A character [JSON.stringify] writes as it is, other than a quote. *)
Definition verbatim (c : ascii) : bool :=
  negb (Ascii.eqb c backslash) && (32 <=? nat_of_ascii c)%nat.

(** A scalar as an item of an inline array or a cell of a table row:
    [_parseCSVRow] drops every quote and undoes no escape. *)
Definition cell_scalar (v : Node) : bool :=
  match v with
  | Null | Bool _ => true
  | Number n => safe_integer n
  | Str s =>
      reads_as_string s && negb (includes quote s) && negb (includes newline s)
      && (negb (includes "," s) || forallb verbatim s)
  | _ => false
  end.

(** Keys the parser reads back as they are and appends in order. *)
Definition key_common (k : list ascii) : bool :=
  trimmed k && negb (includes ":" k) && negb (includes newline k)
  && negb (ascii_eqb_list k (js "__proto__"))
  && match array_index k with Some _ => false | None => true end.

(** The key of a scalar or of a nested mapping. *)
Definition scalar_key (k : list ascii) : bool :=
  key_common k && negb (includes "[" k && includes "]" k).

(** The key of an inline array. *)
Definition array_key (k : list ascii) : bool :=
  key_common k && negb (includes "[" k) && negb (includes "{" k).

(** The key of a table. *)
Definition table_key (k : list ascii) : bool :=
  array_key k && negb (includes "]" k) && negb (includes "}" k).

(** The name of a table column. *)
Definition field_ok (f : list ascii) : bool :=
  key_common f && negb (includes "," f) && negb (includes "}" f).

Fixpoint distinct (ks : list (list ascii)) : bool :=
  match ks with
  | [] => true
  | k :: rest => negb (existsb (ascii_eqb_list k) rest) && distinct rest
  end.

Definition list_eqb (a b : list (list ascii)) : bool :=
  if list_eq_dec (list_eq_dec ascii_dec) a b then true else false.

(** A row of a table with the columns [fields]: exactly these keys, in
    this order, each with a cell scalar. *)
Definition table_row (fields : list (list ascii)) (item : Node) : bool :=
  match item with
  | Mapping entries =>
      list_eqb (map fst entries) fields
      && forallb (fun e : list ascii * Node => cell_scalar (snd e)) entries
  | _ => false
  end.

(** The mappings the round trip covers.  Every value is an inline
    scalar, a nested mapping of the same kind that is not empty, an
    array of cell scalars (possibly empty), or a table: a non-empty
    array of mappings that all have the keys of the first, in its
    order. *)
Fixpoint stable (lenient : bool) (v : Node) {struct v} : bool :=
  match v with
  | Mapping entries =>
      distinct (map fst entries)
      && forallb
           (fun e : list ascii * Node =>
              let (k, x) := e in
              match x with
              | Mapping nested => scalar_key k && nonempty' nested && stable lenient x
              | Sequence [] => array_key k
              | Sequence (Mapping first :: items) =>
                  table_key k
                  && nonempty' first
                  && forallb field_ok (map fst first)
                  && distinct (map fst first)
                  && forallb (table_row (map fst first)) (Mapping first :: items)
              | Sequence items => array_key k && forallb cell_scalar items
              | _ => scalar_key k && inline_scalar lenient x
              end)
           entries
  | _ => false
  end.

(** What is left of a stable mapping after the round trip: the keys
    whose value is a blank unquoted string are gone. *)
Fixpoint prune (v : Node) {struct v} : Node :=
  match v with
  | Mapping entries =>
      Mapping
        (flat_map
           (fun e : list ascii * Node =>
              let (k, x) := e in
              match x with
              | Str s => if unquoted s && blank_string s then [] else [e]
              | Mapping _ => [(k, prune x)]
              | _ => [e]
              end)
           entries)
  | _ => v
  end.

(** *** Notions the statements below are written with *)

(** The characters of a rendered number: digits, after a possible
    minus sign. *)
Definition number_char (c : ascii) : bool := is_digit c || Ascii.eqb c "-".

(** The text [_parseCSVRow] recovers for a cell. *)
Definition cell_text (v : Node) : list ascii :=
  match v with
  | Str s => s
  | _ => _serializePrimitive (Some v)
  end.

(** Non-empty, with a first and a last character that are not white
    space. *)
Definition tight (s : list ascii) : bool := nonempty s && trimmed s.

(** What [parse_loop] does with a line [key: valuePart] at its own
    indentation. *)
Definition entry_step (fuel : nat) (rest : list (list ascii)) (baseIndent : nat)
           (obj : list (list ascii * Node)) (indent : nat) (key valuePart : list ascii)
  : Result (list (list ascii * Node) * list (list ascii)) :=
  let regular :=
    if nonempty valuePart then
      bind (_parsePrimitive valuePart)
           (fun v => parse_loop fuel rest baseIndent (obj_set key v obj))
    else parse_loop fuel rest baseIndent obj in
  if includes "[" key && includes "]" key then
    let (arrayKey, meta) := _parseArrayDeclaration key in
    if includes "{" key then
      let fields := match meta_fields meta with
                    | Some fields => fields
                    | None => []
                    end in
      bind (parse_rows rest [] (meta_length meta) fields (indent + 2))
           (fun '(rows, rest') =>
              parse_loop fuel rest' baseIndent (obj_set arrayKey (Sequence rows) obj))
    else
      if nonempty valuePart then
        bind (mapM _parsePrimitive (_parseCSVRow valuePart))
             (fun values =>
                parse_loop fuel rest baseIndent (obj_set arrayKey (Sequence values) obj))
      else parse_loop fuel rest baseIndent (obj_set arrayKey (Sequence []) obj)
  else if negb (nonempty valuePart) then
    match rest with
    | next :: _ =>
        if (indent <? indent_of next)%nat then
          bind (parse_loop fuel rest (indent + 2) [])
               (fun '(nestedObj, rest') =>
                  parse_loop fuel rest' baseIndent (obj_set key (Mapping nestedObj) obj))
        else regular
    | [] => regular
    end
  else regular.

(** Nothing but the loop itself consumes fuel. *)
Definition fueled {A : Type} (r : Result A) : Prop := r <> Fail OutOfFuel.

(** What follows does not start deeper than [n]. *)
Definition not_deeper (n : nat) (rest : list (list ascii)) : Prop :=
  match rest with
  | [] => True
  | next :: _ => indent_of next <= n
  end.

(** Assigning the entries of [es] to [obj] in order. *)
Definition set_all (obj es : list (list ascii * Node)) : list (list ascii * Node) :=
  fold_left (fun o e => obj_set (fst e) (snd e) o) es obj.

Definition add_keys (ks acc : list (list ascii)) : list (list ascii) :=
  fold_left (fun allKeys k =>
               if existsb (ascii_eqb_list k) allKeys then allKeys else allKeys ++ [k])
            ks acc.

(** The condition [stable] puts on one entry. *)
Definition entry_ok (lenient : bool) (e : list ascii * Node) : bool :=
  let (k, x) := e in
  match x with
  | Mapping nested => scalar_key k && nonempty' nested && stable lenient x
  | Sequence [] => array_key k
  | Sequence (Mapping first :: items) =>
      table_key k
      && nonempty' first
      && forallb field_ok (map fst first)
      && distinct (map fst first)
      && forallb (table_row (map fst first)) (Mapping first :: items)
  | Sequence items => array_key k && forallb cell_scalar items
  | _ => scalar_key k && inline_scalar lenient x
  end.





(** What [prune] keeps of one entry. *)
Definition prune_entry (e : list ascii * Node) : list (list ascii * Node) :=
  let (k, x) := e in
  match x with
  | Str s => if unquoted s && blank_string s then [] else [e]
  | Mapping _ => [(k, prune x)]
  | _ => [e]
  end.


(** All the loop looks at in a line. *)
Definition line_eq (l l' : list ascii) : Prop :=
  trim l = trim l' /\ indent_of l = indent_of l'.


Definition line_ok (l : list ascii) : Prop :=
  includes newline l = false /\ nonempty (trim l) = true.


(** The array [[{a:1,b:2},{a:3,b:4}]]. *)
Definition two_rows : Node :=
  Sequence [ Mapping [ (js "a", Number 1); (js "b", Number 2) ];
             Mapping [ (js "a", Number 3); (js "b", Number 4) ] ].

End TOON.

From Stdlib Require Import Sorted.

(** ** Runs of the client *)

Module ClientRuns.

Import NexaClient.
Local Open Scope Z_scope.
Local Open Scope list_scope.

(** The request a trace event settles, if it settles one. *)
Definition settled_id (e : Event) : option Z :=
  match e with
  | Resolve id _ | Reject id _ => Some id
  | _ => None
  end.

(** The requests settled so far, in the order they were settled. *)
Definition settled_ids (events : list Event) : list Z :=
  flat_map (fun e => match settled_id e with Some i => [i] | None => [] end) events.

(** The requests settled so far, followed by those still waiting. *)
Definition request_ids (c : Client) : list Z :=
  settled_ids (trace c) ++ map id (pendingRequests c).

(** The requests settled so far and then the waiting ones have
    increasing ids, all of them handed out already. *)
Definition in_order (c : Client) : Prop :=
  StronglySorted Z.lt (request_ids c)
  /\ Forall (fun i => 0 <= i < requestId c) (request_ids c)
  /\ 0 <= requestId c.

(** The timer of the 'close' handler. *)
Definition schedules_reconnect (e : Event) : bool :=
  match e with
  | SetTimeout Reconnect _ => true
  | _ => false
  end.

Section Codec.

Variable msgpack_encode : Node -> Buffer.
Variable msgpack_decode : Buffer -> option Node.

(** One public call or socket event. *)
Inductive step : Client -> Client -> Prop :=
| step_connect c : step c (connect c)
| step_disconnect c : step c (disconnect c)
| step_send c msgType data now :
    step c (fst (_sendMessage msgpack_encode c msgType data now))
| step_on_connect c credentials now :
    step c (on_connect msgpack_encode c credentials now)
| step_on_data c data : step c (_handleData msgpack_decode c data)
| step_on_error c err : step c (on_error c err)
| step_on_close c : step c (on_close c)
| step_on_connect_timeout c : step c (on_connect_timeout c).

(** Any number of them, one after the other. *)
Inductive steps (c0 : Client) : Client -> Prop :=
| steps_none : steps c0 c0
| steps_more c c' : steps c0 c -> step c c' -> steps c0 c'.

End Codec.

End ClientRuns.

(** ** The public methods on top of [_sendMessage] *)

Module ClientCalls.

Import NexaClient.
Local Open Scope list_scope.

(** [s.includes(needle)] for a string [needle]. *)
Fixpoint starts_with (needle s : list ascii) : bool :=
  match needle, s with
  | [], _ => true
  | n :: needle', c :: s' => Ascii.eqb n c && starts_with needle' s'
  | _ :: _, [] => false
  end.

Fixpoint includes_text (needle s : list ascii) : bool :=
  starts_with needle s
  || match s with
     | [] => false
     | _ :: s' => includes_text needle s'
     end.

(** [n.toString(16)] for an integer that is not negative; sixteen
    digits are enough for the 32-bit values it is used on. *)
Fixpoint hex_digits (fuel : nat) (n : Z) : list ascii :=
  match fuel with
  | O => []
  | S fuel =>
      if (n <? 16)%Z then [TOON.hex_digit (Z.to_nat n)]
      else hex_digits fuel (n / 16) ++ [TOON.hex_digit (Z.to_nat (n mod 16))]
  end.

Definition toString16 (n : Z) : list ascii := hex_digits 16 n.

(** What awaiting the promise of a request gives: the response, or the
    error thrown at the [await]. *)
Inductive Awaited : Type :=
| Fulfilled (response : Node)
| Failed (e : Error).

Definition awaited (e : Event) : option Awaited :=
  match e with
  | Resolve _ data => Some (Fulfilled data)
  | Reject _ err => Some (Failed err)
  | _ => None
  end.

(** How the promise of a public method ends: with a value ([None] is
    [undefined]), with an error of the client, or with the TypeError
    of reading a property of [null]. *)
Inductive Outcome : Type :=
| Returns (value : option Node)
| Throws (e : Error)
| ThrowsTypeError.

Section Runtime.

(** The message texts made by Node.js and msgpack-lite, not by the
    client: of what a [try] block caught, of the RangeError of a
    Buffer write, and of a socket error. *)
Variable thrown_message : Thrown -> list ascii.
Variable rangeError_message : list ascii.
Variable transport_message : Z -> list ascii.

(** [err.message] *)
Definition message (e : Error) : list ascii :=
  match e with
  | Error_NotConnected => js "Not connected to NexaDB"
  | Error_ConnectionClosed => js "Connection closed"
  | Error_InvalidMagic magic => js "Invalid protocol magic: " ++ toString16 magic
  | Error_DecodeFailed cause => js "Failed to decode MessagePack: " ++ thrown_message cause
  | Error_Server m => TOON.ToString m
  | Error_NotFound => js "Not found"
  | Error_UnknownResponse msgType =>
      js "Unknown response type: " ++ TOON.String_of_number msgType
  | Error_ConnectTimeout ms =>
      js "Connection timeout after " ++ TOON.String_of_number ms ++ js "ms"
  | Error_OutOfRange => rangeError_message
  | Error_Transport code => transport_message code
  end.

(** [get(collection, key)] from its [await] on:
    [try { return response.document } catch (err) { ... }]. *)
Definition get (a : Awaited) : Outcome :=
  let caught (text : list ascii) (rethrown : Outcome) : Outcome :=
    if includes_text (js "Not found") text then Returns (Some Null) else rethrown in
  match a with
  | Fulfilled Null => caught (thrown_message TypeError) ThrowsTypeError
  | Fulfilled (Mapping entries) => Returns (lookup (js "document") entries)
  | Fulfilled _ => Returns None
  | Failed e => caught (message e) (Throws e)
  end.

End Runtime.

(** The payload [get] sends. *)
Definition get_payload (collection key : Node) : Node :=
  Mapping [(js "collection", collection); (js "key", key)].

End ClientCalls.

(** * List facts shared by both halves *)

Lemma skipn_app_length {A : Type} (l1 l2 : list A) :
  skipn (length l1) (l1 ++ l2) = l2.
Proof.
  rewrite skipn_app, skipn_all, Nat.sub_diag. reflexivity.
Qed.

Lemma firstn_app_length {A : Type} (l1 l2 : list A) :
  firstn (length l1) (l1 ++ l2) = l1.
Proof.
  rewrite firstn_app, firstn_all, Nat.sub_diag. cbn. apply app_nil_r.
Qed.

(** * Properties of the binary protocol client *)

Module NexaClientFacts.

Import NexaClient.
Local Open Scope Z_scope.
Local Open Scope list_scope.

(** ** Bytes and header fields *)


Lemma Z_of_byte_of_Z (z : Z) : Z_of_byte (byte_of_Z z) = z mod 256.
Proof.
  unfold Z_of_byte, byte_of_Z.
  assert (Hr : 0 <= z mod 256 < 256) by (apply Z.mod_pos_bound; lia).
  destruct (Byte.of_N (Z.to_N (z mod 256))) as [b|] eqn:E.
  - apply Byte.to_of_N in E. rewrite E. rewrite Z2N.id; lia.
  - apply Byte.of_N_None_iff in E. lia.
Qed.

Lemma be32_value (v : Z) :
  0 <= v <= 0xFFFFFFFF ->
  (Z.shiftr v 24 mod 256) * 2 ^ 24 + (Z.shiftr v 16 mod 256) * 2 ^ 16
  + (Z.shiftr v 8 mod 256) * 2 ^ 8 + v mod 256 = v.
Proof.
  intros Hv. rewrite !Z.shiftr_div_pow2 by lia.
  change (2 ^ 24) with 16777216. change (2 ^ 16) with 65536. change (2 ^ 8) with 256.
  pose proof (Z.div_mod v 256 ltac:(lia)).
  pose proof (Z.div_mod (v / 256) 256 ltac:(lia)).
  pose proof (Z.div_mod (v / 256 / 256) 256 ltac:(lia)).
  pose proof (Z.mod_pos_bound v 256 ltac:(lia)).
  pose proof (Z.mod_pos_bound (v / 256) 256 ltac:(lia)).
  pose proof (Z.mod_pos_bound (v / 256 / 256) 256 ltac:(lia)).
  replace (v / 65536) with (v / 256 / 256) by (rewrite Z.div_div by lia; reflexivity).
  replace (v / 16777216) with (v / 256 / 256 / 256)
    by (rewrite !Z.div_div by lia; reflexivity).
  assert (0 <= v / 256 / 256 / 256 < 256).
  { split; [repeat apply Z.div_pos; lia | ].
    rewrite !Z.div_div by lia. apply Z.div_lt_upper_bound; lia. }
  rewrite (Z.mod_small (v / 256 / 256 / 256)) by lia. lia.
Qed.

Lemma build_message_header (msgType : Z) (payload : Buffer) :
  0 <= msgType <= 255 ->
  Z.of_nat (length payload) <= 0xFFFFFFFF ->
  build_message msgType payload
  = Some (header_bytes msgType (Z.of_nat (length payload)) ++ payload).
Proof.
  intros Ht Hl. unfold build_message, writeUInt32BE, writeUInt8, writeUInt16BE.
  cbn [Buffer_alloc repeat length].
  replace (0 <=? MAGIC) with true by reflexivity.
  replace (MAGIC <=? 0xFFFFFFFF) with true by reflexivity.
  cbn -[Z.shiftr byte_of_Z Z.of_nat].
  replace (0 <=? msgType) with true by (symmetry; apply Z.leb_le; lia).
  replace (msgType <=? 255) with true by (symmetry; apply Z.leb_le; lia).
  cbn -[Z.shiftr byte_of_Z Z.of_nat].
  replace (0 <=? Z.of_nat (length payload)) with true by (symmetry; apply Z.leb_le; lia).
  replace (Z.of_nat (length payload) <=? 4294967295) with true
    by (symmetry; apply Z.leb_le; lia).
  cbn -[Z.shiftr byte_of_Z Z.of_nat]. reflexivity.
Qed.

Lemma build_message_inv (msgType : Z) (payload message : Buffer) :
  build_message msgType payload = Some message ->
  0 <= msgType <= 255 /\ Z.of_nat (length payload) <= 0xFFFFFFFF
  /\ message = header_bytes msgType (Z.of_nat (length payload)) ++ payload.
Proof.
  intros H.
  assert (Ht : 0 <= msgType <= 255).
  { unfold build_message, writeUInt32BE, writeUInt8 in H.
    cbn [Buffer_alloc repeat length] in H.
    replace (0 <=? MAGIC) with true in H by reflexivity.
    replace (MAGIC <=? 0xFFFFFFFF) with true in H by reflexivity.
    cbn -[Z.shiftr byte_of_Z Z.of_nat writeUInt16BE] in H.
    destruct (0 <=? msgType) eqn:E1; [ | discriminate].
    destruct (msgType <=? 255) eqn:E2; [ | discriminate].
    apply Z.leb_le in E1, E2. lia. }
  assert (Hl : Z.of_nat (length payload) <= 0xFFFFFFFF).
  { unfold build_message, writeUInt32BE, writeUInt8, writeUInt16BE in H.
    cbn [Buffer_alloc repeat length] in H.
    replace (0 <=? MAGIC) with true in H by reflexivity.
    replace (MAGIC <=? 0xFFFFFFFF) with true in H by reflexivity.
    cbn -[Z.shiftr byte_of_Z Z.of_nat] in H.
    replace (0 <=? msgType) with true in H by (symmetry; apply Z.leb_le; lia).
    replace (msgType <=? 255) with true in H by (symmetry; apply Z.leb_le; lia).
    cbn -[Z.shiftr byte_of_Z Z.of_nat] in H.
    destruct (Z.of_nat (length payload) <=? 4294967295) eqn:E; [apply Z.leb_le in E; lia | ].
    rewrite andb_false_r in H. discriminate. }
  rewrite build_message_header in H by assumption.
  injection H as <-. auto.
Qed.

Lemma header_magic (t l : Z) (rest : Buffer) :
  readUInt32BE (header_bytes t l ++ rest) 0 = MAGIC.
Proof. reflexivity. Qed.

Lemma header_version (t l : Z) (rest : Buffer) :
  readUInt8 (header_bytes t l ++ rest) 4 = VERSION.
Proof. reflexivity. Qed.

Lemma header_msgType (t l : Z) (rest : Buffer) :
  0 <= t <= 255 -> readUInt8 (header_bytes t l ++ rest) 5 = t.
Proof.
  intros Ht. unfold readUInt8. cbn [header_bytes app nth].
  rewrite Z_of_byte_of_Z. apply Z.mod_small. lia.
Qed.

Lemma header_payloadLen (t l : Z) (rest : Buffer) :
  0 <= l <= 0xFFFFFFFF -> readUInt32BE (header_bytes t l ++ rest) 8 = l.
Proof.
  intros Hl. unfold readUInt32BE, readUInt8.
  cbn [header_bytes app nth Nat.add].
  rewrite !Z_of_byte_of_Z. apply be32_value. exact Hl.
Qed.

Section Receive.

Variable msgpack_encode : Node -> Buffer.
Variable msgpack_decode : Buffer -> option Node.

Abbreviation dispatch := (NexaClient.dispatch msgpack_decode).
Abbreviation process := (NexaClient.process msgpack_decode).
Abbreviation _handleData := (NexaClient._handleData msgpack_decode).
Abbreviation deliver := (NexaClient.deliver msgpack_decode).

(** ** The receive loop *)

Lemma dispatch_set_buffer (b : Buffer) (c : Client) (t : Z) (p : Buffer) :
  dispatch (set_buffer b c) t p = set_buffer b (dispatch c t p).
Proof.
  unfold dispatch, _handleMessage. destruct (msgpack_decode p) as [v|]; [ | reflexivity].
  destruct c as [? ? ? ? ? pend ? ? ?]; cbn.
  destruct pend as [ | r rest]; [reflexivity | ].
  destruct ((t =? MSG_SUCCESS) || (t =? MSG_PONG)); [reflexivity | ].
  destruct (t =? MSG_ERROR).
  - destruct (error_message v); reflexivity.
  - destruct (t =? MSG_NOT_FOUND); reflexivity.
Qed.

Lemma dispatch_buffer (c : Client) (t : Z) (p : Buffer) :
  buffer (dispatch c t p) = buffer c.
Proof.
  unfold dispatch, _handleMessage. destruct (msgpack_decode p) as [v|]; [ | reflexivity].
  destruct (pendingRequests c) as [ | r rest]; [reflexivity | ].
  destruct ((t =? MSG_SUCCESS) || (t =? MSG_PONG)); [reflexivity | ].
  destruct (t =? MSG_ERROR).
  - destruct (error_message v); reflexivity.
  - destruct (t =? MSG_NOT_FOUND); reflexivity.
Qed.

Lemma set_buffer_twice (b b' : Buffer) (c : Client) :
  set_buffer b (set_buffer b' c) = set_buffer b c.
Proof. reflexivity. Qed.

Lemma set_buffer_same (c : Client) : set_buffer (buffer c) c = c.
Proof. destruct c; reflexivity. Qed.

Lemma deliver_cons (f : Frame) (frames : list Frame) (c : Client) :
  deliver c (f :: frames) = deliver (dispatch c (fst f) (snd f)) frames.
Proof. reflexivity. Qed.

Lemma deliver_set_buffer (b : Buffer) (frames : list Frame) (c : Client) :
  deliver (set_buffer b c) frames = set_buffer b (deliver c frames).
Proof.
  revert c. induction frames as [ | f fs IH]; intros c; [reflexivity | ].
  rewrite !deliver_cons, dispatch_set_buffer. apply IH.
Qed.

Lemma deliver_buffer (frames : list Frame) (c : Client) :
  buffer (deliver c frames) = buffer c.
Proof.
  revert c. induction frames as [ | f fs IH]; intros c; [reflexivity | ].
  rewrite deliver_cons, IH. apply dispatch_buffer.
Qed.

(** Fuel above the buffer length is as good as any other such fuel. *)
Lemma process_fuel (f1 f2 : nat) (c : Client) :
  (length (buffer c) < f1)%nat -> (length (buffer c) < f2)%nat ->
  process f1 c = process f2 c.
Proof.
  revert f2 c. induction f1 as [ | f1 IH]; intros f2 c H1 H2; [lia | ].
  destruct f2 as [ | f2]; [lia | ].
  cbn [NexaClient.process].
  destruct (12 <=? length (buffer c))%nat eqn:E12; [ | reflexivity].
  apply Nat.leb_le in E12.
  destruct (Z.of_nat (length (buffer c)) <? 12 + readUInt32BE (buffer c) 8);
    [reflexivity | ].
  destruct (negb (readUInt32BE (buffer c) 0 =? MAGIC)); [reflexivity | ].
  apply IH; rewrite dispatch_buffer; cbn [buffer set_buffer]; unfold slice_from;
    rewrite length_skipn; lia.
Qed.

(** A waiting buffer is left as it is. *)
Lemma process_waiting (fuel : nat) (c : Client) :
  waiting (buffer c) -> process fuel c = c.
Proof.
  intros W. destruct fuel as [ | fuel]; [reflexivity | ].
  cbn [NexaClient.process].
  destruct (12 <=? length (buffer c))%nat eqn:E12; [ | reflexivity].
  apply Nat.leb_le in E12.
  destruct W as [W | W]; [lia | ].
  apply Z.ltb_lt in W. rewrite W. reflexivity.
Qed.

(** One complete, well-formed frame at the head of the buffer is
    extracted whole and dispatched; the loop goes on with the rest. *)
Lemma process_frame (fuel : nat) (c : Client) (t : Z) (p m rest : Buffer) :
  build_message t p = Some m ->
  buffer c = m ++ rest ->
  process (S fuel) c = process fuel (dispatch (set_buffer rest c) t p).
Proof.
  intros Hm Hb. apply build_message_inv in Hm as (Ht & Hl & ->).
  cbn [NexaClient.process]. rewrite Hb.
  assert (Hlen : length ((header_bytes t (Z.of_nat (length p)) ++ p) ++ rest)
                 = (12 + length p + length rest)%nat).
  { rewrite !length_app. reflexivity. }
  rewrite Hlen.
  replace (12 <=? 12 + length p + length rest)%nat with true
    by (symmetry; apply Nat.leb_le; lia).
  rewrite <- !app_assoc.
  rewrite header_magic, header_msgType, header_payloadLen by lia.
  replace (Z.of_nat (12 + length p + length rest) <? 12 + Z.of_nat (length p))
    with false by (symmetry; apply Z.ltb_ge; lia).
  replace (negb (MAGIC =? MAGIC)) with false by reflexivity.
  rewrite Nat2Z.id.
  f_equal. f_equal.
  - unfold slice_from. f_equal.
    change (12 + length p)%nat with (length (header_bytes t (Z.of_nat (length p))) + length p)%nat.
    rewrite app_assoc, <- length_app. apply skipn_app_length.
  - unfold slice. replace (12 + length p - 12)%nat with (length p) by lia.
    cbn [header_bytes app skipn]. apply firstn_app_length.
Qed.

(** Complete frames at the head of the buffer are delivered in order. *)
Lemma process_frames (frames : list Frame) (messages : list Buffer)
      (rest : Buffer) (fuel : nat) (c : Client) :
  encoded frames messages ->
  buffer c = concat messages ++ rest ->
  (length (buffer c) < fuel)%nat ->
  process fuel c = process fuel (deliver (set_buffer rest c) frames).
Proof.
  intros Henc. revert fuel c.
  induction Henc as [ | [t p] m fs ms Hm Henc IH]; intros fuel c Hb Hf.
  - cbn in Hb |- *. rewrite <- Hb, set_buffer_same. reflexivity.
  - cbn [concat] in Hb. rewrite <- app_assoc in Hb.
    destruct fuel as [ | fuel]; [lia | ].
    cbn [fst snd] in Hm.
    rewrite (process_frame fuel c t p m _ Hm Hb).
    pose proof (build_message_inv _ _ _ Hm) as (_ & _ & Em).
    assert (Hlm : (12 <= length m)%nat).
    { rewrite Em, length_app. cbn. lia. }
    rewrite (IH fuel).
    + rewrite deliver_cons. cbn [fst snd].
      rewrite dispatch_set_buffer, set_buffer_twice, <- dispatch_set_buffer.
      apply process_fuel; rewrite deliver_buffer, dispatch_buffer; cbn;
        rewrite Hb, !length_app in Hf; lia.
    + rewrite dispatch_buffer. reflexivity.
    + rewrite dispatch_buffer. cbn. rewrite Hb, !length_app in Hf.
      rewrite length_app. lia.
Qed.

Lemma handleData_nil (c : Client) : buffer c = [] -> _handleData c [] = c.
Proof.
  intros Hb. unfold NexaClient._handleData. rewrite Hb. cbn [app].
  rewrite <- Hb, set_buffer_same. apply process_waiting. left. rewrite Hb. cbn. lia.
Qed.

(** Feeding a whole frame (and more) to an empty buffer dispatches the
    frame and goes on with what follows it. *)
Lemma handleData_frame (c : Client) (t : Z) (p m x : Buffer) :
  build_message t p = Some m ->
  buffer c = [] ->
  _handleData c (m ++ x) = _handleData (dispatch c t p) x.
Proof.
  intros Hm Hb. unfold NexaClient._handleData.
  rewrite dispatch_buffer, Hb. cbn [app].
  cbn [buffer set_buffer].
  rewrite (process_frame _ _ t p m x Hm) by reflexivity.
  rewrite set_buffer_twice, dispatch_set_buffer.
  pose proof (build_message_inv _ _ _ Hm) as (_ & _ & Em).
  assert (Hlm : (12 <= length m)%nat) by (rewrite Em, length_app; cbn; lia).
  apply process_fuel; cbn [buffer set_buffer]; rewrite ?length_app; lia.
Qed.

(** A proper prefix of an encoded frame is a waiting buffer. *)
Lemma prefix_waiting (t : Z) (p m pre suf : Buffer) :
  build_message t p = Some m ->
  m = pre ++ suf -> suf <> [] -> waiting pre.
Proof.
  intros Hm E Hs. apply build_message_inv in Hm as (Ht & Hl & ->).
  destruct (Nat.lt_ge_cases (length pre) 12) as [Hlt | Hge]; [left; exact Hlt | right].
  assert (Hlen : (length pre + length suf = 12 + length p)%nat).
  { rewrite <- length_app, <- E, length_app. reflexivity. }
  assert (Hsuf : (0 < length suf)%nat) by (destruct suf; [congruence | cbn; lia]).
  assert (Epre : pre = header_bytes t (Z.of_nat (length p)) ++ firstn (length pre - 12) p).
  { rewrite <- (firstn_app_length pre suf) at 1. rewrite <- E, firstn_app.
    f_equal. apply firstn_all2. cbn. lia. }
  rewrite Epre at 2. rewrite header_payloadLen by lia. lia.
Qed.

Lemma handleData_waiting (c : Client) (data : Buffer) :
  waiting (buffer c ++ data) -> _handleData c data = set_buffer (buffer c ++ data) c.
Proof.
  intros W. unfold NexaClient._handleData. apply process_waiting. exact W.
Qed.

(** Splitting the input between two calls changes nothing, as long as
    the input is a prefix of a stream of encoded frames. *)
Lemma handleData_split (frames : list Frame) (messages : list Buffer)
      (c : Client) (p d q : Buffer) :
  encoded frames messages ->
  buffer c = [] ->
  concat messages = p ++ d ++ q ->
  _handleData (_handleData c p) d = _handleData c (p ++ d).
Proof.
  intros Henc. revert c p d q.
  induction Henc as [ | [t pl] m fs ms Hm Henc IH]; intros c p d q Hb E.
  - cbn in E. symmetry in E. apply app_eq_nil in E as [-> E].
    apply app_eq_nil in E as [-> _]. cbn [app].
    rewrite !(handleData_nil c Hb). reflexivity.
  - cbn [fst snd] in Hm. cbn [concat] in E.
    assert (Hin : forall x, concat ms = x ++ d ++ q ->
              _handleData (_handleData c (m ++ x)) d = _handleData c ((m ++ x) ++ d)).
    { intros x Ex. rewrite <- app_assoc.
      rewrite !(handleData_frame c t pl m _ Hm Hb).
      apply (IH _ _ _ q); [rewrite dispatch_buffer; exact Hb | exact Ex]. }
    apply app_eq_app in E as [l [[Em Er] | [Ep Er]]].
    + destruct l as [ | b l].
      * (* [p] is exactly the first frame *)
        rewrite app_nil_r in Em. subst p.
        specialize (Hin [] (eq_sym Er)). rewrite app_nil_r in Hin. exact Hin.
      * (* [p] ends inside the first frame *)
        assert (W : waiting p)
          by (apply (prefix_waiting t pl m p (b :: l) Hm Em); discriminate).
        rewrite (handleData_waiting c p) by (rewrite Hb; exact W).
        unfold NexaClient._handleData. cbn [buffer set_buffer].
        rewrite Hb, set_buffer_twice. cbn [app]. reflexivity.
    + (* the first frame lies within [p] *)
      subst p. apply Hin. exact Er.
Qed.

Lemma handleData_chunks (frames : list Frame) (messages : list Buffer)
      (c : Client) (chunks : list Buffer) (p q : Buffer) :
  encoded frames messages ->
  buffer c = [] ->
  concat messages = p ++ concat chunks ++ q ->
  fold_left _handleData chunks (_handleData c p) = _handleData c (p ++ concat chunks).
Proof.
  intros Henc Hb. revert p q.
  induction chunks as [ | d ds IH]; intros p q E.
  - cbn. rewrite app_nil_r. reflexivity.
  - cbn [fold_left concat]. cbn [concat] in E. rewrite <- app_assoc in E.
    rewrite (handleData_split frames messages c p d _ Henc Hb E).
    rewrite app_assoc. apply (IH _ q). rewrite <- app_assoc. exact E.
Qed.

Lemma handleData_stream (frames : list Frame) (messages : list Buffer) (c : Client) :
  encoded frames messages ->
  buffer c = [] ->
  _handleData c (concat messages) = deliver c frames.
Proof.
  intros Henc Hb. unfold NexaClient._handleData. rewrite Hb. cbn [app].
  rewrite (process_frames frames messages [] _ _ Henc);
    [ | cbn; rewrite app_nil_r; reflexivity | cbn; lia ].
  rewrite set_buffer_twice, <- Hb, set_buffer_same.
  apply process_waiting. left. rewrite deliver_buffer, Hb. cbn. lia.
Qed.

(** ** Frame layout on send *)

(** C4. Every message kind (a byte) and every payload (its length fits
    the 32-bit length field): the bytes [_sendMessage] writes to the
    socket are a 12-byte header followed by the payload; the header
    holds, big-endian, the magic 0x4E455841 in bytes 0..3, the version
    in byte 4, the message kind in byte 5, zero flags in bytes 6..7 and
    the payload's byte length in bytes 8..11. *)
Theorem sendMessage_wire_frame (c : Client) (msgType : Z) (data : Node) (now : Z) :
  connected c = true ->
  0 <= msgType <= 255 ->
  Z.of_nat (length (msgpack_encode data)) <= 0xFFFFFFFF ->
  exists header : Buffer,
    trace (fst (_sendMessage msgpack_encode c msgType data now))
    = trace c ++ [Socket_write (header ++ msgpack_encode data)]
    /\ length header = 12%nat
    /\ firstn 4 header = [x4e; x45; x58; x41]
    /\ readUInt32BE header 0 = 0x4E455841
    /\ readUInt8 header 4 = VERSION
    /\ readUInt8 header 5 = msgType
    /\ readUInt8 header 6 = 0 /\ readUInt8 header 7 = 0
    /\ readUInt32BE header 8 = Z.of_nat (length (msgpack_encode data))
    /\ skipn 8 header
       = map byte_of_Z [Z.of_nat (length (msgpack_encode data)) / 2 ^ 24;
                        Z.of_nat (length (msgpack_encode data)) / 2 ^ 16;
                        Z.of_nat (length (msgpack_encode data)) / 2 ^ 8;
                        Z.of_nat (length (msgpack_encode data))].
Proof.
  intros Hc Ht Hl.
  exists (header_bytes msgType (Z.of_nat (length (msgpack_encode data)))).
  unfold NexaClient._sendMessage. rewrite Hc. cbn [negb].
  rewrite build_message_header by assumption. cbn [fst].
  repeat split.
  - pose proof (header_msgType msgType (Z.of_nat (length (msgpack_encode data))) [] Ht) as H.
    rewrite app_nil_r in H. exact H.
  - pose proof (header_payloadLen msgType (Z.of_nat (length (msgpack_encode data))) []) as H.
    rewrite app_nil_r in H. apply H. lia.
  - cbn [header_bytes skipn map]. rewrite !Z.shiftr_div_pow2 by lia. reflexivity.
Qed.

(** C8. While the connection is not open, [_sendMessage] rejects at
    once with the not-connected error and leaves the client untouched:
    nothing is written to the socket (the trace is the same) and the
    pending-request queue is the same. *)
Theorem sendMessage_not_connected (c : Client) (msgType : Z) (data : Node) (now : Z) :
  connected c = false ->
  _sendMessage msgpack_encode c msgType data now = (c, Rejected Error_NotConnected).
Proof.
  intros Hc. unfold NexaClient._sendMessage. rewrite Hc. reflexivity.
Qed.

(** ** Reassembly *)



Lemma waiting_prefix (pre suf : Buffer) : waiting (pre ++ suf) -> waiting pre.
Proof.
  intros [W | W]; [left; rewrite length_app in W; lia | ].
  destruct (Nat.lt_ge_cases (length pre) 12) as [Hlt | Hge]; [left; exact Hlt | right].
  assert (E : readUInt32BE (pre ++ suf) 8 = readUInt32BE pre 8).
  { unfold readUInt32BE, readUInt8. rewrite !app_nth1 by lia. reflexivity. }
  rewrite E, length_app in W. lia.
Qed.

Lemma handleData_chunks_waiting (chunks : list Buffer) (c : Client) :
  waiting (buffer c ++ concat chunks) ->
  fold_left _handleData chunks c = set_buffer (buffer c ++ concat chunks) c.
Proof.
  revert c. induction chunks as [ | d ds IH]; intros c W.
  - cbn. rewrite app_nil_r, set_buffer_same. reflexivity.
  - cbn [fold_left concat] in *. rewrite app_assoc in W.
    rewrite (handleData_waiting c d) by (apply waiting_prefix in W; exact W).
    rewrite IH; cbn [buffer set_buffer]; [ | exact W].
    rewrite set_buffer_twice, app_assoc. reflexivity.
Qed.

(** C9. A header with a wrong magic whose declared payload has not
    fully arrived is not examined: however the following bytes are
    chunked, as long as fewer than 12 plus the declared length are
    buffered, nothing is reported (the trace is the same) and nothing
    is consumed (the buffer holds every byte received). *)
Theorem handleData_magic_checked_last (c : Client) (chunks : list Buffer) :
  let buf := buffer c ++ concat chunks in
  (12 <= length buf)%nat ->
  readUInt32BE buf 0 <> MAGIC ->
  Z.of_nat (length buf) < 12 + readUInt32BE buf 8 ->
  fold_left _handleData chunks c = set_buffer buf c
  /\ trace (fold_left _handleData chunks c) = trace c
  /\ buffer (fold_left _handleData chunks c) = buf.
Proof.
  intros buf H12 _ Hlen.
  assert (E : fold_left _handleData chunks c = set_buffer buf c)
    by (apply handleData_chunks_waiting; right; exact Hlen).
  rewrite E. repeat split.
Qed.

(** ** Connection life cycle *)

Lemma dispatch_flags (c : Client) (t : Z) (p : Buffer) :
  connected (dispatch c t p) = connected c
  /\ connecting (dispatch c t p) = connecting c.
Proof.
  unfold NexaClient.dispatch, _handleMessage.
  destruct (msgpack_decode p) as [v|]; [ | split; reflexivity].
  destruct (pendingRequests c) as [ | r rest]; [split; reflexivity | ].
  destruct ((t =? MSG_SUCCESS) || (t =? MSG_PONG)); [split; reflexivity | ].
  destruct (t =? MSG_ERROR).
  - destruct (error_message v); split; reflexivity.
  - destruct (t =? MSG_NOT_FOUND); split; reflexivity.
Qed.

Lemma process_flags (fuel : nat) (c : Client) :
  connected (process fuel c) = connected c
  /\ connecting (process fuel c) = connecting c.
Proof.
  revert c. induction fuel as [ | fuel IH]; intros c; [split; reflexivity | ].
  cbn [NexaClient.process].
  destruct (12 <=? length (buffer c))%nat; [ | split; reflexivity].
  destruct (Z.of_nat (length (buffer c)) <? 12 + readUInt32BE (buffer c) 8);
    [split; reflexivity | ].
  destruct (negb (readUInt32BE (buffer c) 0 =? MAGIC)); [split; reflexivity | ].
  destruct (IH (dispatch
                  (set_buffer (slice_from (buffer c)
                                 (12 + Z.to_nat (readUInt32BE (buffer c) 8))) c)
                  (readUInt8 (buffer c) 5)
                  (slice (buffer c) 12 (12 + Z.to_nat (readUInt32BE (buffer c) 8)))))
    as [H1 H2].
  rewrite H1, H2.
  match goal with |- context [dispatch ?c' ?t ?p] =>
    destruct (dispatch_flags c' t p) as [H3 H4] end.
  rewrite H3, H4. split; reflexivity.
Qed.

Lemma reject_all_fold (pending : list PendingRequest) (c : Client) :
  fold_left (fun c req => log (Reject (id req) Error_ConnectionClosed) c) pending c
  = {| timeout := timeout c; autoReconnect := autoReconnect c; socket := socket c;
       connected := connected c; connecting := connecting c;
       pendingRequests := pendingRequests c; requestId := requestId c;
       buffer := buffer c;
       trace := trace c
                ++ map (fun req => Reject (id req) Error_ConnectionClosed) pending |}.
Proof.
  revert c. induction pending as [ | r rs IH]; intros c.
  - cbn. rewrite app_nil_r. destruct c; reflexivity.
  - cbn [fold_left map]. rewrite IH. cbn. rewrite <- app_assoc. reflexivity.
Qed.

Lemma sendMessage_flags (c : Client) (t : Z) (d : Node) (n : Z) :
  connected (fst (_sendMessage msgpack_encode c t d n)) = connected c
  /\ connecting (fst (_sendMessage msgpack_encode c t d n)) = connecting c.
Proof.
  unfold NexaClient._sendMessage.
  destruct (negb (connected c)); [split; reflexivity | ].
  destruct (build_message t (msgpack_encode d)); split; reflexivity.
Qed.

(** An open connection is not at the same time being established. *)
Lemma connected_not_connecting (c : Client) :
  reachable msgpack_encode msgpack_decode c ->
  connected c = true -> connecting c = false.
Proof.
  induction 1 as [ t a | c R IH | c R IH | c t d n R IH | c cr n R IH
                 | c d R IH | c e R IH | c R IH | c R IH ]; intros Hc.
  - discriminate.
  - unfold connect in *. destruct (connected c) eqn:E; [auto | ].
    destruct (connecting c); cbn in *; congruence.
  - unfold disconnect in *. destruct (socket (set_autoReconnect false c)); cbn in *; auto.
  - destruct (sendMessage_flags c t d n) as [H1 H2].
    rewrite H1 in Hc. rewrite H2. auto.
  - unfold on_connect.
    match goal with |- context [NexaClient._sendMessage _ ?c' ?t ?d ?n] =>
      destruct (sendMessage_flags c' t d n) as [_ H2] end.
    rewrite H2. reflexivity.
  - unfold NexaClient._handleData in *.
    destruct (process_flags (S (length (buffer (set_buffer (buffer c ++ d) c))))
                (set_buffer (buffer c ++ d) c)) as [H1 H2].
    rewrite H1 in Hc. rewrite H2. cbn in *. auto.
  - discriminate.
  - unfold on_close in Hc. rewrite reject_all_fold in Hc. cbn in Hc.
    destruct (autoReconnect c && negb (connecting c)); discriminate.
  - unfold on_connect_timeout in *. destruct (socket c); cbn in *; auto.
Qed.

(** C6. A client with an open connection, auto-reconnect enabled and
    no [disconnect()] call so far (which would have cleared the flag),
    whose socket closes: the close handler marks the client
    disconnected, announces it, then rejects every pending request with
    the connection-closed error in queue order and empties the queue,
    and after that schedules one reconnection, 1000 ms later. *)
Theorem on_close_rejects_then_reconnects (c : Client) :
  reachable msgpack_encode msgpack_decode c ->
  connected c = true ->
  autoReconnect c = true ->
  on_close c
  = {| timeout := timeout c; autoReconnect := true; socket := socket c;
       connected := false; connecting := false;
       pendingRequests := []; requestId := requestId c;
       buffer := buffer c;
       trace := trace c
                ++ [Emit_disconnect]
                ++ map (fun req => Reject (id req) Error_ConnectionClosed)
                       (pendingRequests c)
                ++ [SetTimeout Reconnect 1000] |}.
Proof.
  intros R Hc Ha. pose proof (connected_not_connecting c R Hc) as Hg.
  unfold on_close. rewrite reject_all_fold. cbn.
  rewrite Ha, Hg. cbn. unfold log, set_pendingRequests. cbn.
  rewrite <- !app_assoc. reflexivity.
Qed.

(** After [disconnect()] the close handler schedules nothing. *)
Lemma on_close_after_disconnect (c : Client) :
  trace (on_close (disconnect c))
  = trace (disconnect c)
    ++ [Emit_disconnect]
    ++ map (fun req => Reject (id req) Error_ConnectionClosed) (pendingRequests c).
Proof.
  unfold on_close. rewrite reject_all_fold. unfold disconnect.
  destruct (socket (set_autoReconnect false c)); cbn; rewrite <- !app_assoc; reflexivity.
Qed.

(** ** Correlation *)

Lemma handleMessage_settles (c : Client) (req : PendingRequest)
      (rest : list PendingRequest) (t : Z) (v : Node) :
  pendingRequests c = req :: rest ->
  (t = MSG_ERROR -> v <> Null) ->
  _handleMessage c t v
  = Normal (log (settlement (id req) t v) (set_pendingRequests rest c)).
Proof.
  intros Hp Hv. unfold _handleMessage, settlement. rewrite Hp.
  destruct ((t =? MSG_SUCCESS) || (t =? MSG_PONG)); [reflexivity | ].
  destruct (t =? MSG_ERROR) eqn:E.
  - apply Z.eqb_eq in E. specialize (Hv E).
    destruct (error_message v) as [m|] eqn:Em; [reflexivity | ].
    destruct v; try discriminate; [congruence | ].
    unfold error_message in Em.
    destruct (lookup (js "error") entries) as [m|]; [ | discriminate].
    destruct (truthy m); discriminate.
  - destruct (t =? MSG_NOT_FOUND); reflexivity.
Qed.

(** With responses that decode (an error response to a payload that is
    not null), the k-th response settles the k-th pending request, in
    order, and the requests beyond stay queued. *)
Lemma fifo_correlation (frames : list Frame) (payloads : list Node)
      (reqs rest : list PendingRequest) (c : Client) :
  decoded msgpack_decode frames payloads ->
  length reqs = length frames ->
  pendingRequests c = reqs ++ rest ->
  pendingRequests (deliver c frames) = rest
  /\ trace (deliver c frames)
     = trace c
       ++ map (fun x => settlement (id (fst x)) (fst (fst (snd x))) (snd (snd x)))
              (combine reqs (combine frames payloads)).
Proof.
  intros Hd. revert reqs c.
  induction Hd as [ | [t b] v fs vs [Hv Hn] Hd IH]; intros reqs c Hl Hp.
  - destruct reqs; [ | discriminate]. cbn. rewrite app_nil_r. auto.
  - destruct reqs as [ | r reqs]; [discriminate | ]. cbn in Hl. injection Hl as Hl.
    rewrite deliver_cons. cbn [fst snd] in *.
    assert (E : dispatch c t b = log (settlement (id r) t v) (set_pendingRequests (reqs ++ rest) c)).
    { unfold NexaClient.dispatch. rewrite Hv.
      rewrite (handleMessage_settles c r (reqs ++ rest) t v Hp Hn). reflexivity. }
    rewrite E. destruct (IH reqs (log (settlement (id r) t v)
                                     (set_pendingRequests (reqs ++ rest) c)) Hl eq_refl)
      as [H1 H2].
    split; [exact H1 | ]. rewrite H2. cbn. rewrite <- app_assoc. reflexivity.
Qed.

End Receive.

(** *** The theorems above at concrete inputs *)

Lemma sendMessage_wire_frame_witness :
  exists header : Buffer,
    trace (fst (_sendMessage msgpack_encode_sample handshaking MSG_PING (Mapping []) 1))
    = trace handshaking ++ [Socket_write (header ++ [x80])]
    /\ length header = 12%nat
    /\ firstn 4 header = [x4e; x45; x58; x41]
    /\ readUInt32BE header 0 = 0x4E455841
    /\ readUInt8 header 4 = VERSION
    /\ readUInt8 header 5 = MSG_PING
    /\ readUInt8 header 6 = 0 /\ readUInt8 header 7 = 0
    /\ readUInt32BE header 8 = 1
    /\ skipn 8 header = [x00; x00; x00; x01].
Proof.
  apply (sendMessage_wire_frame msgpack_encode_sample handshaking MSG_PING (Mapping []) 1).
  - reflexivity.
  - unfold MSG_PING. lia.
  - cbn. lia.
Defined.

Lemma sendMessage_not_connected_witness :
  _sendMessage msgpack_encode_sample (new_client 30000 true) MSG_PING (Mapping []) 0
  = (new_client 30000 true, Rejected Error_NotConnected).
Proof.
  apply (sendMessage_not_connected msgpack_encode_sample). reflexivity.
Defined.



Lemma handleData_magic_checked_last_witness :
  let chunks := [[x4e; x45; x58; x42; x01; x81; x00]; [x00; x00; x00; x00; x03; x80]; [x80]] in
  let buf := concat chunks in
  fold_left (_handleData msgpack_decode_sample) chunks handshaking
  = set_buffer buf handshaking
  /\ trace (fold_left (_handleData msgpack_decode_sample) chunks handshaking)
     = trace handshaking
  /\ buffer (fold_left (_handleData msgpack_decode_sample) chunks handshaking) = buf.
Proof.
  apply (handleData_magic_checked_last msgpack_decode_sample handshaking).
  - cbn. lia.
  - vm_compute. discriminate.
  - vm_compute. reflexivity.
Defined.

Lemma on_close_rejects_then_reconnects_witness :
  on_close handshaking
  = {| timeout := 30000; autoReconnect := true; socket := true;
       connected := false; connecting := false;
       pendingRequests := []; requestId := 1;
       buffer := [];
       trace := trace handshaking
                ++ [Emit_disconnect; Reject 0 Error_ConnectionClosed;
                    SetTimeout Reconnect 1000] |}.
Proof.
  apply (on_close_rejects_then_reconnects msgpack_encode_sample msgpack_decode_sample).
  - unfold handshaking. apply reach_on_connect, reach_connect, reach_new.
  - reflexivity.
  - reflexivity.
Defined.

(** An error response whose payload is MessagePack nil: the handshake
    request is taken off the queue and then neither resolved nor
    rejected; the only effect is an 'error' event. *)
Theorem error_response_nil_payload_unsettled :
  let response := header_bytes MSG_ERROR 1 ++ [xc0] in
  let c := _handleData msgpack_decode_sample handshaking response in
  pendingRequests handshaking = [{| id := 0; timestamp := 0 |}]
  /\ build_message MSG_ERROR [xc0] = Some response
  /\ pendingRequests c = []
  /\ trace c = trace handshaking ++ [Emit_error (Error_DecodeFailed TypeError)].
Proof. repeat split. Qed.

(** A response whose payload does not decode leaves the queue as it
    is, and the next response then settles the earlier request. *)
Lemma undecodable_response_shifts_matching :
  let c1 := fst (_sendMessage msgpack_encode_sample handshaking MSG_PING (Mapping []) 1) in
  let garbled := header_bytes MSG_SUCCESS 1 ++ [xc1] in
  let pong := header_bytes MSG_PONG 1 ++ [x80] in
  let c2 := _handleData msgpack_decode_sample c1 (garbled ++ pong) in
  map id (pendingRequests c1) = [0; 1]
  /\ map id (pendingRequests c2) = [1]
  /\ trace c2 = trace c1 ++ [Emit_error (Error_DecodeFailed DecodeFailure);
                            Resolve 0 (Mapping [])].
Proof. repeat split. Qed.

End NexaClientFacts.

(** * Properties of the TOON codec *)

Module TOONFacts.

Import TOON.
Local Open Scope char_scope.
Local Open Scope list_scope.

(** ** Strings *)

Lemma trimStart_blank (s : list ascii) : blank s -> trimStart s = [].
Proof.
  induction 1 as [ | c s Hc _ IH]; [reflexivity | ]. cbn. rewrite Hc. exact IH.
Qed.

Lemma trimStart_nil_blank (s : list ascii) : trimStart s = [] -> blank s.
Proof.
  induction s as [ | c s IH]; intros H; [constructor | ].
  cbn in H. destruct (is_space c) eqn:E; [ | discriminate].
  constructor; [exact E | apply IH; exact H].
Qed.

Lemma trimStart_app_blank (u v : list ascii) :
  blank u -> trimStart (u ++ v) = trimStart v.
Proof.
  induction 1 as [ | c u Hc _ IH]; [reflexivity | ]. cbn. rewrite Hc. exact IH.
Qed.

Lemma trimStart_app_nonblank (u v : list ascii) :
  trimStart u <> [] -> trimStart (u ++ v) = trimStart u ++ v.
Proof.
  induction u as [ | c u IH]; intros H; [cbn in H; congruence | ].
  cbn in *. destruct (is_space c); [apply IH; exact H | reflexivity].
Qed.

Lemma trimStart_head (c : ascii) (s : list ascii) :
  is_space c = false -> trimStart (c :: s) = c :: s.
Proof. intros H. cbn. rewrite H. reflexivity. Qed.

Lemma blank_spaces (n : nat) : blank (spaces n).
Proof. induction n; constructor; [reflexivity | assumption]. Qed.

Lemma blank_app (u v : list ascii) : blank u -> blank v -> blank (u ++ v).
Proof. intros. apply Forall_app; auto. Qed.

Lemma blank_rev (u : list ascii) : blank u -> blank (rev u).
Proof. intros. apply Forall_rev; auto. Qed.

Lemma length_spaces (n : nat) : length (spaces n) = n.
Proof. apply repeat_length. Qed.

Lemma trimStart_length (s : list ascii) : length (trimStart s) <= length s.
Proof.
  induction s as [ | c s IH]; cbn; [lia | ]. destruct (is_space c); cbn; lia.
Qed.

Lemma trimStart_suffix (s : list ascii) :
  exists u, blank u /\ s = u ++ trimStart s.
Proof.
  induction s as [ | c s [u [Hu E]]]; [exists []; split; [constructor | reflexivity] | ].
  cbn. destruct (is_space c) eqn:Hc.
  - exists (c :: u). split; [constructor; assumption | ]. cbn. f_equal. exact E.
  - exists []. split; [constructor | reflexivity].
Qed.

Lemma trimEnd_prefix (s : list ascii) :
  exists u, blank u /\ s = trimEnd s ++ u.
Proof.
  destruct (trimStart_suffix (rev s)) as [u [Hu E]].
  exists (rev u). split; [apply blank_rev; exact Hu | ].
  unfold trimEnd. rewrite <- rev_app_distr, <- E, rev_involutive. reflexivity.
Qed.

Lemma trimEnd_blank (s : list ascii) : blank s -> trimEnd s = [].
Proof.
  intros H. unfold trimEnd. rewrite trimStart_blank; [reflexivity | ].
  apply blank_rev. exact H.
Qed.

Lemma trimEnd_app_blank (u v : list ascii) : blank v -> trimEnd (u ++ v) = trimEnd u.
Proof.
  intros H. unfold trimEnd. rewrite rev_app_distr, trimStart_app_blank; [reflexivity | ].
  apply blank_rev. exact H.
Qed.

Lemma trimEnd_app_nonspace (u : list ascii) (c : ascii) (v : list ascii) :
  is_space c = false -> trimEnd (u ++ c :: v) = u ++ c :: trimEnd v.
Proof.
  intros Hc. unfold trimEnd. rewrite rev_app_distr. cbn [rev]. rewrite <- app_assoc. cbn [app].
  destruct (trimStart (rev v)) as [ | x t] eqn:E.
  - rewrite trimStart_app_blank by (apply trimStart_nil_blank; exact E).
    rewrite trimStart_head by exact Hc. cbn [rev]. rewrite rev_involutive. reflexivity.
  - rewrite trimStart_app_nonblank by (rewrite E; discriminate).
    rewrite E, rev_app_distr. cbn [rev]. rewrite rev_involutive, <- app_assoc.
    reflexivity.
Qed.

Lemma trimEnd_last (u : list ascii) (c : ascii) :
  is_space c = false -> trimEnd (u ++ [c]) = u ++ [c].
Proof. intros H. rewrite trimEnd_app_nonspace by exact H. reflexivity. Qed.

Lemma trim_blank (s : list ascii) : blank s -> trim s = [].
Proof. intros H. unfold trim. rewrite trimStart_blank by exact H. reflexivity. Qed.

Lemma trim_app_blank_l (u v : list ascii) : blank u -> trim (u ++ v) = trim v.
Proof. intros H. unfold trim. rewrite trimStart_app_blank by exact H. reflexivity. Qed.

Lemma trim_spaces_l (n : nat) (s : list ascii) : trim (spaces n ++ s) = trim s.
Proof. apply trim_app_blank_l, blank_spaces. Qed.

Lemma trim_app_blank_r (u v : list ascii) : blank v -> trim (u ++ v) = trim u.
Proof.
  intros H. unfold trim.
  destruct (trimStart u) as [ | x t] eqn:E.
  - rewrite trimStart_app_blank by (apply trimStart_nil_blank; exact E).
    rewrite (trimStart_blank v H). reflexivity.
  - rewrite trimStart_app_nonblank by (rewrite E; discriminate).
    rewrite E. apply trimEnd_app_blank. exact H.
Qed.

Lemma trim_trimEnd (s : list ascii) : trim (trimEnd s) = trim s.
Proof.
  destruct (trimEnd_prefix s) as [u [Hu E]].
  rewrite E at 2. rewrite trim_app_blank_r by exact Hu. reflexivity.
Qed.

Lemma trim_trimmed (s : list ascii) : trimmed s = true -> trim s = s.
Proof.
  destruct s as [ | c r]; [reflexivity | ]. unfold trimmed.
  intros H. apply andb_true_iff in H as [H1 H2].
  apply negb_true_iff in H1, H2. unfold trim. rewrite trimStart_head by exact H1.
  destruct (exists_last (l := c :: r) ltac:(discriminate)) as [u [x E]].
  rewrite E in *. rewrite last_last in H2. apply trimEnd_last. exact H2.
Qed.

Lemma trimmed_nonblank (s : list ascii) : trimmed s = true -> s <> [] -> trimStart s = s.
Proof.
  destruct s as [ | c r]; [congruence | ]. unfold trimmed. intros H _.
  apply andb_true_iff in H as [H1 _]. apply negb_true_iff in H1.
  apply trimStart_head. exact H1.
Qed.

Lemma indent_of_spaces (n : nat) (c : ascii) (s : list ascii) :
  is_space c = false -> indent_of (spaces n ++ c :: s) = n.
Proof.
  intros H. unfold indent_of. rewrite trimStart_app_blank by apply blank_spaces.
  rewrite trimStart_head by exact H. rewrite length_app, length_spaces. lia.
Qed.

(** ** includes, indexOf, substring *)

Lemma includes_app (c : ascii) (a b : list ascii) :
  includes c (a ++ b) = includes c a || includes c b.
Proof. unfold includes. apply existsb_app. Qed.

Lemma includes_cons (c x : ascii) (a : list ascii) :
  includes c (x :: a) = Ascii.eqb c x || includes c a.
Proof. reflexivity. Qed.

Lemma includes_false_In (c : ascii) (a : list ascii) :
  includes c a = false <-> ~ In c a.
Proof.
  unfold includes. split.
  - intros H Hin. assert (existsb (Ascii.eqb c) a = true).
    { apply existsb_exists. exists c. split; [exact Hin | apply Ascii.eqb_refl]. }
    congruence.
  - intros H. destruct (existsb (Ascii.eqb c) a) eqn:E; [ | reflexivity].
    apply existsb_exists in E as [x [Hx Hc]]. apply Ascii.eqb_eq in Hc. subst x. tauto.
Qed.

Lemma indexOf_from_app (c : ascii) (a b : list ascii) (i : Z) :
  includes c a = false ->
  indexOf_from c (a ++ c :: b) i = (i + Z.of_nat (length a))%Z.
Proof.
  revert i. induction a as [ | x a IH]; intros i H.
  - cbn. rewrite Ascii.eqb_refl. lia.
  - rewrite includes_cons in H. apply orb_false_iff in H as [H1 H2].
    cbn [app indexOf_from]. rewrite Ascii.eqb_sym, H1. rewrite IH by exact H2.
    cbn [length]. lia.
Qed.

Lemma indexOf_app (c : ascii) (a b : list ascii) :
  includes c a = false -> indexOf c (a ++ c :: b) = Z.of_nat (length a).
Proof. intros H. unfold indexOf. rewrite indexOf_from_app by exact H. lia. Qed.

Lemma clamp_of_nat (s : list ascii) (n : nat) : n <= length s -> clamp s (Z.of_nat n) = n.
Proof. intros H. unfold clamp. lia. Qed.

Lemma substring_range (s : list ascii) (a b : nat) :
  a <= b -> b <= length s ->
  substring s (Z.of_nat a) (Z.of_nat b) = firstn (b - a) (skipn a s).
Proof.
  intros H1 H2. unfold substring. rewrite !clamp_of_nat by lia.
  rewrite Nat.min_l, Nat.max_r by lia. reflexivity.
Qed.

Lemma substring_prefix (a b : list ascii) :
  substring (a ++ b) 0 (Z.of_nat (length a)) = a.
Proof.
  change 0%Z with (Z.of_nat 0). rewrite substring_range by (rewrite ?length_app; lia).
  cbn [skipn]. rewrite Nat.sub_0_r. apply firstn_app_length.
Qed.

Lemma substring_from_suffix (a b : list ascii) :
  substring_from (a ++ b) (Z.of_nat (length a)) = b.
Proof.
  unfold substring_from. rewrite substring_range by (rewrite ?length_app; lia).
  rewrite skipn_app_length. apply firstn_all2. rewrite length_app. lia.
Qed.

Lemma substring_middle (a b c : list ascii) :
  substring (a ++ b ++ c) (Z.of_nat (length a)) (Z.of_nat (length a + length b)) = b.
Proof.
  rewrite substring_range by (rewrite ?length_app; lia).
  rewrite skipn_app_length. replace (length a + length b - length a) with (length b) by lia.
  apply firstn_app_length.
Qed.

(** ** split and join *)

Lemma split_no_sep (sep : ascii) (a : list ascii) :
  includes sep a = false -> split sep a = [a].
Proof.
  induction a as [ | x a IH]; intros H; [reflexivity | ].
  rewrite includes_cons in H. apply orb_false_iff in H as [H1 H2].
  cbn. rewrite Ascii.eqb_sym, H1, IH by exact H2. reflexivity.
Qed.

Lemma split_app (sep : ascii) (a b : list ascii) :
  includes sep a = false -> split sep (a ++ sep :: b) = a :: split sep b.
Proof.
  induction a as [ | x a IH]; intros H.
  - cbn. rewrite Ascii.eqb_refl. reflexivity.
  - rewrite includes_cons in H. apply orb_false_iff in H as [H1 H2].
    cbn [app split]. rewrite Ascii.eqb_sym, H1, IH by exact H2. reflexivity.
Qed.

Lemma join_cons2 (sep p q : list ascii) (ps : list (list ascii)) :
  join sep (p :: q :: ps) = p ++ sep ++ join sep (q :: ps).
Proof. reflexivity. Qed.

Lemma split_join (sep : ascii) (parts : list (list ascii)) :
  parts <> [] ->
  Forall (fun p => includes sep p = false) parts ->
  split sep (join [sep] parts) = parts.
Proof.
  intros Hne H. induction H as [ | p ps Hp Hps IH]; [congruence | ].
  destruct ps as [ | q ps].
  - cbn [join]. apply split_no_sep. exact Hp.
  - rewrite join_cons2. cbn [app]. rewrite split_app by exact Hp.
    rewrite IH by discriminate. reflexivity.
Qed.

Lemma join_app (sep : list ascii) (xs ys : list (list ascii)) :
  xs <> [] -> ys <> [] ->
  join sep (xs ++ ys) = join sep xs ++ sep ++ join sep ys.
Proof.
  intros Hx Hy. induction xs as [ | x xs IH]; [congruence | ].
  destruct xs as [ | x' xs].
  - cbn [app]. destruct ys; [congruence | ]. reflexivity.
  - cbn [app] in *. rewrite !join_cons2, IH by discriminate.
    rewrite <- !app_assoc. reflexivity.
Qed.


(** ** Numbers as text *)

Lemma uint_chars_digits (d : Decimal.uint) :
  Forall (fun c => is_digit c = true) (uint_chars d).
Proof. induction d; cbn; constructor; auto. Qed.

Lemma uint_chars_nonnil (d : Decimal.uint) : d <> Decimal.Nil -> uint_chars d <> [].
Proof. destruct d; cbn; congruence. Qed.

Lemma parse_digits_acc (d : Decimal.uint) (p : positive) :
  parse_digits 10 (Some (Zpos p)) (uint_chars d) = Some (Zpos (Pos.of_uint_acc d p)).
Proof.
  revert p. induction d; intros p; cbn [uint_chars parse_digits Pos.of_uint_acc];
    [reflexivity | .. ];
    match goal with
    | |- context [digit_value 10 ?c] =>
        let v := eval vm_compute in (digit_value 10 c) in
        change (digit_value 10 c) with v; cbv iota
    end;
    match goal with
    | |- parse_digits 10 (Some ?z) _ = Some (Zpos (Pos.of_uint_acc _ ?q)) =>
        replace z with (Zpos q) by lia; apply IHd
    end.
Qed.

Lemma parse_digits_zero (d : Decimal.uint) :
  parse_digits 10 (Some 0%Z) (uint_chars d) = Some (Z.of_N (Pos.of_uint d)).
Proof.
  induction d; cbn [uint_chars parse_digits Pos.of_uint];
    [reflexivity | .. ];
    match goal with
    | |- context [digit_value 10 ?c] =>
        let v := eval vm_compute in (digit_value 10 c) in
        change (digit_value 10 c) with v; cbv iota
    end; [exact IHd | .. ]; cbn [Z.mul Z.add]; rewrite parse_digits_acc; reflexivity.
Qed.

Lemma parse_digits_uint (d : Decimal.uint) :
  d <> Decimal.Nil ->
  parse_digits 10 None (uint_chars d) = Some (Z.of_N (Pos.of_uint d)).
Proof.
  destruct d; intros H; [congruence | .. ]; cbn [uint_chars parse_digits Pos.of_uint];
    match goal with
    | |- context [digit_value 10 ?c] =>
        let v := eval vm_compute in (digit_value 10 c) in
        change (digit_value 10 c) with v; cbv iota
    end; [apply parse_digits_zero | .. ]; rewrite parse_digits_acc; reflexivity.
Qed.

Lemma parse_digits_pos (p : positive) :
  parse_digits 10 None (uint_chars (Pos.to_uint p)) = Some (Zpos p).
Proof.
  rewrite parse_digits_uint by apply DecimalPos.Unsigned.to_uint_nonnil.
  rewrite DecimalPos.Unsigned.of_to. reflexivity.
Qed.

Lemma String_of_number_chars (n : Z) :
  Forall (fun c => number_char c = true) (String_of_number n).
Proof.
  assert (H : forall d, Forall (fun c => number_char c = true) (uint_chars d)).
  { intros d. eapply Forall_impl; [ | apply uint_chars_digits].
    intros c Hc. unfold number_char. cbn beta in Hc. rewrite Hc. reflexivity. }
  destruct n; cbn; [repeat constructor | apply H | constructor; [reflexivity | apply H]].
Qed.

Lemma String_of_number_nonempty (n : Z) : String_of_number n <> [].
Proof.
  destruct n; cbn; try discriminate.
  apply uint_chars_nonnil, DecimalPos.Unsigned.to_uint_nonnil.
Qed.

(** A class of characters excludes a character outside it. *)
Lemma class_excludes (P : ascii -> bool) (x : ascii) (s : list ascii) :
  Forall (fun c => P c = true) s -> P x = false -> includes x s = false.
Proof.
  intros H Hx. apply includes_false_In. intros Hin.
  rewrite Forall_forall in H. specialize (H x Hin). cbn beta in H. congruence.
Qed.

Lemma class_head (P : ascii -> bool) (s : list ascii) (c : ascii) (r : list ascii) :
  Forall (fun c => P c = true) s -> s = c :: r -> P c = true.
Proof. intros H ->. inversion H; assumption. Qed.

Lemma class_last (P : ascii -> bool) (s : list ascii) (d : ascii) :
  Forall (fun c => P c = true) s -> s <> [] -> P (last s d) = true.
Proof.
  intros H Hne. destruct (exists_last Hne) as [u [x ->]]. rewrite last_last.
  apply Forall_app in H as [_ H]. inversion H; assumption.
Qed.

Lemma class_trimmed (P : ascii -> bool) (s : list ascii) :
  Forall (fun c => P c = true) s ->
  (forall c, P c = true -> is_space c = false) ->
  trimmed s = true.
Proof.
  intros H Hs. destruct s as [ | c r] eqn:E; [reflexivity | ].
  unfold trimmed. rewrite (Hs c) by (inversion H; assumption).
  rewrite (Hs (last (c :: r) c)) by (apply class_last; [exact H | discriminate]).
  reflexivity.
Qed.

Lemma number_char_not_space (c : ascii) : number_char c = true -> is_space c = false.
Proof.
  unfold number_char, is_digit, is_space. intros H.
  apply orb_true_iff in H as [H | H].
  - apply andb_true_iff in H as [H1 H2]. apply Nat.leb_le in H1, H2.
    destruct (nat_of_ascii c =? 32)%nat eqn:E1; [apply Nat.eqb_eq in E1; lia | ].
    destruct (nat_of_ascii c =? 160)%nat eqn:E2; [apply Nat.eqb_eq in E2; lia | ].
    destruct (nat_of_ascii c <=? 13)%nat eqn:E3; [apply Nat.leb_le in E3; lia | ].
    rewrite andb_false_r. reflexivity.
  - apply Ascii.eqb_eq in H. subst c. reflexivity.
Qed.

Lemma String_of_number_trimmed (n : Z) : trimmed (String_of_number n) = true.
Proof.
  apply (class_trimmed number_char); [apply String_of_number_chars | ].
  apply number_char_not_space.
Qed.

Lemma skip_digits_all (s : list ascii) :
  Forall (fun c => is_digit c = true) s -> skip_digits s = [].
Proof. induction 1 as [ | c s Hc _ IH]; [reflexivity | ]. cbn. rewrite Hc. exact IH. Qed.

Lemma is_number_literal_digits (s : list ascii) :
  s <> [] -> Forall (fun c => is_digit c = true) s ->
  is_number_literal s = true /\ is_number_literal ("-" :: s) = true.
Proof.
  intros Hne H. destruct s as [ | c r]; [congruence | ].
  assert (Hc : is_digit c = true) by (inversion H; assumption).
  assert (Hm : Ascii.eqb c "-" = false).
  { destruct (Ascii.eqb c "-") eqn:E; [ | reflexivity].
    apply Ascii.eqb_eq in E. subst c. discriminate. }
  assert (E : is_number_literal ("-" :: c :: r) = true).
  { unfold is_number_literal. cbn [Ascii.eqb]. rewrite Hc, (skip_digits_all _ H). reflexivity. }
  split; [ | exact E].
  unfold is_number_literal.
  destruct c as [[ | ] [ | ] [ | ] [ | ] [ | ] [ | ] [ | ] [ | ]]; try discriminate;
    rewrite (skip_digits_all _ H); reflexivity.
Qed.

Lemma is_number_literal_number (n : Z) : is_number_literal (String_of_number n) = true.
Proof.
  destruct n; cbn [String_of_number]; [reflexivity | | ];
    destruct (is_number_literal_digits (uint_chars (Pos.to_uint p))
                (uint_chars_nonnil _ (DecimalPos.Unsigned.to_uint_nonnil p))
                (uint_chars_digits _)) as [E1 E2]; assumption.
Qed.

Lemma parseInt_digits (s : list ascii) :
  Forall (fun c => is_digit c = true) s ->
  parseInt s = parse_digits 10 None s
  /\ parseInt ("-" :: s) = option_map (Z.mul (-1)) (parse_digits 10 None s).
Proof.
  intros H.
  assert (Hpre : forall t, Forall (fun c => is_digit c = true) t ->
            (let (radix, s) :=
               match t with
               | "0" :: "x" :: rest => (16%Z, rest)
               | "0" :: "X" :: rest => (16%Z, rest)
               | _ => (10%Z, t)
               end in parse_digits radix None s) = parse_digits 10 None t).
  { intros t Ht. destruct t as [ | a [ | b t]]; [reflexivity | | ].
    { destruct a as [[ | ] [ | ] [ | ] [ | ] [ | ] [ | ] [ | ] [ | ]]; reflexivity. }
    assert (Hb : is_digit b = true) by (inversion Ht as [ | ? ? _ Ht']; inversion Ht'; assumption).
    destruct a as [[ | ] [ | ] [ | ] [ | ] [ | ] [ | ] [ | ] [ | ]]; try reflexivity;
      destruct b as [[ | ] [ | ] [ | ] [ | ] [ | ] [ | ] [ | ] [ | ]]; try reflexivity;
      discriminate. }
  assert (Hts : trimStart s = s).
  { destruct s as [ | c r]; [reflexivity | ]. apply trimStart_head.
    apply number_char_not_space. unfold number_char.
    inversion H as [ | ? ? Hc _]. rewrite Hc. reflexivity. }
  split.
  - unfold parseInt. rewrite Hts.
    destruct s as [ | c r]; [reflexivity | ].
    assert (Hc : is_digit c = true) by (inversion H; assumption).
    assert (Hsign : (match c :: r with
                     | "-" :: rest => ((-1)%Z, rest)
                     | "+" :: rest => (1%Z, rest)
                     | _ => (1%Z, c :: r)
                     end) = (1%Z, c :: r)).
    { destruct c as [[ | ] [ | ] [ | ] [ | ] [ | ] [ | ] [ | ] [ | ]]; try reflexivity;
        discriminate. }
    rewrite Hsign. specialize (Hpre (c :: r) H). cbv zeta in Hpre.
    destruct (match c :: r with
              | "0" :: "x" :: rest => (16%Z, rest)
              | "0" :: "X" :: rest => (16%Z, rest)
              | _ => (10%Z, c :: r)
              end) as [radix s'].
    rewrite Hpre. destruct (parse_digits 10 None (c :: r)) as [z | ]; cbn; [ | reflexivity].
    f_equal. destruct z; reflexivity.
  - unfold parseInt. rewrite trimStart_head by reflexivity.
    specialize (Hpre s H). cbv zeta in Hpre.
    destruct (match s with
              | "0" :: "x" :: rest => (16%Z, rest)
              | "0" :: "X" :: rest => (16%Z, rest)
              | _ => (10%Z, s)
              end) as [radix s'].
    rewrite Hpre. reflexivity.
Qed.

Lemma parseInt_number (n : Z) : parseInt (String_of_number n) = Some n.
Proof.
  destruct n; cbn [String_of_number]; [reflexivity | | ].
  - destruct (parseInt_digits _ (uint_chars_digits (Pos.to_uint p))) as [E _].
    rewrite E. apply parse_digits_pos.
  - destruct (parseInt_digits _ (uint_chars_digits (Pos.to_uint p))) as [_ E].
    rewrite E, parse_digits_pos. reflexivity.
Qed.

(** ** JSON string literals *)

Lemma json_chars_escape (c : ascii) (rest : list ascii) :
  json_chars (json_escape c ++ rest) = bind (json_chars rest) (fun t => Ok (c :: t)).
Proof.
  destruct c as [[ | ] [ | ] [ | ] [ | ] [ | ] [ | ] [ | ] [ | ]]; reflexivity.
Qed.

Lemma json_chars_stringify (s : list ascii) :
  json_chars (flat_map json_escape s ++ [quote]) = Ok s.
Proof.
  induction s as [ | c s IH]; [reflexivity | ].
  cbn [flat_map]. rewrite <- app_assoc, json_chars_escape, IH. reflexivity.
Qed.

Lemma JSON_parse_stringify (s : list ascii) : JSON_parse (JSON_stringify s) = Ok (Str s).
Proof.
  unfold JSON_parse, JSON_stringify. rewrite Ascii.eqb_refl, json_chars_stringify.
  reflexivity.
Qed.

(** ** Reading scalars back *)

Lemma ascii_eqb_list_true (a b : list ascii) : ascii_eqb_list a b = true <-> a = b.
Proof.
  unfold ascii_eqb_list. destruct (list_eq_dec ascii_dec a b); split; congruence.
Qed.

Lemma ascii_eqb_list_false (a b : list ascii) : ascii_eqb_list a b = false <-> a <> b.
Proof.
  unfold ascii_eqb_list. destruct (list_eq_dec ascii_dec a b); split; congruence.
Qed.

Lemma ascii_eqb_list_refl (a : list ascii) : ascii_eqb_list a a = true.
Proof. apply ascii_eqb_list_true. reflexivity. Qed.

Lemma startsWith_false (c : ascii) (s : list ascii) :
  includes c s = false -> startsWith c s = false.
Proof.
  destruct s as [ | x s]; [reflexivity | ]. rewrite includes_cons. intros H.
  apply orb_false_iff in H as [H _]. cbn. rewrite Ascii.eqb_sym. exact H.
Qed.

Lemma parsePrimitive_string (s : list ascii) :
  reads_as_string s = true -> includes quote s = false ->
  _parsePrimitive s = Ok (Str s).
Proof.
  unfold reads_as_string, is_keyword. intros H Hq.
  apply andb_true_iff in H as [H Hn]. apply andb_true_iff in H as [H Hk].
  apply andb_true_iff in H as [_ Ht].
  apply negb_true_iff in Hn, Hk. apply orb_false_iff in Hk as [Hk Hk3].
  apply orb_false_iff in Hk as [Hk1 Hk2].
  unfold _parsePrimitive. rewrite (trim_trimmed s Ht).
  rewrite (startsWith_false _ _ Hq). cbn [andb].
  rewrite Hk1, Hk2, Hk3, Hn. reflexivity.
Qed.

Lemma parsePrimitive_quoted (s : list ascii) :
  _parsePrimitive (JSON_stringify s) = Ok (Str s).
Proof.
  unfold _parsePrimitive.
  assert (Ht : trim (JSON_stringify s) = JSON_stringify s).
  { unfold JSON_stringify, trim. rewrite trimStart_head by reflexivity.
    change (quote :: flat_map json_escape s ++ [quote])
      with ((quote :: flat_map json_escape s) ++ [quote]).
    apply trimEnd_last. reflexivity. }
  rewrite Ht.
  assert (Hs : startsWith quote (JSON_stringify s) = true) by reflexivity.
  assert (He : endsWith quote (JSON_stringify s) = true).
  { unfold endsWith, JSON_stringify.
    change (quote :: flat_map json_escape s ++ [quote])
      with ((quote :: flat_map json_escape s) ++ [quote]).
    rewrite rev_app_distr. reflexivity. }
  rewrite Hs, He. cbn [andb]. apply JSON_parse_stringify.
Qed.

Lemma number_not_keyword (n : Z) : is_keyword (String_of_number n) = false.
Proof.
  unfold is_keyword.
  assert (H : forall k, number_char (hd " " k) = false -> k <> [] ->
                        ascii_eqb_list (String_of_number n) k = false).
  { intros k Hk Hne. apply ascii_eqb_list_false. intros E.
    pose proof (String_of_number_chars n) as Hc. rewrite E in Hc.
    destruct k as [ | c k]; [congruence | ]. inversion Hc as [ | ? ? Hc' _].
    cbn in Hk. congruence. }
  rewrite !H by (try reflexivity; discriminate). reflexivity.
Qed.

Lemma parsePrimitive_number (n : Z) : _parsePrimitive (String_of_number n) = Ok (Number n).
Proof.
  unfold _parsePrimitive. rewrite (trim_trimmed _ (String_of_number_trimmed n)).
  rewrite (startsWith_false quote) by
    (apply (class_excludes number_char); [apply String_of_number_chars | reflexivity]).
  cbn [andb]. pose proof (number_not_keyword n) as Hk. unfold is_keyword in Hk.
  apply orb_false_iff in Hk as [Hk Hk3]. apply orb_false_iff in Hk as [Hk1 Hk2].
  rewrite Hk1, Hk2, Hk3, is_number_literal_number.
  rewrite (class_excludes number_char ".") by
    (try apply String_of_number_chars; reflexivity).
  rewrite parseInt_number. reflexivity.
Qed.

(** The text of an inline scalar that is not blank reads back as the
    scalar. *)
Lemma parsePrimitive_inline (v : Node) :
  inline_scalar false v = true ->
  _parsePrimitive (_serializePrimitive (Some v)) = Ok v.
Proof.
  destruct v as [ | [ | ] | n | s | | ]; try discriminate; try reflexivity.
  - intros _. apply parsePrimitive_number.
  - cbn [inline_scalar _serializePrimitive]. unfold unquoted.
    destruct (includes "," s || includes newline s || includes quote s) eqn:E; cbn [negb].
    + intros _. apply parsePrimitive_quoted.
    + rewrite orb_false_r. intros H. apply parsePrimitive_string; [exact H | ].
      apply orb_false_iff in E as [_ E]. exact E.
Qed.

(** ** Rows of comma-separated cells *)

Lemma json_escape_verbatim (c : ascii) :
  verbatim c = true -> Ascii.eqb c quote = false -> json_escape c = [c].
Proof.
  destruct c as [[ | ] [ | ] [ | ] [ | ] [ | ] [ | ] [ | ] [ | ]];
    intros H1 H2; try discriminate H1; try discriminate H2; reflexivity.
Qed.

Lemma flat_map_escape_verbatim (s : list ascii) :
  forallb verbatim s = true -> includes quote s = false ->
  flat_map json_escape s = s.
Proof.
  induction s as [ | c s IH]; [reflexivity | ]. cbn [forallb flat_map].
  rewrite includes_cons. intros H1 H2.
  apply andb_true_iff in H1 as [Hc Hs]. apply orb_false_iff in H2 as [Hq Hs'].
  rewrite json_escape_verbatim by (rewrite ?(Ascii.eqb_sym c); assumption).
  rewrite IH by assumption. reflexivity.
Qed.

Lemma csv_loop_run (s rest : list ascii) (values : list (list ascii))
      (current : list ascii) (inQuotes : bool) :
  includes quote s = false ->
  inQuotes = true \/ includes "," s = false ->
  csv_loop (s ++ rest) values current inQuotes
  = csv_loop rest values (current ++ s) inQuotes.
Proof.
  revert current. induction s as [ | c s IH]; intros current Hq Hc.
  - rewrite app_nil_r. reflexivity.
  - rewrite includes_cons in Hq. apply orb_false_iff in Hq as [Hq1 Hq2].
    cbn [app csv_loop]. rewrite (Ascii.eqb_sym c), Hq1.
    assert (E : Ascii.eqb c "," && negb inQuotes = false).
    { destruct Hc as [-> | Hc]; [apply andb_false_r | ].
      rewrite includes_cons in Hc. apply orb_false_iff in Hc as [Hc _].
      rewrite (Ascii.eqb_sym c), Hc. reflexivity. }
    rewrite E, IH.
    + rewrite <- app_assoc. reflexivity.
    + exact Hq2.
    + destruct Hc as [Hc | Hc]; [left; exact Hc | right].
      rewrite includes_cons in Hc. apply orb_false_iff in Hc as [_ Hc]. exact Hc.
Qed.

Lemma csv_loop_cell (v : Node) (rest : list ascii) (values : list (list ascii))
      (current : list ascii) :
  cell_scalar v = true ->
  csv_loop (_serializePrimitive (Some v) ++ rest) values current false
  = csv_loop rest values (current ++ cell_text v) false.
Proof.
  intros Hv.
  assert (Hnum : forall n, csv_loop (String_of_number n ++ rest) values current false
                           = csv_loop rest values (current ++ String_of_number n) false).
  { intros n. apply csv_loop_run; [ | right];
      (apply (class_excludes number_char); [apply String_of_number_chars | reflexivity]). }
  destruct v as [ | [ | ] | n | s | | ]; try discriminate;
    try (apply csv_loop_run; [reflexivity | right; reflexivity]).
  - apply Hnum.
  - cbn [cell_scalar] in Hv. apply andb_true_iff in Hv as [Hv Hc].
    apply andb_true_iff in Hv as [Hv Hn]. apply andb_true_iff in Hv as [_ Hq].
    apply negb_true_iff in Hq, Hn. cbn [_serializePrimitive cell_text].
    rewrite Hq, Hn, !orb_false_r.
    destruct (includes "," s) eqn:E.
    + cbn [negb orb] in Hc. unfold JSON_stringify.
      rewrite (flat_map_escape_verbatim s Hc Hq).
      cbn [app csv_loop]. rewrite Ascii.eqb_refl. cbn [negb].
      rewrite <- app_assoc. rewrite csv_loop_run by (auto).
      cbn [app csv_loop]. rewrite Ascii.eqb_refl. reflexivity.
    + apply csv_loop_run; [exact Hq | right; exact E].
Qed.

Lemma cell_text_tight (v : Node) : cell_scalar v = true -> tight (cell_text v) = true.
Proof.
  destruct v as [ | [ | ] | n | s | | ]; try discriminate; try reflexivity.
  - intros _. unfold tight. cbn [cell_text _serializePrimitive].
    rewrite String_of_number_trimmed.
    destruct (String_of_number n) eqn:E; [ | reflexivity].
    exfalso. exact (String_of_number_nonempty n E).
  - cbn [cell_scalar cell_text]. unfold reads_as_string, tight. intros H.
    apply andb_true_iff in H as [H _]. apply andb_true_iff in H as [H _].
    apply andb_true_iff in H as [H _]. apply andb_true_iff in H as [H _].
    apply andb_true_iff in H as [H _]. exact H.
Qed.

Lemma tight_trim (s : list ascii) : tight s = true -> trim s = s /\ nonempty s = true.
Proof.
  unfold tight. intros H. apply andb_true_iff in H as [H1 H2].
  split; [apply trim_trimmed; exact H2 | exact H1].
Qed.

Lemma parsePrimitive_cell (v : Node) :
  cell_scalar v = true -> _parsePrimitive (cell_text v) = Ok v.
Proof.
  destruct v as [ | [ | ] | n | s | | ]; try discriminate; try reflexivity.
  - intros _. apply parsePrimitive_number.
  - cbn [cell_scalar cell_text]. intros H.
    apply andb_true_iff in H as [H _]. apply andb_true_iff in H as [H _].
    apply andb_true_iff in H as [Hr Hq]. apply negb_true_iff in Hq.
    apply parsePrimitive_string; assumption.
Qed.

Lemma csv_row_loop (vs : list Node) (v : Node) (values : list (list ascii)) :
  forallb cell_scalar (v :: vs) = true ->
  (let (vals, cur) :=
     csv_loop (join [","] (map (fun item => _serializePrimitive (Some item)) (v :: vs)))
              values [] false in
   if nonempty cur then vals ++ [trim cur] else vals)
  = values ++ map cell_text (v :: vs).
Proof.
  revert v values. induction vs as [ | v' vs IH]; intros v values H.
  - cbn [forallb] in H. rewrite andb_true_r in H.
    cbn [map join]. rewrite <- (app_nil_r (_serializePrimitive (Some v))).
    rewrite csv_loop_cell by exact H. cbn [app csv_loop].
    destruct (tight_trim _ (cell_text_tight v H)) as [E1 E2]. rewrite E1, E2. reflexivity.
  - cbn [forallb] in H. apply andb_true_iff in H as [Hv H].
    cbn [map]. rewrite join_cons2. rewrite csv_loop_cell by exact Hv.
    cbn [app csv_loop]. change (Ascii.eqb "," quote) with false.
    rewrite Ascii.eqb_refl. cbn [negb andb].
    specialize (IH v' (values ++ [trim (cell_text v)]) H). cbn [map] in IH.
    rewrite IH. destruct (tight_trim _ (cell_text_tight v Hv)) as [E1 _].
    rewrite E1, <- app_assoc. reflexivity.
Qed.

Lemma parseCSVRow_cells (vs : list Node) :
  vs <> [] -> forallb cell_scalar vs = true ->
  _parseCSVRow (join [","] (map (fun item => _serializePrimitive (Some item)) vs))
  = map cell_text vs.
Proof.
  intros Hne H. destruct vs as [ | v vs]; [congruence | ].
  unfold _parseCSVRow. pose proof (csv_row_loop vs v [] H) as E.
  destruct (csv_loop _ [] [] false) as [vals cur]. exact E.
Qed.

Lemma mapM_parsePrimitive_cells (vs : list Node) :
  forallb cell_scalar vs = true ->
  mapM _parsePrimitive (map cell_text vs) = Ok vs.
Proof.
  induction vs as [ | v vs IH]; [reflexivity | ]. cbn [forallb map mapM].
  intros H. apply andb_true_iff in H as [Hv H].
  rewrite parsePrimitive_cell by exact Hv. cbn [bind]. rewrite IH by exact H. reflexivity.
Qed.

(** The serialized cell has the shape of its text, possibly between
    quotes; in either case it is tight. *)
Lemma serializePrimitive_cell_tight (v : Node) :
  cell_scalar v = true -> tight (_serializePrimitive (Some v)) = true.
Proof.
  intros H. pose proof (cell_text_tight v H) as Ht.
  destruct v as [ | [ | ] | n | s | | ]; try discriminate; try exact Ht.
  cbn [_serializePrimitive cell_text] in *.
  destruct (includes "," s || includes newline s || includes quote s); [ | exact Ht].
  unfold tight, JSON_stringify. cbn [nonempty andb]. unfold trimmed.
  change (quote :: flat_map json_escape s ++ [quote])
    with ((quote :: flat_map json_escape s) ++ [quote]).
  rewrite last_last. reflexivity.
Qed.

Lemma tight_head (s : list ascii) :
  tight s = true -> exists c r, s = c :: r /\ is_space c = false.
Proof.
  destruct s as [ | c r]; [discriminate | ]. unfold tight, trimmed. cbn [nonempty andb].
  intros H. apply andb_true_iff in H as [H _]. apply negb_true_iff in H.
  exists c, r. auto.
Qed.

Lemma tight_last (s : list ascii) :
  tight s = true -> exists u c, s = u ++ [c] /\ is_space c = false.
Proof.
  destruct s as [ | c r] eqn:E; [discriminate | ]. unfold tight, trimmed. cbn [nonempty andb].
  intros H. apply andb_true_iff in H as [_ H]. apply negb_true_iff in H.
  destruct (exists_last (l := c :: r) ltac:(discriminate)) as [u [x Ex]].
  rewrite Ex in H. rewrite last_last in H. exists u, x. rewrite Ex. auto.
Qed.

Lemma tight_intro (c : ascii) (u : list ascii) (x : ascii) :
  is_space c = false -> is_space x = false -> tight (c :: u ++ [x]) = true.
Proof.
  intros Hc Hx. unfold tight, trimmed. cbn [nonempty andb]. rewrite Hc.
  change (c :: u ++ [x]) with ((c :: u) ++ [x]). rewrite last_last, Hx. reflexivity.
Qed.

Lemma tight_single (c : ascii) : is_space c = false -> tight [c] = true.
Proof. intros Hc. unfold tight, trimmed. cbn. rewrite Hc. reflexivity. Qed.

Lemma tight_app (a m b : list ascii) : tight a = true -> tight b = true -> tight (a ++ m ++ b) = true.
Proof.
  intros Ha Hb. destruct (tight_head a Ha) as [c [r [-> Hc]]].
  destruct (tight_last b Hb) as [u [x [-> Hx]]].
  replace ((c :: r) ++ m ++ u ++ [x]) with (c :: (r ++ m ++ u) ++ [x])
    by (cbn; rewrite <- !app_assoc; reflexivity).
  apply tight_intro; assumption.
Qed.

Lemma tight_join (sep : list ascii) (parts : list (list ascii)) :
  parts <> [] -> Forall (fun p => tight p = true) parts -> tight (join sep parts) = true.
Proof.
  intros Hne H. induction H as [ | p ps Hp Hps IH]; [congruence | ].
  destruct ps as [ | q ps]; [exact Hp | ].
  rewrite join_cons2. apply tight_app; [exact Hp | apply IH; discriminate].
Qed.

Lemma row_tight (vs : list Node) :
  vs <> [] -> forallb cell_scalar vs = true ->
  tight (join [","] (map (fun item => _serializePrimitive (Some item)) vs)) = true.
Proof.
  intros Hne H. apply tight_join.
  - destruct vs; [congruence | discriminate].
  - apply Forall_map. rewrite forallb_forall in H. apply Forall_forall.
    intros v Hv. apply serializePrimitive_cell_tight, H, Hv.
Qed.

(** ** The parser's loop *)

Lemma parse_loop_unfold (fuel : nat) (line : list ascii) (rest : list (list ascii))
      (baseIndent : nat) (obj : list (list ascii * Node)) :
  parse_loop (S fuel) (line :: rest) baseIndent obj
  = if negb (nonempty (trim line)) then parse_loop fuel rest baseIndent obj
    else if (indent_of line <? baseIndent)%nat then Ok (obj, line :: rest)
    else if (baseIndent <? indent_of line)%nat then parse_loop fuel rest baseIndent obj
    else if includes ":" (trim line) then
      entry_step fuel rest baseIndent obj (indent_of line)
        (trim (substring (trim line) 0 (indexOf ":" (trim line))))
        (trim (substring_from (trim line) (indexOf ":" (trim line) + 1)))
    else parse_loop fuel rest baseIndent obj.
Proof. reflexivity. Qed.

Lemma parse_loop_nil (fuel : nat) (baseIndent : nat) (obj : list (list ascii * Node)) :
  parse_loop fuel [] baseIndent obj = Ok (obj, []).
Proof. destruct fuel; reflexivity. Qed.

(** *** Fuel *)

Lemma parse_rows_length (lines : list (list ascii)) (rows : list Node) (len : option Z)
      (fields : list (list ascii)) (rowIndent : nat)
      (rows' : list Node) (rest : list (list ascii)) :
  parse_rows lines rows len fields rowIndent = Ok (rows', rest) ->
  length rest <= length lines.
Proof.
  revert rows. induction lines as [ | l lines IH]; intros rows H.
  - cbn in H. injection H as _ <-. cbn. lia.
  - cbn [parse_rows] in H. destruct (fewer_than rows len).
    + destruct ((rowIndent <=? indent_of l)%nat && nonempty (trim l)).
      * destruct (fill_row fields (_parseCSVRow (trim l)) []) as [o | f]; [ | discriminate].
        cbn [bind] in H. apply IH in H. cbn. lia.
      * apply IH in H. cbn. lia.
    + injection H as _ <-. lia.
Qed.

Lemma parse_loop_length (fuel : nat) (lines : list (list ascii)) (baseIndent : nat)
      (obj obj' : list (list ascii * Node)) (rest : list (list ascii)) :
  parse_loop fuel lines baseIndent obj = Ok (obj', rest) ->
  length rest <= length lines.
Proof.
  revert lines baseIndent obj obj' rest.
  induction fuel as [ | fuel IH]; intros lines b obj obj' rest H.
  - destruct lines; [ | discriminate]. cbn in H. injection H as _ <-. cbn. lia.
  - destruct lines as [ | line lines]; [cbn in H; injection H as _ <-; cbn; lia | ].
    rewrite parse_loop_unfold in H.
    assert (Hrec : forall o, parse_loop fuel lines b o = Ok (obj', rest) ->
                             length rest <= length (line :: lines)).
    { intros o Ho. apply IH in Ho. cbn. lia. }
    destruct (negb (nonempty (trim line))); [eapply Hrec; eassumption | ].
    destruct (indent_of line <? b)%nat; [injection H as _ <-; lia | ].
    destruct (b <? indent_of line)%nat; [eapply Hrec; eassumption | ].
    destruct (includes ":" (trim line)); [ | eapply Hrec; eassumption].
    unfold entry_step in H.
    set (key := trim (substring (trim line) 0 (indexOf ":" (trim line)))) in *.
    set (vp := trim (substring_from (trim line) (indexOf ":" (trim line) + 1))) in *.
    assert (Hreg : (if nonempty vp
                    then bind (_parsePrimitive vp)
                              (fun v => parse_loop fuel lines b (obj_set key v obj))
                    else parse_loop fuel lines b obj) = Ok (obj', rest) ->
                   length rest <= length (line :: lines)).
    { destruct (nonempty vp); [ | apply Hrec].
      destruct (_parsePrimitive vp); [cbn [bind]; apply Hrec | discriminate]. }
    destruct (includes "[" key && includes "]" key).
    + destruct (_parseArrayDeclaration key) as [arrayKey meta].
      destruct (includes "{" key).
      * destruct (parse_rows lines [] (meta_length meta) _ (indent_of line + 2))
          as [[rows rest'] | f] eqn:E; [ | discriminate].
        cbn [bind] in H. apply parse_rows_length in E. apply IH in H. cbn. lia.
      * destruct (nonempty vp); [ | eapply Hrec; eassumption].
        destruct (mapM _parsePrimitive (_parseCSVRow vp)); [ | discriminate].
        cbn [bind] in H. eapply Hrec; eassumption.
    + destruct (negb (nonempty vp)); [ | apply Hreg; exact H].
      destruct lines as [ | next lines']; [apply Hreg; exact H | ].
      destruct (indent_of line <? indent_of next)%nat; [ | apply Hreg; exact H].
      destruct (parse_loop fuel (next :: lines') (indent_of line + 2) [])
        as [[nested rest'] | f] eqn:E; [ | discriminate].
      cbn [bind] in H. apply IH in E. apply IH in H. cbn in *. lia.
Qed.


Lemma fueled_bind {A B : Type} (r : Result A) (k : A -> Result B) :
  fueled r -> (forall a, fueled (k a)) -> fueled (bind r k).
Proof.
  intros Hr Hk. destruct r as [a | f]; cbn; [apply Hk | ].
  intros E. apply Hr. injection E as ->. reflexivity.
Qed.

Lemma json_chars_fueled (s : list ascii) : fueled (json_chars s).
Proof.
  assert (H : forall n s, length s <= n -> fueled (json_chars s)).
  { clear s. induction n as [ | n IH]; intros s Hs.
    - destruct s; [discriminate | cbn in Hs; lia].
    - destruct s as [ | c rest]; [discriminate | ]. cbn [length] in Hs.
      cbn [json_chars].
      destruct (Ascii.eqb c quote); [destruct rest; discriminate | ].
      destruct (Ascii.eqb c backslash).
      + destruct rest as [ | e rest']; [discriminate | ]. cbn [length] in Hs.
        assert (Hs' : forall x, fueled (bind (json_chars rest') (fun t => Ok (x :: t)))).
        { intros x. apply fueled_bind; [apply IH; lia | discriminate]. }
        repeat match goal with
               | |- fueled (if ?b then _ else _) => destruct b; [apply Hs' | ]
               end.
        destruct (Ascii.eqb e "u"); [ | discriminate].
        destruct rest' as [ | h1 [ | h2 [ | h3 [ | h4 rest'']]]]; try discriminate.
        destruct (digit_value 16 h1); [ | discriminate].
        destruct (digit_value 16 h2); [ | discriminate].
        destruct (digit_value 16 h3); [ | discriminate].
        destruct (digit_value 16 h4); [ | discriminate].
        destruct ((z =? 0) && (z0 =? 0))%Z; [ | discriminate].
        apply fueled_bind; [apply IH; cbn [length] in Hs; lia | discriminate].
      + destruct (nat_of_ascii c <? 32)%nat; [discriminate | ].
        apply fueled_bind; [apply IH; lia | discriminate]. }
  apply (H (length s)). lia.
Qed.

Lemma parsePrimitive_fueled (s : list ascii) : fueled (_parsePrimitive s).
Proof.
  unfold _parsePrimitive.
  destruct (startsWith quote (trim s) && endsWith quote (trim s)).
  - unfold JSON_parse. destruct (trim s) as [ | c r]; [discriminate | ].
    destruct (Ascii.eqb c quote); [ | discriminate].
    apply fueled_bind; [apply json_chars_fueled | discriminate].
  - repeat match goal with
           | |- fueled (if ?b then _ else _) => destruct b; try discriminate
           end.
    destruct (parseInt (trim s)); discriminate.
Qed.

Lemma mapM_fueled (l : list (list ascii)) : fueled (mapM _parsePrimitive l).
Proof.
  induction l as [ | x l IH]; [discriminate | ]. cbn [mapM].
  apply fueled_bind; [apply parsePrimitive_fueled | ]. intros a.
  apply fueled_bind; [exact IH | discriminate].
Qed.

Lemma fill_row_fueled (fields values : list (list ascii)) (o : list (list ascii * Node)) :
  fueled (fill_row fields values o).
Proof.
  revert values o. induction fields as [ | f fields IH]; intros values o; [discriminate | ].
  destruct values as [ | v values]; [discriminate | ]. cbn [fill_row].
  apply fueled_bind; [apply parsePrimitive_fueled | intros a; apply IH].
Qed.

Lemma parse_rows_fueled (lines : list (list ascii)) (rows : list Node) (len : option Z)
      (fields : list (list ascii)) (rowIndent : nat) :
  fueled (parse_rows lines rows len fields rowIndent).
Proof.
  revert rows. induction lines as [ | l lines IH]; intros rows; [discriminate | ].
  cbn [parse_rows]. destruct (fewer_than rows len); [ | discriminate].
  destruct ((rowIndent <=? indent_of l)%nat && nonempty (trim l)); [ | apply IH].
  apply fueled_bind; [apply fill_row_fueled | intros a; apply IH].
Qed.

(** With as many units of fuel as there are lines the loop never runs
    out. *)
Lemma parse_loop_total (fuel : nat) (lines : list (list ascii)) (baseIndent : nat)
      (obj : list (list ascii * Node)) :
  length lines <= fuel ->
  fueled (parse_loop fuel lines baseIndent obj).
Proof.
  revert lines baseIndent obj.
  induction fuel as [ | fuel IH]; intros lines b obj H.
  - destruct lines; [ | cbn in H; lia]. discriminate.
  - destruct lines as [ | line lines]; [discriminate | ]. cbn [length] in H.
    rewrite parse_loop_unfold.
    assert (Hrec : forall o, fueled (parse_loop fuel lines b o))
      by (intros o; apply IH; lia).
    destruct (negb (nonempty (trim line))); [apply Hrec | ].
    destruct (indent_of line <? b)%nat; [discriminate | ].
    destruct (b <? indent_of line)%nat; [apply Hrec | ].
    destruct (includes ":" (trim line)); [ | apply Hrec].
    unfold entry_step.
    set (key := trim (substring (trim line) 0 (indexOf ":" (trim line)))).
    set (vp := trim (substring_from (trim line) (indexOf ":" (trim line) + 1))).
    assert (Hreg : fueled (if nonempty vp
                           then bind (_parsePrimitive vp)
                                     (fun v => parse_loop fuel lines b (obj_set key v obj))
                           else parse_loop fuel lines b obj)).
    { destruct (nonempty vp); [ | apply Hrec].
      apply fueled_bind; [apply parsePrimitive_fueled | intros a; apply Hrec]. }
    destruct (includes "[" key && includes "]" key).
    + destruct (_parseArrayDeclaration key) as [arrayKey meta].
      destruct (includes "{" key).
      * destruct (parse_rows lines [] (meta_length meta) _ (indent_of line + 2))
          as [[rows rest'] | f] eqn:E.
        -- cbn [bind]. apply parse_rows_length in E. apply IH. lia.
        -- cbn [bind]. intros Hf. injection Hf as ->.
           exact (parse_rows_fueled _ _ _ _ _ E).
      * destruct (nonempty vp); [ | apply Hrec].
        apply fueled_bind; [apply mapM_fueled | intros a; apply Hrec].
    + destruct (negb (nonempty vp)); [ | exact Hreg].
      destruct lines as [ | next lines']; [exact Hreg | ].
      destruct (indent_of line <? indent_of next)%nat; [ | exact Hreg].
      destruct (parse_loop fuel (next :: lines') (indent_of line + 2) [])
        as [[nested rest'] | f] eqn:E.
      * cbn [bind]. apply parse_loop_length in E. apply IH. cbn [length] in *. lia.
      * cbn [bind]. intros Hf. injection Hf as ->.
        exact (IH (next :: lines') (indent_of line + 2) [] ltac:(lia) E).
Qed.

(** ** Lines of the form [key: value] *)

Lemma trimmed_head (k : list ascii) (c : ascii) (t : list ascii) :
  trimmed k = true -> is_space c = false ->
  exists x r, k ++ c :: t = x :: r /\ is_space x = false.
Proof.
  intros Hk Hc. destruct k as [ | x r].
  - exists c, t. auto.
  - exists x, (r ++ c :: t). split; [reflexivity | ].
    unfold trimmed in Hk. apply andb_true_iff in Hk as [Hk _].
    apply negb_true_iff in Hk. exact Hk.
Qed.

Lemma entry_line_trim (n : nat) (k tail : list ascii) :
  trimmed k = true ->
  trim (spaces n ++ k ++ ":" :: tail) = k ++ ":" :: trimEnd tail.
Proof.
  intros Hk. rewrite trim_spaces_l. unfold trim.
  destruct (trimmed_head k ":" tail Hk eq_refl) as [x [r [E Hx]]].
  rewrite E, trimStart_head by exact Hx. rewrite <- E.
  apply trimEnd_app_nonspace. reflexivity.
Qed.

Lemma entry_line_indent (n : nat) (k tail : list ascii) :
  trimmed k = true -> indent_of (spaces n ++ k ++ ":" :: tail) = n.
Proof.
  intros Hk. destruct (trimmed_head k ":" tail Hk eq_refl) as [x [r [E Hx]]].
  rewrite E. apply indent_of_spaces. exact Hx.
Qed.

Lemma parse_loop_entry (fuel n : nat) (k tail : list ascii) (rest : list (list ascii))
      (obj : list (list ascii * Node)) :
  trimmed k = true -> includes ":" k = false ->
  parse_loop (S fuel) ((spaces n ++ k ++ ":" :: tail) :: rest) n obj
  = entry_step fuel rest n obj n k (trim tail).
Proof.
  intros Hk Hc. rewrite parse_loop_unfold.
  rewrite entry_line_trim, entry_line_indent by exact Hk.
  assert (Hne : nonempty (k ++ ":" :: trimEnd tail) = true) by (destruct k; reflexivity).
  rewrite Hne. cbn [negb]. rewrite Nat.ltb_irrefl.
  rewrite includes_app, includes_cons, Ascii.eqb_refl. cbn [orb]. rewrite orb_true_r.
  rewrite indexOf_app by exact Hc.
  rewrite substring_prefix, (trim_trimmed k Hk).
  replace (Z.of_nat (length k) + 1)%Z with (Z.of_nat (length (k ++ [":"])))
    by (rewrite length_app; cbn; lia).
  change (k ++ ":" :: trimEnd tail) with (k ++ [":"] ++ trimEnd tail).
  rewrite app_assoc, substring_from_suffix, trim_trimEnd. reflexivity.
Qed.

(** A line at a lower indentation ends the loop. *)
Lemma parse_loop_break (fuel n b : nat) (k tail : list ascii) (rest : list (list ascii))
      (obj : list (list ascii * Node)) :
  trimmed k = true -> n < b ->
  parse_loop (S fuel) ((spaces n ++ k ++ ":" :: tail) :: rest) b obj
  = Ok (obj, (spaces n ++ k ++ ":" :: tail) :: rest).
Proof.
  intros Hk Hn. rewrite parse_loop_unfold.
  rewrite entry_line_trim, entry_line_indent by exact Hk.
  assert (Hne : nonempty (k ++ ":" :: trimEnd tail) = true) by (destruct k; reflexivity).
  rewrite Hne. cbn [negb].
  replace (n <? b)%nat with true by (symmetry; apply Nat.ltb_lt; exact Hn). reflexivity.
Qed.

(** *** The kinds of entry *)

Lemma entry_scalar (fuel : nat) (rest : list (list ascii)) (b n : nat)
      (obj : list (list ascii * Node)) (k vp : list ascii) :
  includes "[" k && includes "]" k = false -> nonempty vp = true ->
  entry_step fuel rest b obj n k vp
  = bind (_parsePrimitive vp) (fun v => parse_loop fuel rest b (obj_set k v obj)).
Proof.
  intros Hk Hv. unfold entry_step. rewrite Hk, Hv. reflexivity.
Qed.

Lemma entry_blank (fuel : nat) (rest : list (list ascii)) (b n : nat)
      (obj : list (list ascii * Node)) (k : list ascii) :
  includes "[" k && includes "]" k = false -> not_deeper n rest ->
  entry_step fuel rest b obj n k [] = parse_loop fuel rest b obj.
Proof.
  intros Hk Hr. unfold entry_step. rewrite Hk. cbn [nonempty negb].
  destruct rest as [ | next rest']; [reflexivity | ].
  cbn in Hr. replace (n <? indent_of next)%nat with false
    by (symmetry; apply Nat.ltb_ge; exact Hr). reflexivity.
Qed.

Lemma entry_nested (fuel : nat) (next : list ascii) (rest : list (list ascii)) (b n : nat)
      (obj : list (list ascii * Node)) (k : list ascii) :
  includes "[" k && includes "]" k = false -> n < indent_of next ->
  entry_step fuel (next :: rest) b obj n k []
  = bind (parse_loop fuel (next :: rest) (n + 2) [])
         (fun '(nestedObj, rest') =>
            parse_loop fuel rest' b (obj_set k (Mapping nestedObj) obj)).
Proof.
  intros Hk Hn. unfold entry_step. rewrite Hk. cbn [nonempty negb].
  replace (n <? indent_of next)%nat with true by (symmetry; apply Nat.ltb_lt; exact Hn).
  reflexivity.
Qed.

(** *** Array declarations *)

Lemma arrayKey_of (k more : list ascii) :
  includes "[" k = false ->
  fst (_parseArrayDeclaration (k ++ "[" :: more)) = k.
Proof.
  intros Hk. unfold _parseArrayDeclaration. cbn [fst].
  rewrite indexOf_app by exact Hk. apply substring_prefix.
Qed.

Lemma entry_array (fuel : nat) (rest : list (list ascii)) (b n : nat)
      (obj : list (list ascii * Node)) (k len vp : list ascii) :
  includes "[" k = false -> includes "{" k = false -> includes "{" len = false ->
  entry_step fuel rest b obj n (k ++ "[" :: len ++ ["]"]) vp
  = if nonempty vp then
      bind (mapM _parsePrimitive (_parseCSVRow vp))
           (fun values => parse_loop fuel rest b (obj_set k (Sequence values) obj))
    else parse_loop fuel rest b (obj_set k (Sequence []) obj).
Proof.
  intros Hk Hb Hl. unfold entry_step.
  pose proof (arrayKey_of k (len ++ ["]"]) Hk) as Ek.
  destruct (_parseArrayDeclaration (k ++ "[" :: len ++ ["]"])) as [arrayKey meta].
  cbn [fst] in Ek. subst arrayKey.
  assert (E1 : includes "[" (k ++ "[" :: len ++ ["]"]) = true).
  { rewrite includes_app, includes_cons, Ascii.eqb_refl. apply orb_true_r. }
  assert (E2 : includes "]" (k ++ "[" :: len ++ ["]"]) = true).
  { rewrite includes_app, includes_cons, includes_app. cbn. rewrite !orb_true_r. reflexivity. }
  assert (E3 : includes "{" (k ++ "[" :: len ++ ["]"]) = false).
  { rewrite includes_app, includes_cons, includes_app, Hb, Hl. reflexivity. }
  rewrite E1, E2, E3. reflexivity.
Qed.

Lemma table_declaration (k len fieldsStr : list ascii) :
  includes "[" k = false -> includes "]" k = false ->
  includes "{" k = false -> includes "}" k = false ->
  includes "]" len = false -> includes "{" len = false -> includes "}" len = false ->
  includes "}" fieldsStr = false ->
  _parseArrayDeclaration (k ++ "[" :: len ++ "]" :: "{" :: fieldsStr ++ ["}"])
  = (k, {| meta_length := parseInt len;
           meta_fields := Some (map trim (split "," fieldsStr)) |}).
Proof.
  intros K1 K2 K3 K4 L2 L3 L4 F4. unfold _parseArrayDeclaration.
  set (key := k ++ "[" :: len ++ "]" :: "{" :: fieldsStr ++ ["}"]).
  assert (I1 : indexOf "[" key = Z.of_nat (length k)) by (apply indexOf_app; exact K1).
  assert (I2 : indexOf "]" key = Z.of_nat (length (k ++ ["["]) + length len)).
  { unfold key. change (k ++ "[" :: len ++ "]" :: "{" :: fieldsStr ++ ["}"])
      with (k ++ ["["] ++ len ++ "]" :: "{" :: fieldsStr ++ ["}"]).
    rewrite !app_assoc. rewrite <- (app_assoc k). rewrite app_assoc.
    rewrite indexOf_app by (rewrite !includes_app, K2, L2; reflexivity).
    rewrite !length_app. f_equal. }
  assert (I3 : indexOf "{" key = Z.of_nat (length (k ++ "[" :: len ++ ["]"]))).
  { unfold key. replace (k ++ "[" :: len ++ "]" :: "{" :: fieldsStr ++ ["}"])
      with ((k ++ "[" :: len ++ ["]"]) ++ "{" :: fieldsStr ++ ["}"])
      by (rewrite <- !app_assoc; cbn; rewrite <- !app_assoc; reflexivity).
    apply indexOf_app. rewrite includes_app, includes_cons, includes_app, K3, L3. reflexivity. }
  assert (I4 : indexOf "}" key
               = Z.of_nat (length (k ++ "[" :: len ++ "]" :: ["{"]) + length fieldsStr)).
  { unfold key. replace (k ++ "[" :: len ++ "]" :: "{" :: fieldsStr ++ ["}"])
      with (((k ++ "[" :: len ++ "]" :: ["{"]) ++ fieldsStr) ++ "}" :: [])
      by (rewrite <- !app_assoc; cbn; rewrite <- !app_assoc; reflexivity).
    rewrite indexOf_app.
    - rewrite length_app. reflexivity.
    - rewrite !includes_app, includes_cons, includes_app, K4, L4, F4. reflexivity. }
  rewrite I1, I2, I3, I4.
  assert (S1 : substring key 0 (Z.of_nat (length k)) = k) by apply substring_prefix.
  assert (S2 : substring key (Z.of_nat (length k) + 1)
                         (Z.of_nat (length (k ++ ["["]) + length len)) = len).
  { replace (Z.of_nat (length k) + 1)%Z with (Z.of_nat (length (k ++ ["["])))
      by (rewrite length_app; cbn; lia).
    unfold key. change (k ++ "[" :: len ++ "]" :: "{" :: fieldsStr ++ ["}"])
      with (k ++ ["["] ++ len ++ "]" :: "{" :: fieldsStr ++ ["}"]).
    rewrite (app_assoc k). apply substring_middle. }
  assert (S3 : substring key (Z.of_nat (length (k ++ "[" :: len ++ ["]"])) + 1)
                 (Z.of_nat (length (k ++ "[" :: len ++ "]" :: ["{"]) + length fieldsStr))
               = fieldsStr).
  { replace (Z.of_nat (length (k ++ "[" :: len ++ ["]"])) + 1)%Z
      with (Z.of_nat (length (k ++ "[" :: len ++ "]" :: ["{"])))
      by (rewrite !length_app; cbn [length]; rewrite !length_app; cbn [length]; lia).
    unfold key. replace (k ++ "[" :: len ++ "]" :: "{" :: fieldsStr ++ ["}"])
      with ((k ++ "[" :: len ++ "]" :: ["{"]) ++ fieldsStr ++ ["}"])
      by (rewrite <- !app_assoc; cbn; rewrite <- !app_assoc; reflexivity).
    apply substring_middle. }
  rewrite S1, S2, S3.
  assert (E : includes "{" key = true).
  { unfold key. rewrite includes_app, includes_cons, includes_app. cbn.
    rewrite !orb_true_r. reflexivity. }
  rewrite E. reflexivity.
Qed.


(** ** Objects built by assignment *)

Lemma existsb_eqb_In (k : list ascii) (ks : list (list ascii)) :
  existsb (ascii_eqb_list k) ks = true <-> In k ks.
Proof.
  rewrite existsb_exists. split.
  - intros [x [Hx E]]. apply ascii_eqb_list_true in E. subst x. exact Hx.
  - intros H. exists k. split; [exact H | apply ascii_eqb_list_refl].
Qed.


Lemma has_key_In (k : list ascii) (o : list (list ascii * Node)) :
  has_key k o = true <-> In k (map fst o).
Proof.
  induction o as [ | [k' v] o IH]; cbn [has_key map fst In].
  - split; [discriminate | tauto].
  - rewrite orb_true_iff, IH, ascii_eqb_list_true. tauto.
Qed.

Lemma key_common_facts (k : list ascii) :
  key_common k = true ->
  trimmed k = true /\ includes ":" k = false /\ includes newline k = false
  /\ ascii_eqb_list k (js "__proto__") = false /\ array_index k = None.
Proof.
  unfold key_common. intros H.
  apply andb_true_iff in H as [H H5]. apply andb_true_iff in H as [H H4].
  apply andb_true_iff in H as [H H3]. apply andb_true_iff in H as [H1 H2].
  apply negb_true_iff in H2, H3, H4.
  destruct (array_index k); [discriminate | ]. auto.
Qed.

Lemma obj_set_fresh (k : list ascii) (v : Node) (o : list (list ascii * Node)) :
  key_common k = true -> ~ In k (map fst o) ->
  obj_set k v o = o ++ [(k, v)].
Proof.
  intros Hk Hn. apply key_common_facts in Hk as (_ & _ & _ & Hp & Hi).
  unfold obj_set. rewrite Hp, Hi.
  destruct (has_key k o) eqn:E; [apply has_key_In in E; contradiction | reflexivity].
Qed.

Lemma set_all_fresh (es obj : list (list ascii * Node)) :
  Forall (fun e => key_common (fst e) = true) es ->
  NoDup (map fst (obj ++ es)) ->
  set_all obj es = obj ++ es.
Proof.
  revert obj. induction es as [ | [k v] es IH]; intros obj Hk Hd.
  - cbn. rewrite app_nil_r. reflexivity.
  - inversion Hk as [ | ? ? Hk1 Hk2]. cbn [set_all fold_left fst snd] in *.
    rewrite map_app in Hd. cbn [map fst] in Hd.
    rewrite obj_set_fresh; [ | exact Hk1 | ].
    + fold (set_all (obj ++ [(k, v)]) es). rewrite IH; [ | exact Hk2 | ].
      * rewrite <- app_assoc. reflexivity.
      * rewrite <- app_assoc, map_app. exact Hd.
    + apply NoDup_remove_2 in Hd. intros Hin. apply Hd. apply in_or_app. left. exact Hin.
Qed.


Lemma lookup_own_keys (es : list (list ascii * Node)) :
  NoDup (map fst es) ->
  map (fun f => lookup f es) (map fst es) = map (fun e => Some (snd e)) es.
Proof.
  induction es as [ | [k v] es IH]; intros Hd; [reflexivity | ].
  cbn [map fst snd] in *. inversion Hd as [ | ? ? Hn Hd'].
  cbn [lookup]. rewrite ascii_eqb_list_refl. f_equal.
  rewrite <- (IH Hd'). apply map_ext_in. intros f Hf.
  destruct (ascii_eqb_list k f) eqn:E; [ | reflexivity].
  apply ascii_eqb_list_true in E. subst f. contradiction.
Qed.

(** ** Tables *)

Lemma fill_row_cells (es2 es1 : list (list ascii * Node)) :
  Forall (fun e => key_common (fst e) = true) es2 ->
  forallb (fun e : list ascii * Node => cell_scalar (snd e)) es2 = true ->
  NoDup (map fst (es1 ++ es2)) ->
  fill_row (map fst es2) (map cell_text (map snd es2)) es1 = Ok (es1 ++ es2).
Proof.
  revert es1. induction es2 as [ | [k v] es2 IH]; intros es1 Hk Hc Hd.
  - cbn. rewrite app_nil_r. reflexivity.
  - inversion Hk as [ | ? ? Hk1 Hk2]. cbn [forallb snd] in Hc.
    apply andb_true_iff in Hc as [Hc1 Hc2]. cbn [map fst snd fill_row] in *.
    rewrite parsePrimitive_cell by exact Hc1. cbn [bind].
    rewrite map_app in Hd. cbn [map fst] in Hd.
    rewrite obj_set_fresh; [ | exact Hk1 | ].
    + rewrite IH; [ | exact Hk2 | exact Hc2 | ].
      * rewrite <- app_assoc. reflexivity.
      * rewrite <- app_assoc, map_app. exact Hd.
    + apply NoDup_remove_2 in Hd. intros Hin. apply Hd. apply in_or_app. left. exact Hin.
Qed.

Lemma table_row_facts (fields : list (list ascii)) (item : Node) :
  table_row fields item = true ->
  exists es, item = Mapping es /\ map fst es = fields
             /\ forallb (fun e : list ascii * Node => cell_scalar (snd e)) es = true.
Proof.
  destruct item as [ | | | | es | ]; try discriminate. cbn [table_row].
  intros H. apply andb_true_iff in H as [H1 H2]. exists es. split; [reflexivity | ].
  split; [ | exact H2]. unfold list_eqb in H1.
  destruct (list_eq_dec (list_eq_dec ascii_dec) (map fst es) fields); [assumption | discriminate].
Qed.

Lemma row_of_table_row (es : list (list ascii * Node)) :
  NoDup (map fst es) ->
  row_of (map fst es) (Mapping es)
  = join [","] (map (fun item => _serializePrimitive (Some item)) (map snd es)).
Proof.
  intros Hd. unfold row_of. cbn [get]. f_equal.
  rewrite <- (map_map (fun f => lookup f es) _serializePrimitive).
  rewrite lookup_own_keys by exact Hd. rewrite !map_map. reflexivity.
Qed.

Lemma forallb_snd (es : list (list ascii * Node)) :
  forallb (fun e : list ascii * Node => cell_scalar (snd e)) es
  = forallb cell_scalar (map snd es).
Proof. induction es as [ | e es IH]; [reflexivity | ]. cbn. rewrite IH. reflexivity. Qed.

(** The row loop reads back the rows of a table, one per line. *)
Lemma parse_rows_table (fields : list (list ascii)) (items : list Node)
      (rows : list Node) (rest : list (list ascii)) (n m : nat) (total : Z) :
  fields <> [] -> NoDup fields ->
  Forall (fun f => key_common f = true) fields ->
  forallb (table_row fields) items = true ->
  Z.of_nat (length rows + length items) = total ->
  n <= m ->
  parse_rows (map (fun item => spaces m ++ row_of fields item) items ++ rest)
             rows (Some total) fields n
  = Ok (rows ++ items, rest).
Proof.
  intros Hne Hd Hk. revert rows.
  induction items as [ | item items IH]; intros rows Hrows Htotal Hn.
  - cbn [map app length] in *. rewrite app_nil_r.
    destruct rest as [ | l rest]; [reflexivity | ]. cbn [parse_rows fewer_than].
    replace (Z.of_nat (length rows) <? total)%Z with false
      by (symmetry; apply Z.ltb_ge; lia). reflexivity.
  - cbn [forallb] in Hrows. apply andb_true_iff in Hrows as [Hrow Hrows].
    destruct (table_row_facts _ _ Hrow) as [es [-> [Ef Hc]]]. subst fields.
    cbn [map app parse_rows fewer_than]. cbn [length] in Htotal.
    replace (Z.of_nat (length rows) <? total)%Z with true
      by (symmetry; apply Z.ltb_lt; lia).
    rewrite row_of_table_row by exact Hd.
    assert (Hvs : map snd es <> []) by (destruct es; [cbn in Hne; congruence | discriminate]).
    rewrite forallb_snd in Hc.
    pose proof (row_tight _ Hvs Hc) as Ht.
    destruct (tight_head _ Ht) as [c [r [Er Hsp]]].
    destruct (tight_trim _ Ht) as [Etrim Hnonempty].
    rewrite trim_spaces_l, Etrim, Hnonempty.
    rewrite Er at 1. rewrite indent_of_spaces by exact Hsp.
    replace (n <=? m)%nat with true by (symmetry; apply Nat.leb_le; exact Hn).
    cbn [andb]. rewrite parseCSVRow_cells by assumption.
    rewrite (fill_row_cells es []);
      [ | apply Forall_forall; intros e He; rewrite Forall_forall in Hk; apply Hk;
          apply in_map; exact He
        | rewrite forallb_snd; exact Hc | exact Hd ].
    cbn [bind app]. rewrite IH by (try assumption; rewrite length_app; cbn [length]; lia).
    rewrite <- app_assoc. reflexivity.
Qed.

(** *** Collecting the columns *)

Lemma add_keys_new (ks acc : list (list ascii)) :
  NoDup (acc ++ ks) -> add_keys ks acc = acc ++ ks.
Proof.
  revert acc. induction ks as [ | k ks IH]; intros acc Hd.
  - cbn. rewrite app_nil_r. reflexivity.
  - cbn [add_keys fold_left].
    destruct (existsb (ascii_eqb_list k) acc) eqn:E.
    + apply existsb_eqb_In in E. apply NoDup_remove_2 in Hd.
      exfalso. apply Hd. apply in_or_app. left. exact E.
    + fold (add_keys ks (acc ++ [k])). rewrite IH by (rewrite <- app_assoc; exact Hd).
      rewrite <- app_assoc. reflexivity.
Qed.

Lemma add_keys_seen (ks acc : list (list ascii)) :
  incl ks acc -> add_keys ks acc = acc.
Proof.
  induction ks as [ | k ks IH]; intros Hi; [reflexivity | ].
  cbn [add_keys fold_left].
  replace (existsb (ascii_eqb_list k) acc) with true
    by (symmetry; apply existsb_eqb_In; apply Hi; left; reflexivity).
  apply IH. intros x Hx. apply Hi. right. exact Hx.
Qed.

Lemma collect_keys_rows (fields : list (list ascii)) (items : list Node)
      (acc : list (list ascii)) :
  forallb (table_row fields) items = true -> incl fields acc ->
  fold_left (fun allKeys item => add_keys (keys item) allKeys) items acc = acc.
Proof.
  revert acc. induction items as [ | item items IH]; intros acc H Hi; [reflexivity | ].
  cbn [forallb] in H. apply andb_true_iff in H as [H1 H2].
  destruct (table_row_facts _ _ H1) as [es [-> [Ef _]]].
  cbn [fold_left keys]. rewrite Ef, add_keys_seen by exact Hi. apply IH; assumption.
Qed.

Lemma collect_keys_table (first : list (list ascii * Node)) (items : list Node) :
  NoDup (map fst first) ->
  forallb (table_row (map fst first)) items = true ->
  collect_keys (Mapping first :: items) = map fst first.
Proof.
  intros Hd H. unfold collect_keys. cbn [fold_left keys].
  change (fold_left _ (map fst first) []) with (add_keys (map fst first) []).
  rewrite add_keys_new by exact Hd. cbn [app].
  apply (collect_keys_rows (map fst first)); [exact H | apply incl_refl].
Qed.

(** ** The lines of a serialized mapping *)




Lemma cell_scalar_primitive (items : list Node) :
  forallb cell_scalar items = true -> forallb is_primitive items = true.
Proof.
  induction items as [ | v items IH]; [reflexivity | ]. cbn [forallb].
  intros H. apply andb_true_iff in H as [H1 H2]. rewrite IH by exact H2.
  destruct v; try discriminate; reflexivity.
Qed.

Lemma table_rows_plain (fields : list (list ascii)) (items : list Node) :
  forallb (table_row fields) items = true -> forallb is_plain_object items = true.
Proof.
  induction items as [ | v items IH]; [reflexivity | ]. cbn [forallb].
  intros H. apply andb_true_iff in H as [H1 H2]. rewrite IH by exact H2.
  destruct v; try discriminate; reflexivity.
Qed.


Lemma serialize_mapping (es : list (list ascii * Node)) (level : nat) :
  serialize 2 (Mapping es) level = _serializeObject_ 2 (serialize 2) es level.
Proof. reflexivity. Qed.






(** ** Reading the lines back *)




Lemma set_all_app (obj es1 es2 : list (list ascii * Node)) :
  set_all obj (es1 ++ es2) = set_all (set_all obj es1) es2.
Proof. unfold set_all. apply fold_left_app. Qed.

(** *** Keys *)

Lemma trimmed_ends (k : list ascii) (x : ascii) (m : list ascii) (y : ascii) :
  trimmed k = true -> is_space x = false -> is_space y = false ->
  trimmed (k ++ x :: m ++ [y]) = true.
Proof.
  intros Hk Hx Hy. destruct k as [ | c r].
  - cbn [app]. pose proof (tight_intro x m y Hx Hy) as H. unfold tight in H.
    apply andb_true_iff in H as [_ H]. exact H.
  - unfold trimmed in Hk. apply andb_true_iff in Hk as [Hc _]. apply negb_true_iff in Hc.
    pose proof (tight_intro c (r ++ x :: m) y Hc Hy) as H. unfold tight in H.
    apply andb_true_iff in H as [_ H]. rewrite <- app_assoc in H. exact H.
Qed.

Lemma includes_join (c s : ascii) (parts : list (list ascii)) :
  Ascii.eqb c s = false ->
  Forall (fun p => includes c p = false) parts ->
  includes c (join [s] parts) = false.
Proof.
  intros Hs H. induction H as [ | p ps Hp Hps IH]; [reflexivity | ].
  destruct ps as [ | q ps]; [exact Hp | ].
  rewrite join_cons2, !includes_app, Hp, IH. cbn. rewrite Hs. reflexivity.
Qed.

Lemma number_excludes (n : Z) (c : ascii) :
  number_char c = false -> includes c (String_of_number n) = false.
Proof. intros H. apply (class_excludes number_char); [apply String_of_number_chars | exact H]. Qed.

Lemma scalar_key_facts (k : list ascii) :
  scalar_key k = true ->
  key_common k = true /\ includes "[" k && includes "]" k = false.
Proof.
  unfold scalar_key. intros H. apply andb_true_iff in H as [H1 H2].
  apply negb_true_iff in H2. auto.
Qed.

Lemma array_key_facts (k : list ascii) :
  array_key k = true ->
  key_common k = true /\ includes "[" k = false /\ includes "{" k = false.
Proof.
  unfold array_key. intros H. apply andb_true_iff in H as [H H3].
  apply andb_true_iff in H as [H1 H2]. apply negb_true_iff in H2, H3. auto.
Qed.

Lemma table_key_facts (k : list ascii) :
  table_key k = true ->
  array_key k = true /\ includes "]" k = false /\ includes "}" k = false.
Proof.
  unfold table_key. intros H. apply andb_true_iff in H as [H H3].
  apply andb_true_iff in H as [H1 H2]. apply negb_true_iff in H2, H3. auto.
Qed.


(** *** Scalars *)

Lemma serializePrimitive_inline_tight (v : Node) :
  inline_scalar false v = true -> tight (_serializePrimitive (Some v)) = true.
Proof.
  destruct v as [ | [ | ] | n | s | | ]; try discriminate; try reflexivity.
  - intros H. apply (cell_text_tight (Number n)). exact H.
  - cbn [inline_scalar _serializePrimitive]. unfold unquoted.
    destruct (includes "," s || includes newline s || includes quote s); cbn [negb].
    + intros _. unfold tight, JSON_stringify. cbn [nonempty andb]. unfold trimmed.
      change (quote :: flat_map json_escape s ++ [quote])
        with ((quote :: flat_map json_escape s) ++ [quote]).
      rewrite last_last. reflexivity.
    + rewrite orb_false_r. unfold reads_as_string, tight. intros H.
      apply andb_true_iff in H as [H _]. apply andb_true_iff in H as [H _]. exact H.
Qed.

Lemma blank_string_blank (s : list ascii) : blank_string s = true -> blank s.
Proof.
  unfold blank_string, blank. intros H. apply Forall_forall. intros c Hc.
  rewrite forallb_forall in H. apply H. exact Hc.
Qed.

(** An inline scalar is either dropped by [prune], and then its text
    is blank, or kept, and then its text reads back as the scalar. *)
Lemma inline_scalar_cases (lenient : bool) (k : list ascii) (x : Node) :
  is_primitive x = true -> inline_scalar lenient x = true ->
  (prune_entry (k, x) = [] /\ trim (_serializePrimitive (Some x)) = [])
  \/ (prune_entry (k, x) = [(k, x)] /\ inline_scalar false x = true).
Proof.
  intros Hp Hi. destruct x as [ | b | n | s | | ]; try discriminate;
    try (right; split; [reflexivity | first [reflexivity | exact Hi]]).
  cbn [prune_entry inline_scalar] in *.
  destruct (unquoted s) eqn:Eu; [ | right; split; reflexivity].
  cbn [andb]. destruct (blank_string s) eqn:Eb.
  - left. split; [reflexivity | ]. cbn [_serializePrimitive]. unfold unquoted in Eu.
    apply negb_true_iff in Eu. rewrite Eu. apply trim_blank, blank_string_blank, Eb.
  - right. split; [reflexivity | ]. rewrite andb_false_r, orb_false_r in Hi.
    rewrite Hi. reflexivity.
Qed.

Lemma parse_scalar_entry (lenient : bool) (fuel b : nat) (k : list ascii) (x : Node)
      (rest : list (list ascii)) (obj : list (list ascii * Node)) :
  is_primitive x = true -> scalar_key k = true -> inline_scalar lenient x = true ->
  not_deeper b rest ->
  ~ In k (map fst obj) ->
  parse_loop (S fuel) ((spaces b ++ k ++ js ": " ++ _serializePrimitive (Some x)) :: rest)
             b obj
  = parse_loop fuel rest b (obj ++ prune_entry (k, x)).
Proof.
  intros Hp Hk Hi Hr Hfresh.
  apply scalar_key_facts in Hk as [Hc Hb].
  pose proof (key_common_facts k Hc) as (Ht & Hcol & _).
  change (k ++ js ": " ++ _serializePrimitive (Some x))
    with (k ++ ":" :: ([" "] ++ _serializePrimitive (Some x))).
  rewrite parse_loop_entry by assumption.
  rewrite trim_app_blank_l by (repeat constructor).
  destruct (inline_scalar_cases lenient k x Hp Hi) as [[E1 E2] | [E1 E2]].
  - rewrite E1, E2, app_nil_r. apply entry_blank; assumption.
  - rewrite E1. pose proof (serializePrimitive_inline_tight x E2) as Htight.
    destruct (tight_trim _ Htight) as [Et Hne]. rewrite Et.
    rewrite entry_scalar by assumption.
    rewrite parsePrimitive_inline by exact E2. cbn [bind].
    rewrite obj_set_fresh by assumption. reflexivity.
Qed.

(** *** Arrays *)




(** ** The structure of a mapping, read back *)








Lemma NoDup_keys_step (ko : list (list ascii)) (k : list ascii) (ks : list (list ascii)) :
  NoDup (ko ++ k :: ks) ->
  ~ In k ko /\ NoDup (ko ++ ks) /\ NoDup ((ko ++ [k]) ++ ks).
Proof.
  intros H. split; [ | split].
  - apply NoDup_remove_2 in H. intros Hin. apply H. apply in_or_app. left. exact Hin.
  - apply NoDup_remove_1 in H. exact H.
  - rewrite <- app_assoc. exact H.
Qed.

Lemma prune_entry_keys (e : list ascii * Node) :
  map fst (prune_entry e) = [] \/ map fst (prune_entry e) = [fst e].
Proof.
  destruct e as [k x]. destruct x as [ | | | s | | ]; cbn [prune_entry]; auto.
  destruct (unquoted s && blank_string s); auto.
Qed.

(** The keys [prune] keeps are among the keys it was given, in order. *)
Lemma prune_keys_NoDup (ko : list (list ascii)) (es : list (list ascii * Node)) :
  NoDup (ko ++ map fst es) -> NoDup (ko ++ map fst (flat_map prune_entry es)).
Proof.
  revert ko. induction es as [ | e es IH]; intros ko H; [exact H | ].
  cbn [map flat_map] in *. rewrite map_app.
  destruct (NoDup_keys_step _ _ _ H) as (_ & H1 & H2).
  destruct (prune_entry_keys e) as [E | E]; rewrite E.
  - apply IH. exact H1.
  - cbn [app]. specialize (IH _ H2). rewrite <- app_assoc in IH. exact IH.
Qed.

Lemma prune_keys_common (lenient : bool) (es : list (list ascii * Node)) :
  forallb (entry_ok lenient) es = true ->
  Forall (fun e => key_common (fst e) = true) es.
Proof.
  intros H. apply Forall_forall. intros [k x] Hin. rewrite forallb_forall in H.
  specialize (H _ Hin). cbn [fst].
  assert (Hs : forall p, scalar_key k && p = true -> key_common k = true).
  { intros p Hp. apply andb_true_iff in Hp as [Hp _].
    apply scalar_key_facts in Hp as [Hp _]. exact Hp. }
  assert (Ha : array_key k = true -> key_common k = true).
  { intros Hp. apply array_key_facts in Hp as [Hp _]. exact Hp. }
  destruct x as [ | b | n | s | nested | arr]; try exact (Hs _ H).
  - cbn [entry_ok] in H. rewrite <- andb_assoc in H. exact (Hs _ H).
  - destruct arr as [ | first items]; [exact (Ha H) | ].
    destruct first; cbn [entry_ok] in H;
      try (apply andb_true_iff in H as [H _]; exact (Ha H)).
    do 4 (apply andb_true_iff in H as [H _]).
    apply table_key_facts in H as [H _]. exact (Ha H).
Qed.


(** ** Lines that differ in trailing white space *)





(** *** Trimming a whole text *)

Lemma indent_of_blank_prefix (u : list ascii) (c : ascii) (s : list ascii) :
  blank u -> is_space c = false -> indent_of (u ++ c :: s) = length u.
Proof.
  intros Hu Hc. unfold indent_of. rewrite trimStart_app_blank by exact Hu.
  rewrite trimStart_head by exact Hc. rewrite length_app. lia.
Qed.

(** A line that is not blank: some white space, a first visible
    character, and the rest. *)
Lemma nonblank_split (l : list ascii) :
  nonempty (trim l) = true ->
  exists u c r, l = u ++ c :: r /\ blank u /\ is_space c = false.
Proof.
  intros H. destruct (trimStart_suffix l) as [u [Hu E]].
  destruct (trimStart l) as [ | c r] eqn:Et.
  - unfold trim in H. rewrite Et in H. discriminate.
  - exists u, c, r. split; [exact E | split; [exact Hu | ]].
    clear -Et. induction l as [ | x l IH]; [discriminate | ].
    cbn in Et. destruct (is_space x) eqn:Ex; [apply IH; exact Et | ].
    injection Et as -> _. exact Ex.
Qed.

Lemma line_eq_trimEnd (l : list ascii) :
  nonempty (trim l) = true -> line_eq l (trimEnd l).
Proof.
  intros H. split; [symmetry; apply trim_trimEnd | ].
  destruct (nonblank_split l H) as (u & c & r & -> & Hu & Hc).
  rewrite trimEnd_app_nonspace by exact Hc.
  rewrite !indent_of_blank_prefix by assumption. reflexivity.
Qed.

Lemma trimEnd_app_nonblank (a l : list ascii) :
  nonempty (trim l) = true -> trimEnd (a ++ l) = a ++ trimEnd l.
Proof.
  intros H. destruct (nonblank_split l H) as (u & c & r & -> & Hu & Hc).
  rewrite app_assoc, !trimEnd_app_nonspace by exact Hc.
  rewrite <- app_assoc. reflexivity.
Qed.



Lemma join_snoc (sep : list ascii) (init : list (list ascii)) (x : list ascii) :
  init <> [] -> join sep (init ++ [x]) = join sep init ++ sep ++ x.
Proof. intros H. rewrite join_app by (auto; discriminate). reflexivity. Qed.

Lemma includes_trimEnd (c : ascii) (l : list ascii) :
  includes c l = false -> includes c (trimEnd l) = false.
Proof.
  intros H. destruct (trimEnd_prefix l) as [u [_ E]]. rewrite E in H.
  rewrite includes_app in H. apply orb_false_iff in H as [H _]. exact H.
Qed.

(** Trimming the joined text of lines whose first starts with a
    visible character and whose last is not blank only trims the end
    of the last line. *)
Lemma trim_joined (init : list (list ascii)) (last : list ascii) (c : ascii)
      (r : list ascii) :
  join [newline] (init ++ [last]) = c :: r -> is_space c = false ->
  nonempty (trim last) = true ->
  trim (join [newline] (init ++ [last])) = join [newline] (init ++ [trimEnd last]).
Proof.
  intros E Hc Hl. unfold trim. rewrite E, trimStart_head by exact Hc. rewrite <- E.
  destruct init as [ | l0 init]; [reflexivity | ].
  rewrite !join_snoc by discriminate.
  rewrite app_assoc, trimEnd_app_nonblank by exact Hl.
  rewrite <- app_assoc. reflexivity.
Qed.

(** ** Every line is one line, and is not blank *)

Lemma includes_spaces (c : ascii) (n : nat) :
  Ascii.eqb c " " = false -> includes c (spaces n) = false.
Proof.
  intros H. induction n as [ | n IH]; [reflexivity | ].
  cbn [spaces repeat]. rewrite includes_cons, H. exact IH.
Qed.

Lemma json_escape_no_newline (c : ascii) : includes newline (json_escape c) = false.
Proof. destruct c as [[ | ] [ | ] [ | ] [ | ] [ | ] [ | ] [ | ] [ | ]]; reflexivity. Qed.

Lemma stringify_no_newline (s : list ascii) : includes newline (JSON_stringify s) = false.
Proof.
  unfold JSON_stringify. rewrite includes_cons, includes_app.
  change (Ascii.eqb newline quote) with false. cbn [orb includes existsb Ascii.eqb].
  rewrite orb_false_r.
  induction s as [ | c s IH]; [reflexivity | ].
  cbn [flat_map]. rewrite includes_app, json_escape_no_newline. exact IH.
Qed.

Lemma serializePrimitive_no_newline (x : Node) :
  is_primitive x = true -> includes newline (_serializePrimitive (Some x)) = false.
Proof.
  destruct x as [ | [ | ] | n | s | | ]; try discriminate; try reflexivity; intros _.
  - apply number_excludes. reflexivity.
  - cbn [_serializePrimitive].
    destruct (includes "," s || includes newline s || includes quote s) eqn:E.
    + apply stringify_no_newline.
    + apply orb_false_iff in E as [E _]. apply orb_false_iff in E as [_ E]. exact E.
Qed.


Lemma cells_no_newline (vs : list Node) :
  forallb cell_scalar vs = true ->
  includes newline (join [","] (map (fun item => _serializePrimitive (Some item)) vs)) = false.
Proof.
  intros H. apply includes_join; [reflexivity | ].
  apply Forall_map, Forall_forall. intros v Hv. rewrite forallb_forall in H.
  apply serializePrimitive_no_newline.
  specialize (H v Hv). destruct v; try discriminate; reflexivity.
Qed.

Lemma row_line_ok (m : nat) (fields : list (list ascii)) (item : Node) :
  fields <> [] -> NoDup fields -> table_row fields item = true ->
  line_ok (spaces m ++ row_of fields item).
Proof.
  intros Hne Hd Hrow. destruct (table_row_facts _ _ Hrow) as [es [-> [Ef Hc]]]. subst fields.
  rewrite row_of_table_row by exact Hd. rewrite forallb_snd in Hc.
  assert (Hvs : map snd es <> []) by (destruct es; [cbn in Hne; congruence | discriminate]).
  split.
  - rewrite includes_app, includes_spaces by reflexivity. apply cells_no_newline. exact Hc.
  - rewrite trim_spaces_l.
    destruct (tight_trim _ (row_tight _ Hvs Hc)) as [-> H]. exact H.
Qed.



(** ** The round trip *)

Lemma join_head (sep l : list ascii) (more : list (list ascii)) :
  exists x, join sep (l :: more) = l ++ x.
Proof.
  destruct more as [ | m more]; [exists []; rewrite app_nil_r; reflexivity | ].
  rewrite join_cons2. eexists. reflexivity.
Qed.

Lemma Forall2_nil_l {A B : Type} (R : A -> B -> Prop) (l : list B) :
  Forall2 R [] l -> l = [].
Proof. intros H. inversion H. reflexivity. Qed.









(** ** The codec at concrete inputs *)



(** C2. The default serializer turns the top-level array
    [[{a:1,b:2},{a:3,b:4}]] into the two rows [1,2] and [3,4] alone: no
    line holds [[2]{a,b}:], and the parser reads the text as the empty
    mapping. *)
Theorem top_level_table_without_header :
  serialize_default two_rows = js "1,2" ++ [newline] ++ js "3,4"
  /\ split newline (serialize_default two_rows) = [js "1,2"; js "3,4"]
  /\ parse (serialize_default two_rows) = Ok (Mapping []).
Proof. repeat split. Qed.

(** The same array under a key is written with its header, and comes
    back. *)
Lemma keyed_table_with_header :
  split newline (serialize_default (Mapping [(js "rows", two_rows)]))
  = [js "rows[2]{a,b}:"; js "  1,2"; js "  3,4"]
  /\ parse (serialize_default (Mapping [(js "rows", two_rows)]))
     = Ok (Mapping [(js "rows", two_rows)]).
Proof. repeat split. Qed.



End TOONFacts.

(** * More properties of the client *)

Module ClientLaws.

Import NexaClient NexaClientFacts ClientRuns ClientCalls.
Local Open Scope Z_scope.
Local Open Scope list_scope.

(** ** Requests are settled once, in the order they were sent *)

Lemma settled_ids_app (a b : list Event) :
  settled_ids (a ++ b) = settled_ids a ++ settled_ids b.
Proof. unfold settled_ids. apply flat_map_app. Qed.

Lemma settled_ids_rejects (e : Error) (pending : list PendingRequest) :
  settled_ids (map (fun req => Reject (id req) e) pending) = map id pending.
Proof.
  induction pending as [ | r rs IH]; [reflexivity | ].
  cbn [map]. change (settled_ids (Reject (id r) e :: ?l)) with (id r :: settled_ids l).
  rewrite IH. reflexivity.
Qed.

Lemma request_ids_log_quiet (e : Event) (c : Client) :
  settled_id e = None -> request_ids (log e c) = request_ids c.
Proof.
  intros H. unfold request_ids, log. cbn [trace pendingRequests].
  rewrite settled_ids_app. unfold settled_ids at 2. cbn [flat_map]. rewrite H.
  cbn [app]. rewrite app_nil_r. reflexivity.
Qed.

Lemma StronglySorted_remove {A : Type} (R : A -> A -> Prop) (a b : list A) (x : A) :
  StronglySorted R (a ++ x :: b) -> StronglySorted R (a ++ b).
Proof.
  induction a as [ | y a IH]; cbn [app]; intros H.
  - apply StronglySorted_inv in H as [H _]. exact H.
  - apply StronglySorted_inv in H as [H1 H2]. constructor; [apply IH; exact H1 | ].
    apply Forall_app in H2 as [Ha Hb]. apply Forall_app. split; [exact Ha | ].
    inversion Hb. assumption.
Qed.

Lemma StronglySorted_snoc (l : list Z) (x : Z) :
  StronglySorted Z.lt l -> Forall (fun i => i < x) l -> StronglySorted Z.lt (l ++ [x]).
Proof.
  induction l as [ | y l IH]; cbn [app]; intros Hs Hf.
  - constructor; constructor.
  - apply StronglySorted_inv in Hs as [Hs Hy]. inversion Hf as [ | ? ? Hyx Hf']. subst.
    constructor; [apply IH; assumption | ].
    apply Forall_app. split; [exact Hy | constructor; [exact Hyx | constructor]].
Qed.

Lemma in_order_same (c c' : Client) :
  request_ids c' = request_ids c -> requestId c' = requestId c ->
  in_order c -> in_order c'.
Proof. unfold in_order. intros -> ->. auto. Qed.

Lemma in_order_remove (c c' : Client) (a b : list Z) (x : Z) :
  request_ids c = a ++ x :: b -> request_ids c' = a ++ b ->
  requestId c' = requestId c ->
  in_order c -> in_order c'.
Proof.
  unfold in_order. intros E -> ->. rewrite E. intros (Hs & Hf & H0).
  split; [eapply StronglySorted_remove; exact Hs | split; [ | exact H0]].
  apply Forall_app in Hf as [Ha Hb]. apply Forall_app. split; [exact Ha | ].
  inversion Hb. assumption.
Qed.

Ltac ids_unchanged :=
  unfold request_ids;
  cbn [trace pendingRequests requestId log set_autoReconnect set_socket set_connected
       set_connecting set_pendingRequests set_requestId set_buffer];
  rewrite ?settled_ids_app; cbn [settled_ids flat_map settled_id app];
  rewrite ?app_nil_r; reflexivity.

Section Runs.

Variable msgpack_encode : Node -> Buffer.
Variable msgpack_decode : Buffer -> option Node.

Lemma dispatch_requestId (c : Client) (t : Z) (p : Buffer) :
  requestId (dispatch msgpack_decode c t p) = requestId c.
Proof.
  unfold dispatch, _handleMessage. destruct (msgpack_decode p) as [v|]; [ | reflexivity].
  destruct (pendingRequests c) as [ | r rest]; [reflexivity | ].
  destruct ((t =? MSG_SUCCESS) || (t =? MSG_PONG)); [reflexivity | ].
  destruct (t =? MSG_ERROR).
  - destruct (error_message v); reflexivity.
  - destruct (t =? MSG_NOT_FOUND); reflexivity.
Qed.

Lemma settle_head (c : Client) (r : PendingRequest) (rest : list PendingRequest)
      (e : Event) :
  pendingRequests c = r :: rest -> settled_id e = Some (id r) ->
  request_ids (log e (set_pendingRequests rest c)) = request_ids c.
Proof.
  intros Hp He. unfold request_ids, log, set_pendingRequests. cbn [trace pendingRequests].
  rewrite Hp, settled_ids_app. unfold settled_ids at 2. cbn [flat_map]. rewrite He.
  cbn [app map]. rewrite <- app_assoc. reflexivity.
Qed.

Lemma dispatch_in_order (c : Client) (t : Z) (p : Buffer) :
  in_order c -> in_order (dispatch msgpack_decode c t p).
Proof.
  intros H. pose proof (dispatch_requestId c t p) as Hid. revert Hid.
  unfold dispatch, _handleMessage. destruct (msgpack_decode p) as [v|].
  2:{ intros Hid. apply (in_order_same c); [ | exact Hid | exact H].
      apply request_ids_log_quiet. reflexivity. }
  destruct (pendingRequests c) as [ | r rest] eqn:Hp.
  { intros Hid. apply (in_order_same c); [ | exact Hid | exact H].
    apply request_ids_log_quiet. reflexivity. }
  destruct ((t =? MSG_SUCCESS) || (t =? MSG_PONG)).
  { intros Hid. apply (in_order_same c); [ | exact Hid | exact H].
    apply (settle_head c r rest); [exact Hp | reflexivity]. }
  destruct (t =? MSG_ERROR).
  - destruct (error_message v).
    + intros Hid. apply (in_order_same c); [ | exact Hid | exact H].
      apply (settle_head c r rest); [exact Hp | reflexivity].
    + intros Hid.
      apply (in_order_remove c _ (settled_ids (trace c)) (map id rest) (id r));
        [ unfold request_ids; rewrite Hp; reflexivity | | exact Hid | exact H ].
      rewrite request_ids_log_quiet by reflexivity. reflexivity.
  - destruct (t =? MSG_NOT_FOUND); intros Hid;
      (apply (in_order_same c); [ | exact Hid | exact H]);
      apply (settle_head c r rest); try exact Hp; reflexivity.
Qed.

Lemma process_in_order (fuel : nat) (c : Client) :
  in_order c -> in_order (process msgpack_decode fuel c).
Proof.
  revert c. induction fuel as [ | fuel IH]; intros c H; [exact H | ].
  cbn [process].
  destruct (12 <=? length (buffer c))%nat; [ | exact H].
  destruct (Z.of_nat (length (buffer c)) <? 12 + readUInt32BE (buffer c) 8); [exact H | ].
  destruct (negb (readUInt32BE (buffer c) 0 =? MAGIC)).
  - apply (in_order_same c); [ids_unchanged | reflexivity | exact H].
  - apply IH, dispatch_in_order. exact H.
Qed.

Lemma sendMessage_in_order (c : Client) (t : Z) (d : Node) (now : Z) :
  in_order c -> in_order (fst (_sendMessage msgpack_encode c t d now)).
Proof.
  intros H. unfold _sendMessage. destruct (negb (connected c)); [exact H | ].
  destruct (build_message t (msgpack_encode d)) as [m|]; [ | exact H].
  cbn [fst]. destruct H as (Hs & Hf & H0). unfold in_order, request_ids.
  cbn [trace pendingRequests requestId log set_requestId set_pendingRequests].
  rewrite settled_ids_app, map_app. cbn [map id].
  change (settled_ids [Socket_write m]) with (@nil Z). rewrite app_nil_r, app_assoc.
  fold (request_ids c). split; [ | split; [ | lia]].
  - apply StronglySorted_snoc; [exact Hs | ].
    eapply Forall_impl; [ | exact Hf]. cbn beta. intros i Hi. lia.
  - apply Forall_app. split.
    + eapply Forall_impl; [ | exact Hf]. cbn beta. intros i Hi. lia.
    + constructor; [lia | constructor].
Qed.

Lemma on_close_request_ids (c : Client) :
  request_ids (on_close c) = request_ids c /\ requestId (on_close c) = requestId c.
Proof.
  unfold on_close. rewrite reject_all_fold.
  cbn [set_connected log set_pendingRequests pendingRequests trace autoReconnect connecting
       connected requestId buffer socket timeout].
  destruct (autoReconnect c && negb (connecting c)); split; try reflexivity;
    unfold request_ids; cbn [trace pendingRequests log set_pendingRequests];
    rewrite !settled_ids_app, settled_ids_rejects;
    change (settled_ids [Emit_disconnect]) with (@nil Z);
    change (settled_ids [SetTimeout Reconnect 1000]) with (@nil Z);
    cbn [map]; rewrite ?app_nil_r; reflexivity.
Qed.

(** X1. In every state the client can reach, the ids of the requests
    settled so far, in the order they were settled, followed by the
    ids of the requests still waiting, are strictly increasing, not
    negative and below the next id: no request is settled twice, none
    is settled before an earlier one, none that is waiting has been
    settled. *)
Theorem requests_settle_once_in_order (c : Client) :
  reachable msgpack_encode msgpack_decode c ->
  StronglySorted Z.lt (settled_ids (trace c) ++ map id (pendingRequests c))
  /\ Forall (fun i => 0 <= i < requestId c)
            (settled_ids (trace c) ++ map id (pendingRequests c)).
Proof.
  intros H. enough (Ho : in_order c) by (destruct Ho as (? & ? & ?); split; assumption).
  induction H as [t a | c _ IH | c _ IH | c msgType data now _ IH
                  | c credentials now _ IH | c data _ IH | c err _ IH | c _ IH | c _ IH].
  - split; [constructor | split; [constructor | cbn; lia]].
  - unfold connect. destruct (connected c); [exact IH | ].
    destruct (connecting c); [exact IH | ].
    apply (in_order_same c); [ids_unchanged | reflexivity | exact IH].
  - unfold disconnect. destruct (socket (set_autoReconnect false c));
      (apply (in_order_same c); [ids_unchanged | reflexivity | exact IH]).
  - apply sendMessage_in_order. exact IH.
  - unfold on_connect. apply sendMessage_in_order.
    apply (in_order_same c); [ids_unchanged | reflexivity | exact IH].
  - unfold _handleData. apply process_in_order.
    apply (in_order_same c); [ids_unchanged | reflexivity | exact IH].
  - unfold on_error. apply (in_order_same c); [ids_unchanged | reflexivity | exact IH].
  - destruct (on_close_request_ids c) as [E1 E2].
    apply (in_order_same c); [exact E1 | exact E2 | exact IH].
  - unfold on_connect_timeout. destruct (socket c); [ | exact IH].
    apply (in_order_same c); [ids_unchanged | reflexivity | exact IH].
Qed.

End Runs.

Lemma requests_settle_once_in_order_witness :
  let c := _handleData msgpack_decode_sample
             (fst (_sendMessage msgpack_encode_sample handshaking MSG_PING (Mapping []) 1))
             (header_bytes MSG_SUCCESS 1 ++ [x80]) in
  StronglySorted Z.lt (settled_ids (trace c) ++ map id (pendingRequests c))
  /\ Forall (fun i => 0 <= i < requestId c)
            (settled_ids (trace c) ++ map id (pendingRequests c)).
Proof.
  apply (requests_settle_once_in_order msgpack_encode_sample msgpack_decode_sample).
  apply reach_on_data, reach_send. unfold handshaking.
  apply reach_on_connect, reach_connect, reach_new.
Defined.

(** ** No reconnection once auto-reconnect is off *)

Section Calm.

Variable msgpack_encode : Node -> Buffer.
Variable msgpack_decode : Buffer -> option Node.

Lemma dispatch_calm (c : Client) (t : Z) (p : Buffer) :
  autoReconnect (dispatch msgpack_decode c t p) = autoReconnect c
  /\ exists e, trace (dispatch msgpack_decode c t p) = trace c ++ [e]
               /\ schedules_reconnect e = false.
Proof.
  unfold dispatch, _handleMessage.
  destruct (msgpack_decode p) as [v|]; [ | split; [ | eexists; split]; reflexivity].
  destruct (pendingRequests c) as [ | r rest]; [split; [ | eexists; split]; reflexivity | ].
  destruct ((t =? MSG_SUCCESS) || (t =? MSG_PONG));
    [split; [ | eexists; split]; reflexivity | ].
  destruct (t =? MSG_ERROR).
  - destruct (error_message v); split; try (eexists; split); reflexivity.
  - destruct (t =? MSG_NOT_FOUND); split; try (eexists; split); reflexivity.
Qed.

Lemma process_calm (fuel : nat) (c : Client) :
  autoReconnect (process msgpack_decode fuel c) = autoReconnect c
  /\ exists more, trace (process msgpack_decode fuel c) = trace c ++ more
                  /\ existsb schedules_reconnect more = false.
Proof.
  revert c. induction fuel as [ | fuel IH]; intros c.
  { split; [reflexivity | exists []; rewrite app_nil_r; split; reflexivity]. }
  cbn [process].
  destruct (12 <=? length (buffer c))%nat;
    [ | split; [reflexivity | exists []; rewrite app_nil_r; split; reflexivity]].
  destruct (Z.of_nat (length (buffer c)) <? 12 + readUInt32BE (buffer c) 8);
    [split; [reflexivity | exists []; rewrite app_nil_r; split; reflexivity] | ].
  destruct (negb (readUInt32BE (buffer c) 0 =? MAGIC)).
  - split; [reflexivity | ]. eexists. cbn [trace log]. rewrite <- app_assoc.
    split; reflexivity.
  - match goal with
    | |- context [process _ fuel ?d] => destruct (IH d) as (Ha & more & Et & Hq)
    end.
    match type of Ha with
    | _ = autoReconnect (dispatch _ ?c' ?t ?p) =>
        destruct (dispatch_calm c' t p) as (Ha' & e & Et' & He)
    end.
    split; [rewrite Ha, Ha'; reflexivity | ].
    exists (e :: more). rewrite Et, Et'. cbn [trace set_buffer].
    rewrite <- app_assoc. split; [reflexivity | ].
    cbn [existsb]. rewrite He, Hq. reflexivity.
Qed.

Lemma step_calm (c c' : Client) :
  step msgpack_encode msgpack_decode c c' ->
  autoReconnect c = false ->
  autoReconnect c' = false
  /\ exists more, trace c' = trace c ++ more /\ existsb schedules_reconnect more = false.
Proof.
  intros Hstep Ha.
  destruct Hstep as [c | c | c msgType data now | c credentials now | c data | c err | c | c].
  - unfold connect. destruct (connected c);
      [split; [exact Ha | exists []; rewrite app_nil_r; split; reflexivity] | ].
    destruct (connecting c);
      [split; [exact Ha | exists []; rewrite app_nil_r; split; reflexivity] | ].
    split; [exact Ha | ]. eexists. cbn [trace log set_socket set_connecting].
    rewrite <- app_assoc. split; reflexivity.
  - unfold disconnect. cbn [socket set_autoReconnect]. destruct (socket c).
    + split; [reflexivity | ]. eexists. split; reflexivity.
    + split; [reflexivity | exists []; rewrite app_nil_r; split; reflexivity].
  - unfold _sendMessage. destruct (negb (connected c));
      [split; [exact Ha | exists []; rewrite app_nil_r; split; reflexivity] | ].
    destruct (build_message msgType (msgpack_encode data));
      [ | split; [exact Ha | exists []; rewrite app_nil_r; split; reflexivity]].
    split; [exact Ha | ]. eexists. split; reflexivity.
  - unfold on_connect, _sendMessage.
    cbn [connected log set_connected set_connecting negb].
    destruct (build_message MSG_CONNECT (msgpack_encode credentials)).
    + split; [exact Ha | ]. eexists.
      cbn [fst trace log set_connected set_connecting set_requestId set_pendingRequests].
      rewrite <- !app_assoc. split; reflexivity.
    + split; [exact Ha | ]. eexists. cbn [fst trace log set_connected set_connecting].
      rewrite <- !app_assoc. split; reflexivity.
  - unfold _handleData.
    destruct (process_calm (S (length (buffer (set_buffer (buffer c ++ data) c))))
                (set_buffer (buffer c ++ data) c)) as (Ha' & more & Et & Hq).
    split; [rewrite Ha'; exact Ha | ]. exists more. split; [exact Et | exact Hq].
  - split; [exact Ha | ]. eexists. unfold on_error.
    cbn [trace log set_connected set_connecting]. rewrite <- !app_assoc. split; reflexivity.
  - unfold on_close. rewrite reject_all_fold.
    cbn [set_connected log set_pendingRequests pendingRequests trace autoReconnect connecting
         connected requestId buffer socket timeout].
    rewrite Ha. cbn [andb]. split; [reflexivity | ]. eexists.
    cbn [trace set_pendingRequests]. rewrite <- app_assoc. split; [reflexivity | ].
    cbn [app existsb schedules_reconnect orb].
    induction (pendingRequests c) as [ | r rs IH]; [reflexivity | exact IH].
  - unfold on_connect_timeout. destruct (socket c).
    + split; [exact Ha | ]. eexists. split; reflexivity.
    + split; [exact Ha | exists []; rewrite app_nil_r; split; reflexivity].
Qed.

(** X2. Once auto-reconnect is off (the option was false, or
    [disconnect()] has been called), no call and no socket event turns
    it on again, and none schedules a reconnection. *)
Theorem no_reconnect_when_off (c0 c : Client) :
  autoReconnect c0 = false ->
  steps msgpack_encode msgpack_decode c0 c ->
  autoReconnect c = false
  /\ exists more, trace c = trace c0 ++ more /\ existsb schedules_reconnect more = false.
Proof.
  intros Ha Hs. induction Hs as [ | c c' _ IH Hstep].
  - split; [exact Ha | exists []; rewrite app_nil_r; split; reflexivity].
  - destruct IH as (Ha1 & more1 & E1 & Q1).
    destruct (step_calm c c' Hstep Ha1) as (Ha2 & more2 & E2 & Q2).
    split; [exact Ha2 | ]. exists (more1 ++ more2).
    rewrite E2, E1, <- app_assoc. split; [reflexivity | ].
    rewrite existsb_app, Q1, Q2. reflexivity.
Qed.

End Calm.

Lemma no_reconnect_when_off_witness :
  let c0 := disconnect handshaking in
  let c := on_close (_handleData msgpack_decode_sample c0 (header_bytes MSG_SUCCESS 1 ++ [x80])) in
  autoReconnect c = false
  /\ exists more, trace c = trace c0 ++ more /\ existsb schedules_reconnect more = false.
Proof.
  apply (no_reconnect_when_off msgpack_encode_sample msgpack_decode_sample).
  - reflexivity.
  - eapply steps_more; [ | apply step_on_close].
    eapply steps_more; [ | apply step_on_data].
    apply steps_none.
Defined.

(** ** What the receive loop leaves in the buffer *)



Section Residue.

Variable msgpack_decode : Buffer -> option Node.



End Residue.

(** ** Responses on the wire and the requests they settle *)

Section Wire.

Variable msgpack_decode : Buffer -> option Node.

Lemma handleData_any_chunks (frames : list Frame) (messages chunks : list Buffer)
      (c : Client) :
  encoded frames messages ->
  buffer c = [] ->
  concat chunks = concat messages ->
  fold_left (_handleData msgpack_decode) chunks c = deliver msgpack_decode c frames.
Proof.
  intros Henc Hb E.
  rewrite <- (handleData_nil msgpack_decode c Hb) at 1.
  rewrite (handleData_chunks msgpack_decode frames messages c chunks [] [] Henc Hb)
    by (cbn [app]; rewrite app_nil_r; symmetry; exact E).
  cbn [app]. rewrite E. apply handleData_stream; assumption.
Qed.

(** X4. Responses that arrive on the wire, however the bytes are
    chunked, settle the waiting requests first come first served: the
    k-th response settles the k-th request, as long as every payload
    decodes and no error response holds null.  The requests behind
    them stay in the queue and the buffer ends up empty. *)
Theorem responses_settle_requests_in_order
        (frames : list Frame) (messages chunks : list Buffer) (payloads : list Node)
        (reqs rest : list PendingRequest) (c : Client) :
  encoded frames messages ->
  decoded msgpack_decode frames payloads ->
  buffer c = [] ->
  concat chunks = concat messages ->
  pendingRequests c = reqs ++ rest ->
  length reqs = length frames ->
  pendingRequests (fold_left (_handleData msgpack_decode) chunks c) = rest
  /\ trace (fold_left (_handleData msgpack_decode) chunks c)
     = trace c
       ++ map (fun x => settlement (id (fst x)) (fst (fst (snd x))) (snd (snd x)))
              (combine reqs (combine frames payloads))
  /\ buffer (fold_left (_handleData msgpack_decode) chunks c) = [].
Proof.
  intros Henc Hdec Hb E Hp Hlen.
  rewrite (handleData_any_chunks frames messages chunks c Henc Hb E).
  destruct (fifo_correlation msgpack_decode frames payloads reqs rest c Hdec Hlen Hp)
    as [H1 H2].
  split; [exact H1 | split; [exact H2 | ]].
  rewrite deliver_buffer. exact Hb.
Qed.

(** X5. With no request waiting, the frames that arrive are handed to
    the 'message' listeners, in order, and the queue stays empty. *)
Theorem unsolicited_frames_are_emitted
        (frames : list Frame) (messages chunks : list Buffer) (payloads : list Node)
        (c : Client) :
  encoded frames messages ->
  Forall2 (fun f v => msgpack_decode (snd f) = Some v) frames payloads ->
  buffer c = [] ->
  concat chunks = concat messages ->
  pendingRequests c = [] ->
  pendingRequests (fold_left (_handleData msgpack_decode) chunks c) = []
  /\ trace (fold_left (_handleData msgpack_decode) chunks c)
     = trace c ++ map (fun x => Emit_message (fst (fst x)) (snd x)) (combine frames payloads).
Proof.
  intros Henc Hdec Hb E Hp.
  rewrite (handleData_any_chunks frames messages chunks c Henc Hb E).
  clear Henc Hb E messages chunks. revert c Hp.
  induction Hdec as [ | [t p] v fs vs Hv _ IH]; intros c Hp.
  - cbn. rewrite app_nil_r. split; [exact Hp | reflexivity].
  - rewrite deliver_cons. cbn [fst snd] in *.
    assert (Ed : dispatch msgpack_decode c t p = log (Emit_message t v) c).
    { unfold dispatch, _handleMessage. rewrite Hv, Hp. reflexivity. }
    rewrite Ed. destruct (IH (log (Emit_message t v) c) Hp) as [H1 H2].
    split; [exact H1 | ]. rewrite H2. cbn [trace log combine map fst snd].
    rewrite <- app_assoc. reflexivity.
Qed.

End Wire.

Lemma responses_settle_requests_in_order_witness :
  let c := fst (_sendMessage msgpack_encode_sample handshaking MSG_PING (Mapping []) 1) in
  let chunks := [[x4e; x45; x58; x41; x01; x81; x00]; [x00; x00; x00; x00; x01; x80; x4e];
                 [x45; x58; x41; x01; x88; x00; x00; x00; x00; x00; x01; x80]] in
  pendingRequests (fold_left (_handleData msgpack_decode_sample) chunks c) = []
  /\ trace (fold_left (_handleData msgpack_decode_sample) chunks c)
     = trace c ++ [Resolve 0 (Mapping []); Resolve 1 (Mapping [])]
  /\ buffer (fold_left (_handleData msgpack_decode_sample) chunks c) = [].
Proof.
  apply (responses_settle_requests_in_order msgpack_decode_sample
           [(MSG_SUCCESS, [x80]); (MSG_PONG, [x80])]
           [header_bytes MSG_SUCCESS 1 ++ [x80]; header_bytes MSG_PONG 1 ++ [x80]]
           _ [Mapping []; Mapping []]
           [{| id := 0; timestamp := 0 |}; {| id := 1; timestamp := 1 |}] []).
  - repeat constructor.
  - repeat constructor; discriminate.
  - reflexivity.
  - reflexivity.
  - reflexivity.
  - reflexivity.
Defined.

Lemma unsolicited_frames_are_emitted_witness :
  let c := connect (new_client 30000 true) in
  let chunks := [[x4e; x45; x58; x41; x01; x81; x00]; [x00; x00; x00; x00; x01; x80]] in
  pendingRequests (fold_left (_handleData msgpack_decode_sample) chunks c) = []
  /\ trace (fold_left (_handleData msgpack_decode_sample) chunks c)
     = trace c ++ [Emit_message MSG_SUCCESS (Mapping [])].
Proof.
  apply (unsolicited_frames_are_emitted msgpack_decode_sample
           [(MSG_SUCCESS, [x80])] [header_bytes MSG_SUCCESS 1 ++ [x80]] _ [Mapping []]).
  - repeat constructor.
  - repeat constructor.
  - reflexivity.
  - reflexivity.
  - reflexivity.
Defined.

(** ** Connecting *)

(** X6. A second [connect()] changes nothing: while the first one is under
    way, or once the connection is open, no second socket is created
    and no second timer is set. *)
Theorem connect_twice (c : Client) : connect (connect c) = connect c.
Proof.
  unfold connect. destruct (connected c) eqn:E1; [rewrite E1; reflexivity | ].
  destruct (connecting c) eqn:E2; [rewrite E1, E2; reflexivity | ].
  cbn [connected connecting log set_socket set_connecting]. rewrite E1. reflexivity.
Qed.

(** X7. A connection attempt that times out leaves the client stuck.
    The timer destroys the socket, which then closes without an
    'error' event; the close handler finds [connecting] still set and
    schedules no reconnection, and every later [connect()] returns
    without creating a socket. *)
Theorem connect_timeout_leaves_connecting (c : Client) :
  connected c = false ->
  connecting c = false ->
  connecting (on_close (on_connect_timeout (connect c))) = true
  /\ trace (on_close (on_connect_timeout (connect c)))
     = trace c
       ++ [SetTimeout ConnectTimeout (timeout c); Socket_create; Socket_destroy;
           Emit_disconnect]
       ++ map (fun req => Reject (id req) Error_ConnectionClosed) (pendingRequests c)
  /\ connect (on_close (on_connect_timeout (connect c)))
     = on_close (on_connect_timeout (connect c)).
Proof.
  intros E1 E2.
  assert (Ec : connect c
               = log Socket_create
                   (set_socket true
                      (log (SetTimeout ConnectTimeout (timeout c))
                         (set_connecting true c)))).
  { unfold connect. rewrite E1, E2. reflexivity. }
  rewrite Ec. unfold on_connect_timeout. cbn [socket log set_socket].
  unfold on_close. rewrite reject_all_fold.
  cbn [set_connected log set_pendingRequests set_socket set_connecting pendingRequests
       trace autoReconnect connecting connected requestId buffer socket timeout].
  rewrite andb_false_r.
  cbn [set_connected log set_pendingRequests set_socket set_connecting pendingRequests
       trace autoReconnect connecting connected requestId buffer socket timeout].
  split; [reflexivity | split].
  - rewrite <- !app_assoc. reflexivity.
  - unfold connect.
    cbn [set_connected log set_pendingRequests set_socket set_connecting pendingRequests
         trace autoReconnect connecting connected requestId buffer socket timeout].
    reflexivity.
Qed.

Lemma connect_timeout_leaves_connecting_witness :
  connecting (on_close (on_connect_timeout (connect (new_client 30000 true)))) = true
  /\ trace (on_close (on_connect_timeout (connect (new_client 30000 true))))
     = [SetTimeout ConnectTimeout 30000; Socket_create; Socket_destroy; Emit_disconnect]
  /\ connect (on_close (on_connect_timeout (connect (new_client 30000 true))))
     = on_close (on_connect_timeout (connect (new_client 30000 true))).
Proof.
  apply (connect_timeout_leaves_connecting (new_client 30000 true)); reflexivity.
Defined.

(** ** [get] and the not-found response *)

Lemma includes_text_nonempty (needle s : list ascii) :
  needle <> [] -> includes_text needle s = true -> s <> [].
Proof.
  intros Hn H ->. destruct needle; [congruence | discriminate].
Qed.

Section Get.

Variable msgpack_encode : Node -> Buffer.
Variable msgpack_decode : Buffer -> option Node.
Variable thrown_message : Thrown -> list ascii.
Variable rangeError_message : list ascii.
Variable transport_message : Z -> list ascii.

(** X8. [get] on a connection with nothing else under way: when the
    response is of the not-found kind, whatever its payload, or is an
    error response whose text holds 'Not found', the frame rejects
    the request and [get] turns the rejection into the value null. *)
Theorem get_answers_null_when_not_found
        (c : Client) (collection key : Node) (now t : Z) (p response : Buffer) (v : Node) :
  connected c = true ->
  pendingRequests c = [] ->
  buffer c = [] ->
  build_message MSG_READ (msgpack_encode (get_payload collection key)) <> None ->
  build_message t p = Some response ->
  msgpack_decode p = Some v ->
  t = MSG_NOT_FOUND
  \/ (t = MSG_ERROR
      /\ exists entries text,
           v = Mapping entries /\ lookup (js "error") entries = Some (Str text)
           /\ includes_text (js "Not found") text = true) ->
  exists (e : Event) (a : Awaited),
    trace (_handleData msgpack_decode
             (fst (_sendMessage msgpack_encode c MSG_READ (get_payload collection key) now))
             response)
    = trace (fst (_sendMessage msgpack_encode c MSG_READ (get_payload collection key) now))
      ++ [e]
    /\ settled_id e = Some (requestId c)
    /\ awaited e = Some a
    /\ get thrown_message rangeError_message transport_message a = Returns (Some Null).
Proof.
  intros Hc Hq Hb Hm Hr Hv Hkind.
  set (c1 := fst (_sendMessage msgpack_encode c MSG_READ (get_payload collection key) now)).
  assert (E1 : pendingRequests c1 = [{| id := requestId c; timestamp := now |}]
               /\ buffer c1 = []).
  { unfold c1, _sendMessage. rewrite Hc. cbn [negb].
    destruct (build_message MSG_READ (msgpack_encode (get_payload collection key)));
      [ | congruence].
    cbn [fst pendingRequests buffer log set_requestId set_pendingRequests requestId].
    rewrite Hq, Hb. split; reflexivity. }
  destruct E1 as [Hq1 Hb1].
  assert (Hnull : t = MSG_ERROR -> v <> Null).
  { destruct Hkind as [-> | [_ (es & s & -> & _)]]; [discriminate | discriminate]. }
  assert (E2 : _handleData msgpack_decode c1 response
               = log (settlement (id {| id := requestId c; timestamp := now |}) t v)
                     (set_pendingRequests [] c1)).
  { rewrite <- (app_nil_r response).
    rewrite (handleData_frame msgpack_decode c1 t p response [] Hr Hb1).
    rewrite handleData_nil by (rewrite dispatch_buffer; exact Hb1).
    unfold dispatch. rewrite Hv.
    rewrite (handleMessage_settles c1 _ [] t v Hq1 Hnull). reflexivity. }
  rewrite E2. cbn [trace log set_pendingRequests id].
  destruct Hkind as [-> | [-> (es & s & -> & Hl & Hs)]].
  - exists (Reject (requestId c) Error_NotFound), (Failed Error_NotFound).
    repeat split.
  - assert (Hne : s <> []) by (apply (includes_text_nonempty (js "Not found")); [discriminate | exact Hs]).
    exists (Reject (requestId c) (Error_Server (Str s))), (Failed (Error_Server (Str s))).
    split; [ | split; [reflexivity | split; [reflexivity | ]]].
    + unfold settlement. cbn [error_message Z.eqb orb MSG_ERROR MSG_SUCCESS MSG_PONG].
      rewrite Hl. destruct s; [congruence | reflexivity].
    + cbn [get message TOON.ToString]. rewrite Hs. reflexivity.
Qed.

End Get.

Lemma get_answers_null_when_not_found_witness :
  exists (e : Event) (a : Awaited),
    trace (_handleData msgpack_decode_sample
             (fst (_sendMessage msgpack_encode_sample
                     (_handleData msgpack_decode_sample handshaking
                        (header_bytes MSG_SUCCESS 1 ++ [x80]))
                     MSG_READ (get_payload (Str (js "users")) (Str (js "u1"))) 5))
             (header_bytes MSG_NOT_FOUND 1 ++ [x80]))
    = trace (fst (_sendMessage msgpack_encode_sample
                    (_handleData msgpack_decode_sample handshaking
                       (header_bytes MSG_SUCCESS 1 ++ [x80]))
                    MSG_READ (get_payload (Str (js "users")) (Str (js "u1"))) 5))
      ++ [e]
    /\ settled_id e = Some 1
    /\ awaited e = Some a
    /\ get (fun _ => []) [] (fun _ => []) a = Returns (Some Null).
Proof.
  apply (get_answers_null_when_not_found msgpack_encode_sample msgpack_decode_sample
           (fun _ => []) [] (fun _ => [])
           (_handleData msgpack_decode_sample handshaking
              (header_bytes MSG_SUCCESS 1 ++ [x80]))
           (Str (js "users")) (Str (js "u1")) 5 MSG_NOT_FOUND [x80]
           (header_bytes MSG_NOT_FOUND 1 ++ [x80]) (Mapping [])).
  - reflexivity.
  - reflexivity.
  - reflexivity.
  - discriminate.
  - reflexivity.
  - reflexivity.
  - left. reflexivity.
Defined.

End ClientLaws.

(** * More properties of the TOON codec *)

Module CodecLaws.

Import TOON TOONFacts.
Local Open Scope char_scope.
Local Open Scope list_scope.

(** ** More on trimming and on the characters of the pieces of a text *)

Lemma trimStart_head_nonspace (s : list ascii) (c : ascii) (r : list ascii) :
  trimStart s = c :: r -> is_space c = false.
Proof.
  induction s as [ | x s IH]; [discriminate | ]. cbn [trimStart].
  destruct (is_space x) eqn:E; [exact IH | ]. intros H. injection H as -> _. exact E.
Qed.

Lemma trimEnd_last_nonspace (s u : list ascii) (d : ascii) :
  trimEnd s = u ++ [d] -> is_space d = false.
Proof.
  unfold trimEnd. intros H. apply (f_equal (@rev ascii)) in H.
  rewrite rev_involutive, rev_app_distr in H. cbn [rev app] in H.
  exact (trimStart_head_nonspace _ _ _ H).
Qed.

(** [trim] gives the empty string or a string with no white space at
    either end. *)
Lemma trimmed_trim (s : list ascii) : trimmed (trim s) = true.
Proof.
  unfold trim. destruct (trimStart s) as [ | c r] eqn:E; [reflexivity | ].
  pose proof (trimStart_head_nonspace s c r E) as Hc.
  pose proof (trimEnd_app_nonspace [] c r Hc) as Ee. cbn [app] in Ee. rewrite Ee.
  destruct (exists_last (l := c :: trimEnd r) ltac:(discriminate)) as [u [d Eu]].
  assert (Hd : is_space d = false).
  { apply (trimEnd_last_nonspace (c :: r) u). rewrite Ee. exact Eu. }
  unfold trimmed. rewrite Hc. cbn [negb andb]. rewrite Eu, last_last, Hd. reflexivity.
Qed.


Lemma trimmed_iff (s : list ascii) : trimmed s = true <-> trim s = s.
Proof.
  split; [apply trim_trimmed | ]. intros E. rewrite <- E. apply trimmed_trim.
Qed.

Lemma trimStart_incl (s : list ascii) : incl (trimStart s) s.
Proof.
  destruct (trimStart_suffix s) as [u [_ E]]. rewrite E at 2. apply incl_appr, incl_refl.
Qed.

Lemma trimEnd_incl (s : list ascii) : incl (trimEnd s) s.
Proof.
  destruct (trimEnd_prefix s) as [u [_ E]]. rewrite E at 2. apply incl_appl, incl_refl.
Qed.

Lemma trim_incl (s : list ascii) : incl (trim s) s.
Proof.
  unfold trim. eapply incl_tran; [apply trimEnd_incl | apply trimStart_incl].
Qed.

Lemma firstn_incl {A : Type} (n : nat) (l : list A) : incl (firstn n l) l.
Proof. rewrite <- (firstn_skipn n l) at 2. apply incl_appl, incl_refl. Qed.

Lemma skipn_incl {A : Type} (n : nat) (l : list A) : incl (skipn n l) l.
Proof. rewrite <- (firstn_skipn n l) at 2. apply incl_appr, incl_refl. Qed.

Lemma substring_incl (s : list ascii) (a b : Z) : incl (substring s a b) s.
Proof.
  unfold substring. eapply incl_tran; [apply firstn_incl | apply skipn_incl].
Qed.

Lemma substring_from_incl (s : list ascii) (a : Z) : incl (substring_from s a) s.
Proof. apply substring_incl. Qed.

Lemma includes_incl (c : ascii) (a b : list ascii) :
  incl a b -> includes c b = false -> includes c a = false.
Proof.
  intros Hi H. apply includes_false_In. apply includes_false_In in H.
  intros Hin. apply H, Hi, Hin.
Qed.

Lemma split_incl (sep : ascii) (s : list ascii) :
  Forall (fun p => incl p s) (split sep s).
Proof.
  induction s as [ | c s IH]; [repeat constructor; apply incl_refl | ].
  cbn [split]. destruct (Ascii.eqb c sep).
  - constructor; [intros x [] | ].
    eapply Forall_impl; [ | exact IH]. intros p Hp. apply incl_tl. exact Hp.
  - destruct (split sep s) as [ | p ps].
    + constructor; [ | constructor]. intros x [<- | []]. left. reflexivity.
    + inversion IH as [ | ? ? Hp Hps]. subst. constructor.
      * intros x [<- | Hx]; [left; reflexivity | right; apply Hp; exact Hx].
      * eapply Forall_impl; [ | exact Hps]. intros q Hq. apply incl_tl. exact Hq.
Qed.

Lemma split_nonempty (sep : ascii) (s : list ascii) : split sep s <> [].
Proof.
  induction s as [ | c s IH]; [discriminate | ]. cbn [split].
  destruct (Ascii.eqb c sep); [discriminate | ].
  destruct (split sep s); discriminate.
Qed.

(** ** Scalars *)

(** X9. Which strings survive [_serializePrimitive] followed by
    [_parsePrimitive]: the ones the serializer quotes (they hold a
    comma, a line break or a double quote), and of the others exactly
    those with no white space at either end that spell neither a
    keyword nor a number.  The empty string is among them. *)
Theorem string_survives_iff (s : list ascii) :
  _parsePrimitive (_serializePrimitive (Some (Str s))) = Ok (Str s)
  <-> negb (unquoted s)
      || (trimmed s && negb (is_keyword s) && negb (is_number_literal s)) = true.
Proof.
  cbn [_serializePrimitive]. unfold unquoted.
  destruct (includes "," s || includes newline s || includes quote s) eqn:Eq;
    cbn [negb orb].
  { split; [reflexivity | intros _; apply parsePrimitive_quoted]. }
  apply orb_false_iff in Eq as [_ Hq].
  assert (Hq' : includes quote (trim s) = false)
    by (apply (includes_incl _ _ s); [apply trim_incl | exact Hq]).
  unfold _parsePrimitive, is_keyword.
  rewrite (startsWith_false _ _ Hq'). cbn [andb].
  split.
  - intros H.
    destruct (ascii_eqb_list (trim s) (js "true")) eqn:E1; [discriminate | ].
    destruct (ascii_eqb_list (trim s) (js "false")) eqn:E2; [discriminate | ].
    destruct (ascii_eqb_list (trim s) (js "null")) eqn:E3; [discriminate | ].
    destruct (is_number_literal (trim s)) eqn:E4.
    { destruct (includes "." (trim s)); [discriminate | ].
      destruct (parseInt (trim s)); discriminate. }
    injection H as E. rewrite E in E1, E2, E3, E4. rewrite E1, E2, E3, E4.
    cbn [orb negb]. rewrite !andb_true_r. rewrite <- E. apply trimmed_trim.
  - intros H. apply andb_true_iff in H as [H Hn]. apply andb_true_iff in H as [Ht Hk].
    apply negb_true_iff in Hn, Hk. apply orb_false_iff in Hk as [Hk Hk3].
    apply orb_false_iff in Hk as [Hk1 Hk2].
    rewrite (trim_trimmed s Ht), Hk1, Hk2, Hk3, Hn. reflexivity.
Qed.

(** X10. A mapping of scalars takes one line per key: the line of a key
    is the key, a colon, a space and the text of the value, which
    never holds a line break, since a string with one is written as a
    JSON literal that escapes it. *)
Theorem scalars_take_one_line_each (es : list (list ascii * Node)) :
  es <> [] ->
  forallb (fun e : list ascii * Node =>
             is_primitive (snd e) && negb (includes newline (fst e))) es = true ->
  split newline (serialize_default (Mapping es))
  = map (fun e : list ascii * Node =>
           fst e ++ js ": " ++ _serializePrimitive (Some (snd e))) es.
Proof.
  intros Hne H.
  assert (E : serialize_default (Mapping es)
              = join [newline]
                  (map (fun e : list ascii * Node =>
                          fst e ++ js ": " ++ _serializePrimitive (Some (snd e))) es)).
  { unfold serialize_default. rewrite serialize_mapping. unfold _serializeObject_.
    cbn [Nat.mul spaces repeat app]. f_equal. clear Hne.
    induction es as [ | [k x] es IH]; [reflexivity | ].
    cbn [forallb fst snd] in H. apply andb_true_iff in H as [Hx Hes].
    apply andb_true_iff in Hx as [Hx _].
    cbn [flat_map map fst snd]. rewrite (IH Hes).
    destruct x; try discriminate; reflexivity. }
  rewrite E. apply split_join.
  - destruct es; [congruence | discriminate].
  - apply Forall_map. apply Forall_forall. intros [k x] Hin.
    rewrite forallb_forall in H. specialize (H _ Hin). cbn [fst snd] in *.
    apply andb_true_iff in H as [Hx Hk]. apply negb_true_iff in Hk.
    rewrite !includes_app, Hk, (serializePrimitive_no_newline x Hx). reflexivity.
Qed.

Lemma scalars_take_one_line_each_witness :
  split newline
    (serialize_default
       (Mapping [(js "note", Str ("l" :: "1" :: newline :: "l" :: "2" :: nil));
                 (js "id", Number 7)]))
  = [js "note: " ++ quote :: js "l1" ++ backslash :: js "nl2" ++ [quote]; js "id: 7"].
Proof.
  apply (scalars_take_one_line_each
           [(js "note", Str ("l" :: "1" :: newline :: "l" :: "2" :: nil));
            (js "id", Number 7)]).
  - discriminate.
  - reflexivity.
Defined.

(** ** Rows *)






Lemma primitives_not_objects (vs : list Node) :
  vs <> [] -> forallb is_primitive vs = true -> forallb is_plain_object vs = false.
Proof.
  destruct vs as [ | v vs]; [congruence | ]. intros _ H. cbn [forallb] in *.
  apply andb_true_iff in H as [H _]. destruct v; try discriminate; reflexivity.
Qed.

(** X12. A top-level array of scalars is written as one row, and the row
    reads back as the array: every item is null, a boolean, a safe
    integer or a string that is not empty, has no white space at
    either end, no double quote and no line break, spells neither a
    keyword nor a number, and has a comma only if it has no backslash
    and no control character. *)
Theorem array_items_round_trip (items : list Node) :
  items <> [] ->
  forallb cell_scalar items = true ->
  serialize_default (Sequence items)
  = join [","] (map (fun item => _serializePrimitive (Some item)) items)
  /\ mapM _parsePrimitive (_parseCSVRow (serialize_default (Sequence items))) = Ok items.
Proof.
  intros Hne Hc.
  assert (E : serialize_default (Sequence items)
              = join [","] (map (fun item => _serializePrimitive (Some item)) items)).
  { unfold serialize_default. cbn [serialize]. unfold _serializeArray_.
    destruct items as [ | v vs]; [congruence | ].
    rewrite (primitives_not_objects (v :: vs)), (cell_scalar_primitive (v :: vs) Hc);
      [reflexivity | discriminate | apply cell_scalar_primitive; exact Hc]. }
  split; [exact E | ].
  rewrite E, (parseCSVRow_cells items Hne Hc). apply mapM_parsePrimitive_cells. exact Hc.
Qed.

Lemma array_items_round_trip_witness :
  serialize_default (Sequence [Str (js "a, b"); Number (-3); Bool true; Null])
  = join [","] (map (fun item => _serializePrimitive (Some item))
                    [Str (js "a, b"); Number (-3); Bool true; Null])
  /\ mapM _parsePrimitive
          (_parseCSVRow
             (serialize_default (Sequence [Str (js "a, b"); Number (-3); Bool true; Null])))
     = Ok [Str (js "a, b"); Number (-3); Bool true; Null].
Proof.
  apply (array_items_round_trip [Str (js "a, b"); Number (-3); Bool true; Null]).
  - discriminate.
  - reflexivity.
Defined.

(** ** Tables *)

Lemma plain_declaration (k len : list ascii) :
  includes "[" k = false -> includes "]" k = false -> includes "{" k = false ->
  includes "]" len = false -> includes "{" len = false ->
  _parseArrayDeclaration (k ++ "[" :: len ++ ["]"])
  = (k, {| meta_length := parseInt len; meta_fields := None |}).
Proof.
  intros K1 K2 K3 L2 L3. unfold _parseArrayDeclaration.
  set (key := k ++ "[" :: len ++ ["]"]).
  assert (I1 : indexOf "[" key = Z.of_nat (length k)) by (apply indexOf_app; exact K1).
  assert (I2 : indexOf "]" key = Z.of_nat (length (k ++ ["["]) + length len)).
  { unfold key. change (k ++ "[" :: len ++ ["]"]) with (k ++ ["["] ++ len ++ ["]"]).
    rewrite !app_assoc. rewrite <- (app_assoc k).
    rewrite indexOf_app by (rewrite !includes_app, K2, L2; reflexivity).
    rewrite !length_app. lia. }
  assert (I3 : includes "{" key = false).
  { unfold key. rewrite includes_app, includes_cons, includes_app, K3, L3. reflexivity. }
  rewrite I1, I2, I3.
  assert (S1 : substring key 0 (Z.of_nat (length k)) = k) by apply substring_prefix.
  assert (S2 : substring key (Z.of_nat (length k) + 1)
                         (Z.of_nat (length (k ++ ["["]) + length len)) = len).
  { replace (Z.of_nat (length k) + 1)%Z with (Z.of_nat (length (k ++ ["["])))
      by (rewrite length_app; cbn; lia).
    unfold key. change (k ++ "[" :: len ++ ["]"]) with (k ++ ["["] ++ len ++ ["]"]).
    rewrite (app_assoc k). apply substring_middle. }
  rewrite S1, S2. reflexivity.
Qed.

(** X13. [_parseArrayDeclaration] reads back the two headers the
    serializer writes, [key[N]] and [key[N]{f1,...,fm}]: the key, the
    length, and the field names, as long as the key holds none of the
    four brackets and no field name holds a comma, a closing brace or
    white space at either end. *)
Theorem array_declaration_round_trip (k : list ascii) (n : nat)
        (fields : list (list ascii)) :
  includes "[" k = false -> includes "]" k = false ->
  includes "{" k = false -> includes "}" k = false ->
  fields <> [] ->
  Forall (fun f => trimmed f = true /\ includes "," f = false /\ includes "}" f = false)
         fields ->
  _parseArrayDeclaration (k ++ js "[" ++ String_of_number (Z.of_nat n) ++ js "]")
  = (k, {| meta_length := Some (Z.of_nat n); meta_fields := None |})
  /\ _parseArrayDeclaration
       (k ++ js "[" ++ String_of_number (Z.of_nat n) ++ js "]{"
          ++ join [","] fields ++ js "}")
     = (k, {| meta_length := Some (Z.of_nat n); meta_fields := Some fields |}).
Proof.
  intros K1 K2 K3 K4 Hne Hf.
  assert (L : forall c, number_char c = false ->
                        includes c (String_of_number (Z.of_nat n)) = false)
    by (intros c Hc; apply number_excludes; exact Hc).
  split.
  - change (k ++ js "[" ++ String_of_number (Z.of_nat n) ++ js "]")
      with (k ++ "[" :: String_of_number (Z.of_nat n) ++ ["]"]).
    rewrite plain_declaration by (auto; apply L; reflexivity).
    rewrite parseInt_number. reflexivity.
  - change (k ++ js "[" ++ String_of_number (Z.of_nat n) ++ js "]{"
              ++ join [","] fields ++ js "}")
      with (k ++ "[" :: String_of_number (Z.of_nat n) ++ "]" :: "{"
              :: join [","] fields ++ ["}"]).
    rewrite table_declaration; try assumption; try (apply L; reflexivity).
    + rewrite parseInt_number, split_join.
      * f_equal. f_equal. f_equal. clear Hne.
        induction Hf as [ | f fs (Ht & _ & _) _ IH]; [reflexivity | ].
        cbn [map]. rewrite (trim_trimmed f Ht), IH. reflexivity.
      * exact Hne.
      * eapply Forall_impl; [ | exact Hf]. cbn beta. intros f (_ & H & _). exact H.
    + apply includes_join; [reflexivity | ].
      eapply Forall_impl; [ | exact Hf]. cbn beta. intros f (_ & _ & H). exact H.
Qed.

Lemma array_declaration_round_trip_witness :
  _parseArrayDeclaration (js "users" ++ js "[" ++ String_of_number (Z.of_nat 12) ++ js "]")
  = (js "users", {| meta_length := Some (Z.of_nat 12); meta_fields := None |})
  /\ _parseArrayDeclaration
       (js "users" ++ js "[" ++ String_of_number (Z.of_nat 12) ++ js "]{"
          ++ join [","] [js "id"; js "full name"] ++ js "}")
     = (js "users", {| meta_length := Some (Z.of_nat 12);
                       meta_fields := Some [js "id"; js "full name"] |}).
Proof.
  apply (array_declaration_round_trip (js "users") 12 [js "id"; js "full name"]);
    try reflexivity; [discriminate | repeat constructor].
Defined.



(** ** The columns of a table *)

Lemma add_keys_facts (ks : list (list ascii)) :
  forall acc : list (list ascii),
    NoDup acc ->
    NoDup (add_keys ks acc)
    /\ (forall k, In k (add_keys ks acc) <-> In k acc \/ In k ks)
    /\ (exists more, add_keys ks acc = acc ++ more).
Proof.
  induction ks as [ | k ks IH]; intros acc Hd.
  - split; [exact Hd | split]; [intros k; cbn; tauto | exists []; cbn; rewrite app_nil_r; reflexivity].
  - change (add_keys (k :: ks) acc)
      with (add_keys ks (if existsb (ascii_eqb_list k) acc then acc else acc ++ [k])).
    destruct (existsb (ascii_eqb_list k) acc) eqn:E.
    + apply existsb_eqb_In in E. destruct (IH acc Hd) as (H1 & H2 & H3).
      split; [exact H1 | split; [ | exact H3]].
      intros x. rewrite H2. cbn [In]. split; [tauto | ].
      intros [H | [<- | H]]; tauto.
    + assert (Hn : ~ In k acc).
      { intros Hin. apply existsb_eqb_In in Hin. congruence. }
      assert (Hd' : NoDup (acc ++ [k])).
      { apply NoDup_app; [exact Hd | repeat constructor; intros [] | ].
        intros x Hx [<- | []]. exact (Hn Hx). }
      destruct (IH (acc ++ [k]) Hd') as (H1 & H2 & [more H3]).
      split; [exact H1 | split].
      * intros x. rewrite H2, in_app_iff. cbn [In]. tauto.
      * exists (k :: more). rewrite H3, <- app_assoc. reflexivity.
Qed.

Lemma collect_keys_fold (arr : list Node) :
  forall acc : list (list ascii),
    NoDup acc ->
    NoDup (fold_left (fun allKeys item => add_keys (keys item) allKeys) arr acc)
    /\ (forall k,
           In k (fold_left (fun allKeys item => add_keys (keys item) allKeys) arr acc)
           <-> In k acc \/ exists item, In item arr /\ In k (keys item))
    /\ (exists more,
           fold_left (fun allKeys item => add_keys (keys item) allKeys) arr acc = acc ++ more).
Proof.
  induction arr as [ | item arr IH]; intros acc Hd.
  - split; [exact Hd | split].
    + intros k. cbn. split; [tauto | ]. intros [H | [item [[] _]]]. exact H.
    + exists []. cbn. rewrite app_nil_r. reflexivity.
  - cbn [fold_left]. destruct (add_keys_facts (keys item) acc Hd) as (A1 & A2 & [m1 A3]).
    destruct (IH _ A1) as (H1 & H2 & [m2 H3]).
    split; [exact H1 | split].
    + intros k. rewrite H2, A2. split.
      * intros [[H | H] | [it [Hin Hk]]]; [left; exact H | right | right].
        -- exists item. split; [left; reflexivity | exact H].
        -- exists it. split; [right; exact Hin | exact Hk].
      * intros [H | [it [[<- | Hin] Hk]]]; [tauto | tauto | ].
        right. exists it. split; assumption.
    + exists (m1 ++ m2). rewrite H3, A3, <- app_assoc. reflexivity.
Qed.

(** X15. The columns of a table are the keys of its items, each once, in
    the order they are first seen: a key of some item is a column,
    every column is a key of some item, and the keys of the first
    item come first. *)
Theorem collect_keys_first_seen (arr : list Node) :
  NoDup (collect_keys arr)
  /\ (forall k, In k (collect_keys arr) <-> exists item, In item arr /\ In k (keys item))
  /\ (forall first items,
         arr = first :: items -> NoDup (keys first) ->
         exists more, collect_keys arr = keys first ++ more).
Proof.
  change (collect_keys arr)
    with (fold_left (fun allKeys item => add_keys (keys item) allKeys) arr []).
  destruct (collect_keys_fold arr [] (NoDup_nil _)) as (H1 & H2 & _).
  split; [exact H1 | split].
  - intros k. rewrite H2. cbn [In]. tauto.
  - intros first items -> Hd. cbn [fold_left].
    rewrite (add_keys_new (keys first) []) by exact Hd. cbn [app].
    destruct (collect_keys_fold items (keys first) Hd) as (_ & _ & H3). exact H3.
Qed.

(** ** The rows of a table *)




(** X17. The rows of a top-level table hold everything but the names of
    the columns: the text is one row per item, and the row loop of
    the parser, told the columns and the number of items, reads the
    items back. *)
Theorem top_level_rows_read_back (first : list (list ascii * Node)) (items : list Node) :
  first <> [] ->
  NoDup (map fst first) ->
  Forall (fun f => key_common f = true) (map fst first) ->
  forallb (table_row (map fst first)) (Mapping first :: items) = true ->
  split newline (serialize_default (Sequence (Mapping first :: items)))
  = map (row_of (map fst first)) (Mapping first :: items)
  /\ parse_rows (split newline (serialize_default (Sequence (Mapping first :: items)))) []
                (Some (Z.of_nat (length (Mapping first :: items)))) (map fst first) 0
     = Ok (Mapping first :: items, []).
Proof.
  intros Hne Hd Hk Hrows.
  assert (Hf : map fst first <> []) by (destruct first; [congruence | discriminate]).
  assert (Hrest : forallb (table_row (map fst first)) items = true).
  { cbn [forallb] in Hrows. apply andb_true_iff in Hrows as [_ H]. exact H. }
  assert (E : serialize_default (Sequence (Mapping first :: items))
              = join [newline] (map (row_of (map fst first)) (Mapping first :: items))).
  { unfold serialize_default. cbn [serialize]. unfold _serializeArray_.
    rewrite (table_rows_plain _ _ Hrows). unfold _serializeTabularArray.
    rewrite (collect_keys_table first items Hd Hrest). reflexivity. }
  assert (Es : split newline (serialize_default (Sequence (Mapping first :: items)))
               = map (row_of (map fst first)) (Mapping first :: items)).
  { rewrite E. apply split_join; [discriminate | ].
    apply Forall_map, Forall_forall. intros item Hin.
    rewrite forallb_forall in Hrows.
    destruct (row_line_ok 0 (map fst first) item Hf Hd (Hrows item Hin)) as [H _].
    exact H. }
  split; [exact Es | ]. rewrite Es.
  pose proof (parse_rows_table (map fst first) (Mapping first :: items) [] [] 0 0
                (Z.of_nat (length (Mapping first :: items))) Hf Hd Hk Hrows
                eq_refl (le_n 0)) as H.
  rewrite app_nil_r in H. exact H.
Qed.

Lemma top_level_rows_read_back_witness :
  split newline (serialize_default two_rows)
  = map (row_of [js "a"; js "b"])
        [Mapping [(js "a", Number 1); (js "b", Number 2)];
         Mapping [(js "a", Number 3); (js "b", Number 4)]]
  /\ parse_rows (split newline (serialize_default two_rows)) [] (Some 2%Z) [js "a"; js "b"] 0
     = Ok ([Mapping [(js "a", Number 1); (js "b", Number 2)];
            Mapping [(js "a", Number 3); (js "b", Number 4)]], []).
Proof.
  apply (top_level_rows_read_back [(js "a", Number 1); (js "b", Number 2)]
           [Mapping [(js "a", Number 3); (js "b", Number 4)]]).
  - discriminate.
  - repeat constructor; cbn; intuition discriminate.
  - repeat constructor.
  - reflexivity.
Defined.

(** ** Whole documents *)

Lemma parse_loop_without_colon (fuel : nat) :
  forall (lines : list (list ascii)) (obj : list (list ascii * Node)),
    Forall (fun l => includes ":" l = false) lines ->
    length lines <= fuel ->
    parse_loop fuel lines 0 obj = Ok (obj, []).
Proof.
  induction fuel as [ | fuel IH]; intros lines obj Hl Hf.
  - destruct lines; [reflexivity | cbn in Hf; lia].
  - destruct lines as [ | line rest]; [reflexivity | ].
    inversion Hl as [ | ? ? Hline Hrest]. subst. cbn [length] in Hf.
    rewrite parse_loop_unfold.
    assert (Ht : includes ":" (trim line) = false)
      by (apply (includes_incl _ _ line); [apply trim_incl | exact Hline]).
    rewrite Ht.
    destruct (negb (nonempty (trim line))); [apply IH; [exact Hrest | lia] | ].
    change (indent_of line <? 0)%nat with false. cbn match.
    destruct (0 <? indent_of line)%nat; apply IH; try exact Hrest; lia.
Qed.

(** X18. A text without a colon parses to the empty mapping, whatever
    else it holds: a line is an entry only if it has a colon, and
    every other line is passed over without a word.  The empty text
    and the rows of a table without its header are such texts. *)
Theorem text_without_colon_is_empty (toonStr : list ascii) :
  includes ":" toonStr = false -> parse toonStr = Ok (Mapping []).
Proof.
  intros H. unfold parse, _parseLines.
  rewrite parse_loop_without_colon; [reflexivity | | lia].
  eapply Forall_impl; [ | apply split_incl]. cbn beta. intros l Hl.
  apply (includes_incl _ _ toonStr); [ | exact H].
  eapply incl_tran; [exact Hl | apply trim_incl].
Qed.

Lemma text_without_colon_is_empty_witness :
  parse (js "name = Ada" ++ newline :: js "  tags = x, y") = Ok (Mapping []).
Proof.
  apply (text_without_colon_is_empty (js "name = Ada" ++ newline :: js "  tags = x, y")).
  reflexivity.
Defined.



(** ** Texts the parser never rejects *)

Lemma parse_digits_from (radix : Z) (s : list ascii) :
  forall a : Z, exists n, parse_digits radix (Some a) s = Some n.
Proof.
  induction s as [ | c s IH]; intros a; [exists a; reflexivity | ].
  cbn [parse_digits]. destruct (digit_value radix c); [apply IH | exists a; reflexivity].
Qed.

Lemma parse_digits_some (s : list ascii) :
  s <> [] -> Forall (fun c => is_digit c = true) s ->
  exists n, parse_digits 10 None s = Some n.
Proof.
  destruct s as [ | c s]; [congruence | ]. intros _ H.
  inversion H as [ | ? ? Hc _]. subst. cbn [parse_digits].
  unfold digit_value. unfold is_digit in Hc. cbn zeta in Hc. rewrite Hc. apply parse_digits_from.
Qed.

Lemma skip_digits_incl (s : list ascii) : incl (skip_digits s) s.
Proof.
  induction s as [ | c s IH]; [apply incl_refl | ]. cbn [skip_digits].
  destruct (is_digit c); [apply incl_tl; exact IH | apply incl_refl].
Qed.

Lemma skip_digits_nil (s : list ascii) :
  skip_digits s = [] -> Forall (fun c => is_digit c = true) s.
Proof.
  induction s as [ | c s IH]; [constructor | ]. cbn [skip_digits].
  destruct (is_digit c) eqn:E; [ | discriminate].
  intros H. constructor; [exact E | apply IH; exact H].
Qed.

Lemma integer_literal_digits (s : list ascii) :
  is_number_literal s = true -> includes "." s = false ->
  exists digits, digits <> [] /\ Forall (fun c => is_digit c = true) digits
                 /\ (s = digits \/ s = "-" :: digits).
Proof.
  intros H Hd.
  assert (K : forall d : list ascii,
             incl d s ->
             match d with
             | [] => false
             | c :: _ =>
                 is_digit c
                 && match skip_digits d with
                    | [] => true
                    | "." :: frac => match frac with [] => false | _ => forallb is_digit frac end
                    | _ => false
                    end
             end = true ->
             d <> [] /\ Forall (fun c => is_digit c = true) d).
  { intros d Hi Hl. destruct d as [ | c r]; [discriminate | ].
    split; [discriminate | ]. apply andb_true_iff in Hl as [_ Hl].
    destruct (skip_digits (c :: r)) as [ | x frac] eqn:Es.
    - apply skip_digits_nil. exact Es.
    - exfalso. destruct (Ascii.eqb x ".") eqn:Ex.
      + apply Ascii.eqb_eq in Ex. subst x.
        apply includes_false_In in Hd. apply Hd, Hi.
        apply (skip_digits_incl (c :: r)). rewrite Es. left. reflexivity.
      + destruct x as [[ | ] [ | ] [ | ] [ | ] [ | ] [ | ] [ | ] [ | ]];
          try discriminate Hl; discriminate Ex. }
  unfold is_number_literal in H.
  destruct s as [ | c r]; [discriminate | ].
  destruct (Ascii.eqb c "-") eqn:Ec.
  - apply Ascii.eqb_eq in Ec. subst c. destruct (K r) as [H1 H2].
    + apply incl_tl, incl_refl.
    + exact H.
    + exists r. split; [exact H1 | split; [exact H2 | right; reflexivity]].
  - assert (Hs : match c :: r with "-" :: rest => rest | _ => c :: r end = c :: r).
    { destruct c as [[ | ] [ | ] [ | ] [ | ] [ | ] [ | ] [ | ] [ | ]];
        try reflexivity; discriminate Ec. }
    rewrite Hs in H. destruct (K (c :: r)) as [H1 H2]; [apply incl_refl | exact H | ].
    exists (c :: r). split; [exact H1 | split; [exact H2 | left; reflexivity]].
Qed.

Lemma csv_loop_incl (rowStr : list ascii) :
  forall (values : list (list ascii)) (current : list ascii) (inQuotes : bool)
         (text : list ascii),
    incl rowStr text ->
    Forall (fun v => incl v text) values -> incl current text ->
    Forall (fun v => incl v text) (fst (csv_loop rowStr values current inQuotes))
    /\ incl (snd (csv_loop rowStr values current inQuotes)) text.
Proof.
  induction rowStr as [ | char rest IH]; intros values current inQuotes text Hr Hv Hc.
  - split; assumption.
  - assert (Hrest : incl rest text) by (intros x Hx; apply Hr; right; exact Hx).
    cbn [csv_loop]. destruct (Ascii.eqb char quote); [apply IH; assumption | ].
    destruct (Ascii.eqb char "," && negb inQuotes).
    + apply IH; [exact Hrest | | intros x []].
      apply Forall_app. split; [exact Hv | ]. constructor; [ | constructor].
      eapply incl_tran; [apply trim_incl | exact Hc].
    + apply IH; [exact Hrest | exact Hv | ].
      apply incl_app; [exact Hc | ]. intros x [<- | []]. apply Hr. left. reflexivity.
Qed.

Lemma parseCSVRow_incl (rowStr text : list ascii) :
  incl rowStr text -> Forall (fun v => incl v text) (_parseCSVRow rowStr).
Proof.
  intros Hr. unfold _parseCSVRow.
  destruct (csv_loop_incl rowStr [] [] false text Hr) as [Hv Hc];
    [constructor | intros x [] | ].
  destruct (csv_loop rowStr [] [] false) as [values current]. cbn [fst snd] in *.
  destruct (nonempty current); [ | exact Hv].
  apply Forall_app. split; [exact Hv | ]. constructor; [ | constructor].
  eapply incl_tran; [apply trim_incl | exact Hc].
Qed.

Section Plain.

(** A text with no double quote and no full stop. *)
Variable text : list ascii.
Hypothesis no_quote : includes quote text = false.
Hypothesis no_stop : includes "." text = false.

Lemma parsePrimitive_plain (v : list ascii) :
  incl v text -> exists x, _parsePrimitive v = Ok x.
Proof.
  intros Hv. unfold _parsePrimitive.
  assert (Ht : incl (trim v) text) by (eapply incl_tran; [apply trim_incl | exact Hv]).
  rewrite (startsWith_false quote (trim v)) by (apply (includes_incl _ _ text); assumption).
  cbn [andb].
  destruct (ascii_eqb_list (trim v) (js "true")); [eexists; reflexivity | ].
  destruct (ascii_eqb_list (trim v) (js "false")); [eexists; reflexivity | ].
  destruct (ascii_eqb_list (trim v) (js "null")); [eexists; reflexivity | ].
  destruct (is_number_literal (trim v)) eqn:En; [ | eexists; reflexivity].
  assert (Hd : includes "." (trim v) = false) by (apply (includes_incl _ _ text); assumption).
  rewrite Hd.
  destruct (integer_literal_digits (trim v) En Hd) as (digits & Hne & Hdig & [E | E]);
    rewrite E; destruct (parseInt_digits digits Hdig) as [P1 P2];
    destruct (parse_digits_some digits Hne Hdig) as [n Hn].
  - rewrite P1, Hn. eexists. reflexivity.
  - rewrite P2, Hn. eexists. reflexivity.
Qed.

Lemma mapM_plain (cells : list (list ascii)) :
  Forall (fun v => incl v text) cells -> exists xs, mapM _parsePrimitive cells = Ok xs.
Proof.
  induction 1 as [ | v cells Hv _ [xs IH]]; [exists []; reflexivity | ].
  destruct (parsePrimitive_plain v Hv) as [x Ex].
  cbn [mapM]. rewrite Ex, IH. eexists. reflexivity.
Qed.

Lemma fill_row_plain (fields : list (list ascii)) :
  forall (values : list (list ascii)) (rowObj : list (list ascii * Node)),
    Forall (fun v => incl v text) values ->
    exists o, fill_row fields values rowObj = Ok o.
Proof.
  induction fields as [ | f fields IH]; intros values rowObj Hv; [eexists; reflexivity | ].
  destruct values as [ | v values]; [eexists; reflexivity | ].
  inversion Hv as [ | ? ? H1 H2]. subst. cbn [fill_row].
  destruct (parsePrimitive_plain v H1) as [x Ex]. rewrite Ex. cbn [bind].
  apply IH. exact H2.
Qed.

Lemma parse_rows_plain (lines : list (list ascii)) :
  forall (rows : list Node) (len : option Z) (fields : list (list ascii)) (rowIndent : nat),
    Forall (fun l => incl l text) lines ->
    exists rows' rest,
      parse_rows lines rows len fields rowIndent = Ok (rows', rest)
      /\ Forall (fun l => incl l text) rest /\ length rest <= length lines.
Proof.
  induction lines as [ | rowLine lines IH]; intros rows len fields rowIndent Hl.
  - exists rows, []. repeat split; [constructor | lia].
  - inversion Hl as [ | ? ? H1 H2]. subst. cbn [parse_rows].
    destruct (fewer_than rows len); [ | exists rows, (rowLine :: lines); repeat split; [exact Hl | lia]].
    destruct ((rowIndent <=? indent_of rowLine)%nat && nonempty (trim rowLine)).
    + destruct (fill_row_plain fields (_parseCSVRow (trim rowLine)) []) as [o Eo].
      { apply parseCSVRow_incl. eapply incl_tran; [apply trim_incl | exact H1]. }
      rewrite Eo. cbn [bind].
      destruct (IH (rows ++ [Mapping o]) len fields rowIndent H2) as (r' & rest & E & Hr & Hn).
      exists r', rest. repeat split; [exact E | exact Hr | cbn [length]; lia].
    + destruct (IH rows len fields rowIndent H2) as (r' & rest & E & Hr & Hn).
      exists r', rest. repeat split; [exact E | exact Hr | cbn [length]; lia].
Qed.

Lemma parse_loop_plain (fuel : nat) :
  forall (lines : list (list ascii)) (baseIndent : nat) (obj : list (list ascii * Node)),
    Forall (fun l => incl l text) lines ->
    length lines <= fuel ->
    exists obj' rest,
      parse_loop fuel lines baseIndent obj = Ok (obj', rest)
      /\ Forall (fun l => incl l text) rest /\ length rest <= length lines.
Proof.
  induction fuel as [ | fuel IH]; intros lines baseIndent obj Hl Hf.
  { destruct lines; [ | cbn in Hf; lia]. exists obj, []. repeat split; [constructor | lia]. }
  destruct lines as [ | line rest].
  { exists obj, []. repeat split; [constructor | lia]. }
  inversion Hl as [ | ? ? Hline Hrest]. subst. cbn [length] in Hf.
  assert (Next : forall b o,
             exists obj' rest',
               parse_loop fuel rest b o = Ok (obj', rest')
               /\ Forall (fun l => incl l text) rest'
               /\ length rest' <= length (line :: rest)).
  { intros b o. destruct (IH rest b o Hrest ltac:(lia)) as (o' & r' & E & Hr & Hn).
    exists o', r'. repeat split; [exact E | exact Hr | cbn [length]; lia]. }
  assert (After : forall (rest' : list (list ascii)) b o,
             Forall (fun l => incl l text) rest' -> length rest' <= length rest ->
             exists obj' rest'',
               parse_loop fuel rest' b o = Ok (obj', rest'')
               /\ Forall (fun l => incl l text) rest''
               /\ length rest'' <= length (line :: rest)).
  { intros rest' b o Hr' Hn'.
    destruct (IH rest' b o Hr' ltac:(lia)) as (o' & r' & E & Hr & Hn).
    exists o', r'. repeat split; [exact E | exact Hr | cbn [length]; lia]. }
  rewrite parse_loop_unfold.
  destruct (negb (nonempty (trim line))); [apply Next | ].
  destruct (indent_of line <? baseIndent)%nat.
  { exists obj, (line :: rest). repeat split; [exact Hl | lia]. }
  destruct (baseIndent <? indent_of line)%nat; [apply Next | ].
  destruct (includes ":" (trim line)); [ | apply Next].
  set (key := trim (substring (trim line) 0 (indexOf ":" (trim line)))).
  set (valuePart := trim (substring_from (trim line) (indexOf ":" (trim line) + 1))).
  assert (Hvp : incl valuePart text).
  { unfold valuePart. eapply incl_tran; [apply trim_incl | ].
    eapply incl_tran; [apply substring_from_incl | ].
    eapply incl_tran; [apply trim_incl | exact Hline]. }
  assert (Regular :
            exists obj' rest',
              (if nonempty valuePart
               then bind (_parsePrimitive valuePart)
                         (fun v => parse_loop fuel rest baseIndent (obj_set key v obj))
               else parse_loop fuel rest baseIndent obj) = Ok (obj', rest')
              /\ Forall (fun l => incl l text) rest'
              /\ length rest' <= length (line :: rest)).
  { destruct (nonempty valuePart); [ | apply Next].
    destruct (parsePrimitive_plain valuePart Hvp) as [x Ex]. rewrite Ex. cbn [bind].
    apply Next. }
  unfold entry_step. fold key. fold valuePart.
  destruct (includes "[" key && includes "]" key).
  - destruct (_parseArrayDeclaration key) as [arrayKey meta].
    destruct (includes "{" key).
    + destruct (parse_rows_plain rest [] (meta_length meta)
                  (match meta_fields meta with Some fields => fields | None => [] end)
                  (indent_of line + 2) Hrest) as (rows & rest' & E & Hr & Hn).
      rewrite E. cbn [bind]. apply After; assumption.
    + destruct (nonempty valuePart); [ | apply Next].
      destruct (mapM_plain (_parseCSVRow valuePart)) as [xs Exs];
        [apply parseCSVRow_incl; exact Hvp | ].
      rewrite Exs. cbn [bind]. apply Next.
  - destruct (negb (nonempty valuePart)); [ | exact Regular].
    destruct rest as [ | next rest0]; [exact Regular | ].
    destruct (indent_of line <? indent_of next)%nat; [ | exact Regular].
    destruct (IH (next :: rest0) (indent_of line + 2) [] Hrest ltac:(lia))
      as (nested & rest' & E & Hr & Hn).
    rewrite E. cbn [bind]. apply After; assumption.
Qed.

(** X20. The parser never throws on a text that has no double quote: the
    only call that can throw is [JSON.parse], which is made for
    values in double quotes alone.  Every line that is not an entry
    is passed over.  (The text has no full stop either: numbers with
    a fraction are not modelled.) *)
Theorem parse_accepts_plain_text : exists result, parse text = Ok (Mapping result).
Proof.
  unfold parse, _parseLines.
  destruct (parse_loop_plain (length (split newline (trim text)))
              (split newline (trim text)) 0 []) as (obj & rest & E & _ & _).
  - eapply Forall_impl; [ | apply split_incl]. cbn beta. intros l Hl.
    eapply incl_tran; [exact Hl | apply trim_incl].
  - lia.
  - rewrite E. exists obj. reflexivity.
Qed.

End Plain.

Lemma parse_accepts_plain_text_witness :
  exists result,
    parse (js "users[3]{id,name}:" ++ newline :: js "  1,Ada" ++ newline :: js "oops"
             ++ newline :: js "  deep: -12" ++ newline :: js "k[x]: a,,b")
    = Ok (Mapping result).
Proof.
  apply (parse_accepts_plain_text
           (js "users[3]{id,name}:" ++ newline :: js "  1,Ada" ++ newline :: js "oops"
              ++ newline :: js "  deep: -12" ++ newline :: js "k[x]: a,,b"));
    reflexivity.
Defined.

(** ** The indent size *)

Lemma parse_loop_deeper (fuel : nat) (line : list ascii) (rest : list (list ascii))
      (b : nat) (obj : list (list ascii * Node)) :
  nonempty (trim line) = true -> b < indent_of line ->
  parse_loop (S fuel) (line :: rest) b obj = parse_loop fuel rest b obj.
Proof.
  intros Hn Hb. rewrite parse_loop_unfold, Hn. cbn [negb].
  replace (indent_of line <? b)%nat with false by (symmetry; apply Nat.ltb_ge; lia).
  replace (b <? indent_of line)%nat with true by (symmetry; apply Nat.ltb_lt; lia).
  reflexivity.
Qed.

Lemma nested_text (n : nat) (k k2 : list ascii) (v : Node) :
  is_primitive v = true ->
  serialize n (Mapping [(k, Mapping [(k2, v)])]) 0
  = (k ++ [":"]) ++ newline
      :: (spaces n ++ k2 ++ ":" :: " " :: _serializePrimitive (Some v)).
Proof.
  intros Hv. cbn [serialize]. unfold _serializeObject_. cbn [flat_map app serialize].
  unfold _serializeObject_. rewrite Nat.mul_1_l. cbn [Nat.mul spaces repeat app].
  destruct v; try discriminate; cbn [flat_map app join]; rewrite <- ?app_assoc; reflexivity.
Qed.

(** X21. The parser expects the nested lines two columns further in,
    whatever indent size the serializer was built with.  With any
    other size a nested mapping with one scalar entry does not come
    back: with size 0 the entry lands in the enclosing mapping, with
    every other size the nested mapping comes back empty. *)
Theorem nested_mapping_needs_indent_two (n : nat) (k k2 : list ascii) (v : Node) :
  n <> 2 ->
  scalar_key k = true -> scalar_key k2 = true ->
  inline_scalar false v = true ->
  parse (serialize n (Mapping [(k, Mapping [(k2, v)])]) 0)
  = Ok (if (n =? 0)%nat then Mapping [(k2, v)] else Mapping [(k, Mapping [])]).
Proof.
  intros Hn Hk Hk2 Hv.
  assert (Hp : is_primitive v = true) by (destruct v; try discriminate; reflexivity).
  pose proof (scalar_key_facts k Hk) as [Hc Hb].
  pose proof (scalar_key_facts k2 Hk2) as [Hc2 Hb2].
  pose proof (key_common_facts k Hc) as (Ht & Hcol & Hnl & _).
  pose proof (key_common_facts k2 Hc2) as (Ht2 & Hcol2 & Hnl2 & _).
  pose proof (serializePrimitive_inline_tight v Hv) as Htight.
  destruct (tight_last _ Htight) as (u & c & Eu & Hcsp).
  set (text := _serializePrimitive (Some v)) in *.
  set (l1 := k ++ [":"]).
  set (l2 := spaces n ++ k2 ++ ":" :: " " :: text).
  rewrite (nested_text n k k2 v Hp). fold text. fold l1. fold l2.
  unfold parse.
  assert (Etrim : trim (l1 ++ newline :: l2) = l1 ++ newline :: l2).
  { apply trim_trimmed. unfold l1, l2. rewrite Eu.
    replace ((k ++ [":"]) ++ newline :: spaces n ++ k2 ++ ":" :: " " :: u ++ [c])
      with (k ++ ":" :: (newline :: spaces n ++ k2 ++ ":" :: " " :: u) ++ [c])
      by (rewrite <- !app_assoc; cbn [app]; rewrite <- !app_assoc; reflexivity).
    apply trimmed_ends; [exact Ht | reflexivity | exact Hcsp]. }
  assert (Hl1 : includes newline l1 = false).
  { unfold l1. rewrite includes_app, Hnl. reflexivity. }
  assert (Hl2 : includes newline l2 = false).
  { unfold l2. rewrite includes_app, includes_spaces by reflexivity.
    rewrite includes_app, Hnl2. cbn [includes existsb orb Ascii.eqb].
    change (existsb (Ascii.eqb newline) text) with (includes newline text).
    unfold text. rewrite (serializePrimitive_no_newline v Hp). reflexivity. }
  rewrite Etrim, (split_app newline l1 l2 Hl1), (split_no_sep newline l2 Hl2).
  unfold _parseLines. cbn [length].
  change l1 with (spaces 0 ++ k ++ ":" :: []).
  rewrite (parse_loop_entry 1 0 k [] [l2] [] Ht Hcol).
  change (trim []) with (@nil ascii).
  assert (Hi2 : indent_of l2 = n) by (apply entry_line_indent; exact Ht2).
  assert (Hne2 : nonempty (trim l2) = true).
  { unfold l2. rewrite entry_line_trim by exact Ht2. destruct k2; reflexivity. }
  destruct n as [ | n].
  - cbn [Nat.eqb]. rewrite (entry_blank 1 [l2] 0 0 [] k Hb) by (unfold not_deeper; lia).
    unfold l2. change (k2 ++ ":" :: " " :: text) with (k2 ++ js ": " ++ text).
    unfold text.
    rewrite (parse_scalar_entry false 0 0 k2 v [] [] Hp Hk2 Hv I (fun H => H)).
    rewrite parse_loop_nil. cbn [bind app].
    destruct (inline_scalar_cases false k2 v Hp Hv) as [[_ E] | [E _]].
    + exfalso. destruct (tight_trim _ Htight) as [E1 E2]. unfold text in E1, E2.
      rewrite E1 in E. rewrite E in E2. discriminate.
    + rewrite E. reflexivity.
  - cbn [Nat.eqb].
    rewrite (entry_nested 1 l2 [] 0 0 [] k Hb) by lia.
    assert (Enested : parse_loop 1 [l2] (0 + 2) [] = Ok ([], [l2]) /\ n = 0
                      \/ parse_loop 1 [l2] (0 + 2) [] = Ok ([], []) /\ 2 <= n).
    { destruct n as [ | [ | n]]; [left | congruence | right].
      - split; [ | reflexivity]. unfold l2.
        change (k2 ++ ":" :: " " :: text) with (k2 ++ ":" :: (" " :: text)).
        apply parse_loop_break; [exact Ht2 | lia].
      - split; [ | lia]. rewrite parse_loop_deeper by (try exact Hne2; lia).
        apply parse_loop_nil. }
    destruct Enested as [[E _] | [E _]]; rewrite E; cbn [bind];
      rewrite (obj_set_fresh k _ [] Hc) by (intros []); cbn [app].
    + rewrite parse_loop_deeper by (try exact Hne2; lia). rewrite parse_loop_nil.
      reflexivity.
    + rewrite parse_loop_nil. reflexivity.
Qed.

Lemma nested_mapping_needs_indent_two_witness :
  parse (serialize 4 (Mapping [(js "owner", Mapping [(js "name", Str (js "Ada"))])]) 0)
  = Ok (Mapping [(js "owner", Mapping [])]).
Proof.
  apply (nested_mapping_needs_indent_two 4 (js "owner") (js "name") (Str (js "Ada")));
    [discriminate | reflexivity ..].
Defined.

(** ** Arrays of arrays *)

Lemma parse_loop_skips (fuel : nat) :
  forall (lines : list (list ascii)) (obj : list (list ascii * Node)),
    Forall (fun l => nonempty (trim l) = true /\ 0 < indent_of l) lines ->
    length lines <= fuel ->
    parse_loop fuel lines 0 obj = Ok (obj, []).
Proof.
  induction fuel as [ | fuel IH]; intros lines obj Hl Hf.
  - destruct lines; [reflexivity | cbn in Hf; lia].
  - destruct lines as [ | line rest]; [reflexivity | ].
    inversion Hl as [ | ? ? [Hn Hi] Hrest]. subst. cbn [length] in Hf.
    rewrite parse_loop_deeper by assumption. apply IH; [exact Hrest | lia].
Qed.

Lemma serialize_scalars (items : list Node) (level : nat) :
  items <> [] -> forallb cell_scalar items = true ->
  serialize 2 (Sequence items) level
  = join [","] (map (fun item => _serializePrimitive (Some item)) items).
Proof.
  intros Hne Hc. cbn [serialize]. unfold _serializeArray_.
  destruct items as [ | v vs]; [congruence | ].
  rewrite (primitives_not_objects (v :: vs)), (cell_scalar_primitive (v :: vs) Hc);
    [reflexivity | discriminate | apply cell_scalar_primitive; exact Hc].
Qed.

Lemma nested_rows_header (k : list ascii) (rows : list (list Node)) :
  rows <> [] ->
  Forall (fun items => items <> [] /\ forallb cell_scalar items = true) rows ->
  _serializeArrayWithKey_ 2 (serialize 2) k (map Sequence rows) 0
  = join [newline]
      ((k ++ "[" :: String_of_number (Z.of_nat (length rows)) ++ ["]"; ":"])
       :: map (fun items =>
                 spaces 2 ++ join [","] (map (fun item => _serializePrimitive (Some item))
                                             items)) rows).
Proof.
  intros Hne Hrows. unfold _serializeArrayWithKey_.
  destruct rows as [ | r rows]; [congruence | ].
  change (map Sequence (r :: rows)) with (Sequence r :: map Sequence rows).
  cbn [forallb is_plain_object is_primitive andb].
  change (Sequence r :: map Sequence rows) with (map Sequence (r :: rows)).
  rewrite length_map, map_map. f_equal. f_equal.
  apply map_ext_in. intros items Hin.
  rewrite Forall_forall in Hrows. destruct (Hrows items Hin) as [H1 H2].
  rewrite (serialize_scalars items (0 + 1) H1 H2). reflexivity.
Qed.

Lemma nested_rows_text (k : list ascii) (rows : list (list Node)) :
  rows <> [] ->
  Forall (fun items => items <> [] /\ forallb cell_scalar items = true) rows ->
  serialize_default (Mapping [(k, Sequence (map Sequence rows))])
  = join [newline]
      ((k ++ "[" :: String_of_number (Z.of_nat (length rows)) ++ ["]"; ":"])
       :: map (fun items =>
                 spaces 2 ++ join [","] (map (fun item => _serializePrimitive (Some item))
                                             items)) rows).
Proof.
  intros Hne Hrows. rewrite <- (nested_rows_header k rows Hne Hrows).
  unfold serialize_default. rewrite serialize_mapping. reflexivity.
Qed.

(** X22. An array of arrays comes back empty.  The serializer writes the
    header [key[N]:] and one indented row per inner array; the parser
    takes the header for an array without items and passes over the
    rows. *)
Theorem array_of_arrays_comes_back_empty (k : list ascii) (rows : list (list Node)) :
  array_key k = true ->
  rows <> [] ->
  Forall (fun items => items <> [] /\ forallb cell_scalar items = true) rows ->
  parse (serialize_default (Mapping [(k, Sequence (map Sequence rows))]))
  = Ok (Mapping [(k, Sequence [])]).
Proof.
  intros Hk Hne Hrows.
  destruct (array_key_facts k Hk) as (Hc & Hb1 & Hb2).
  pose proof (key_common_facts k Hc) as (Ht & Hcol & Hnl & _).
  rewrite (nested_rows_text k rows Hne Hrows).
  set (len := String_of_number (Z.of_nat (length rows))).
  set (line := fun items : list Node =>
                 spaces 2 ++ join [","] (map (fun item => _serializePrimitive (Some item))
                                             items)).
  set (header := k ++ "[" :: len ++ ["]"; ":"]).
  assert (L : forall c, number_char c = false -> includes c len = false)
    by (intros c Hcc; apply number_excludes; exact Hcc).
  assert (Hline : forall items, In items rows ->
                    includes newline (line items) = false
                    /\ nonempty (trim (line items)) = true
                    /\ indent_of (line items) = 2).
  { intros items Hin. rewrite Forall_forall in Hrows. destruct (Hrows items Hin) as [H1 H2].
    pose proof (row_tight items H1 H2) as Htight.
    destruct (tight_trim _ Htight) as [Etrim Hnn].
    destruct (tight_head _ Htight) as (c & r & Ec & Hcs).
    unfold line. split; [ | split].
    - rewrite includes_app, includes_spaces by reflexivity. apply cells_no_newline. exact H2.
    - rewrite trim_spaces_l, Etrim. exact Hnn.
    - rewrite Ec. apply indent_of_spaces. exact Hcs. }
  destruct (exists_last Hne) as [init [last Erows]].
  assert (Hlast : In last rows) by (rewrite Erows; apply in_or_app; right; left; reflexivity).
  destruct (Hline last Hlast) as (Hl1 & Hl2 & Hl3).
  assert (Ejoin : header :: map line rows = (header :: map line init) ++ [line last]).
  { rewrite Erows, map_app. reflexivity. }
  rewrite Ejoin. unfold parse.
  assert (Hhead : exists c r, join [newline] ((header :: map line init) ++ [line last]) = c :: r
                              /\ is_space c = false).
  { cbn [app]. destruct (join_head [newline] header (map line init ++ [line last])) as [x Ex].
    rewrite Ex. unfold header.
    destruct (trimmed_head k "[" (len ++ ["]"; ":"]) Ht eq_refl) as (c & r & Ec & Hcs).
    rewrite Ec. exists c, (r ++ x). split; [reflexivity | exact Hcs]. }
  destruct Hhead as (c & r & Ec & Hcs).
  rewrite (trim_joined _ _ c r Ec Hcs Hl2).
  assert (Hheader : includes newline header = false).
  { unfold header. rewrite includes_app, Hnl, includes_cons, includes_app, L by reflexivity.
    reflexivity. }
  rewrite split_join;
    [ | discriminate
      | apply Forall_app; split;
        [ constructor; [exact Hheader | ];
          apply Forall_map, Forall_forall; intros items Hin;
          apply Hline; rewrite Erows; apply in_or_app; left; exact Hin
        | constructor; [apply includes_trimEnd; exact Hl1 | constructor] ] ].
  unfold _parseLines. cbn [app length].
  assert (Eh : header = spaces 0 ++ (k ++ "[" :: len ++ ["]"]) ++ ":" :: []).
  { unfold header. cbn [spaces repeat app]. rewrite <- app_assoc. cbn [app].
    rewrite <- app_assoc. reflexivity. }
  rewrite Eh.
  rewrite parse_loop_entry;
    [ | apply trimmed_ends; [exact Ht | reflexivity | reflexivity]
      | rewrite includes_app, Hcol, includes_cons, includes_app, L by reflexivity;
        reflexivity ].
  change (trim []) with (@nil ascii).
  rewrite entry_array by (auto; apply L; reflexivity). cbn [nonempty].
  rewrite (obj_set_fresh k _ [] Hc) by (intros []). cbn [app].
  rewrite parse_loop_skips; [reflexivity | | lia].
  apply Forall_app. split.
  - apply Forall_map, Forall_forall. intros items Hin.
    destruct (Hline items) as (_ & H2 & H3);
      [rewrite Erows; apply in_or_app; left; exact Hin | ].
    split; [exact H2 | lia].
  - constructor; [ | constructor].
    destruct (line_eq_trimEnd (line last) Hl2) as [E1 E2].
    rewrite <- E1, <- E2. split; [exact Hl2 | lia].
Qed.

Lemma array_of_arrays_comes_back_empty_witness :
  parse (serialize_default
           (Mapping [(js "matrix", Sequence (map Sequence [[Number 1; Number 2];
                                                           [Number 3; Number 4]]))]))
  = Ok (Mapping [(js "matrix", Sequence [])]).
Proof.
  apply (array_of_arrays_comes_back_empty (js "matrix")
           [[Number 1; Number 2]; [Number 3; Number 4]]).
  - reflexivity.
  - discriminate.
  - repeat constructor; discriminate.
Defined.

End CodecLaws.
